(** * RelayService of ns-auth-sdk: a shallow embedding and its properties

    The development follows [src/services/relay.service.ts] (class
    [RelayService]) and [src/utils/validation.ts].

    Conventions of the embedding.
    - A JavaScript string is a [string]: a sequence of code units, here
      restricted to the range 0..255.  [length] counts code units.
    - A JavaScript integer [number] (times in milliseconds, [created_at],
      [kind]) is a [Z].
    - [undefined] / a missing property is [None].
    - An exception is the [Throw] case of [result]; a promise settles with a
      [result] as well: [Ok v] is "resolved with v", [Throw e] is "rejected
      with e".
    - The platform services the code calls but does not define, the URL
      parser ([new URL]), [JSON.parse], [JSON.stringify], [DOMPurify] and
      the delay [setTimeout] makes of a request out of its range, are
      parameters of the development.
    - Time is the clock in milliseconds; a timer fires exactly when due.
    - The event store is given by what it does: the notifications its
      streams deliver and when, what its [setRelays] does to the array it
      is handed, and, in the operations named [_under], whether its
      methods throw, what it delivers inside [subscribe], and what its
      streams do with an exception of the observer.  The operations
      without that suffix are the same operations on a store that calls
      back after [subscribe] has returned only. *)

From Stdlib Require Import ZArith Ascii String List Bool Lia.
From stdpp Require Import base option list strings gmap fin_maps.

Set Warnings "-register-all".
Local Open Scope string_scope.
Local Open Scope list_scope.
Local Open Scope Z_scope.

(** ** Exceptions and promise settlements *)

Inductive result (A : Type) : Type :=
  | Ok (a : A)
  | Throw (msg : string).
Arguments Ok {A} a.
Arguments Throw {A} msg.

#[global] Instance result_ret : MRet result := fun A a => Ok a.
#[global] Instance result_bind : MBind result := fun A B f r =>
  match r with
  | Ok a => f a
  | Throw msg => Throw msg
  end.

(** [try { body } catch { handler }] *)
Definition try_catch {A} (body : result A) (handler : string -> result A) : result A :=
  match body with
  | Ok a => Ok a
  | Throw msg => handler msg
  end.

(** A promise that settled with [Throw e] was rejected. *)
Definition is_rejected {A} (r : result A) : bool :=
  match r with
  | Ok _ => false
  | Throw _ => true
  end.

(** ** Strings *)

Definition str_length (s : string) : Z := Z.of_nat (String.length s).

(** JavaScript truthiness of a string: every string but the empty one. *)
Definition str_truthy (s : string) : bool :=
  match s with
  | EmptyString => false
  | String _ _ => true
  end.

(** Truthiness of a possibly missing string ([x] in [if (x)], [x && ...]). *)
Definition truthy (o : option string) : bool :=
  match o with
  | Some s => str_truthy s
  | None => false
  end.

(** [x || undefined] on a possibly missing string. *)
Definition or_undefined (o : option string) : option string :=
  if truthy o then o else None.

Definition code (c : ascii) : Z := Z.of_N (N_of_ascii c).

Definition in_range (lo hi : Z) (c : ascii) : bool :=
  (lo <=? code c) && (code c <=? hi).

(** [[0-9a-fA-F]] *)
Definition is_hex_digit (c : ascii) : bool :=
  in_range 48 57 c || in_range 97 102 c || in_range 65 70 c.

(** [\s], and the characters removed by [String.prototype.trim], among the
    code units 0..255: TAB, LF, VT, FF, CR, SPACE and NBSP. *)
Definition is_js_space (c : ascii) : bool :=
  in_range 9 13 c || (code c =? 32) || (code c =? 160).

(** [[a-zA-Z0-9\s\-_]] *)
Definition is_role_char (c : ascii) : bool :=
  in_range 97 122 c || in_range 65 90 c || in_range 48 57 c
  || is_js_space c || (code c =? 45) || (code c =? 95).

(** [/^[cls]+$/.test(s)]: one or more characters, all of the class. *)
Definition test_plus (cls : ascii -> bool) (s : string) : bool :=
  str_truthy s && forallb cls (list_ascii_of_string s).

Fixpoint trim_start (l : list ascii) : list ascii :=
  match l with
  | [] => []
  | c :: rest => if is_js_space c then trim_start rest else l
  end.

(** [s.trim()] *)
Definition trim (s : string) : string :=
  string_of_list_ascii
    (rev (trim_start (rev (trim_start (list_ascii_of_string s))))).

(** ** Validators ([utils/validation.ts]) *)

Definition MAX_ROLE_LENGTH : Z := 100.

Definition isValidRoleTag (role : string) : bool :=
  let trimmed := trim role in
  (0 <? str_length trimmed)
  && (str_length trimmed <=? MAX_ROLE_LENGTH)
  && test_plus is_role_char trimmed.

Definition isValidPubkey (pubkey : string) : bool :=
  (str_length pubkey =? 64) && test_plus is_hex_digit pubkey.

(** The two properties of a parsed [URL] the validators read. *)
Record URL := {
  protocol : string;
  hostname : string
}.

(** ** JSON values, as [JSON.parse] returns them *)

Inductive json :=
  | JNull
  | JBool (b : bool)
  | JNumber (n : Z)
  | JString (s : string)
  | JArray (items : list json)
  | JObject (props : list (string * json)).

(** [!v] *)
Definition js_falsy (v : json) : bool :=
  match v with
  | JNull => true
  | JBool b => negb b
  | JNumber n => n =? 0
  | JString s => negb (str_truthy s)
  | JArray _ | JObject _ => false
  end.

(** [typeof v] *)
Definition js_typeof (v : json) : string :=
  match v with
  | JNull => "object"
  | JBool _ => "boolean"
  | JNumber _ => "number"
  | JString _ => "string"
  | JArray _ | JObject _ => "object"
  end.

(** The last binding of [key] in a member list: when a JSON text repeats a
    key, the later member wins. *)
Fixpoint last_binding (key : string) (props : list (string * json)) : option json :=
  match props with
  | [] => None
  | (k, v) :: rest =>
      match last_binding key rest with
      | Some v' => Some v'
      | None => if String.eqb k key then Some v else None
      end
  end.

(** [v.key] for a named (non-index, non-[length]) property of a parsed
    value that passed the object test; [None] is [undefined]. *)
Definition get_prop (v : json) (key : string) : option json :=
  match v with
  | JObject props => last_binding key props
  | _ => None
  end.

(** The value copied for one whitelisted field:
    [if (typeof parsed.key === 'string') metadata.key = parsed.key]. *)
Definition string_prop (v : json) (key : string) : option string :=
  match get_prop v key with
  | Some (JString s) => Some s
  | _ => None
  end.

(** [ProfileMetadata]: every field optional. *)
Record ProfileMetadata := {
  name : option string;
  display_name : option string;
  about : option string;
  picture : option string;
  website : option string
}.

(** The metadata object with no field set, [{}]. *)
Definition empty_metadata : ProfileMetadata :=
  {| name := None; display_name := None; about := None;
     picture := None; website := None |}.

Definition maxProfileContentSize : Z := 10000.
Definition minProfileQueryIntervalMs : Z := 300.
Definition minPublishIntervalMs : Z := 750.
Definition defaultRelays : list string := ["wss://relay.damus.io"].

(** ** Records on the wire *)

(** A record (event).  [id] and [sig] are opaque to the service and left
    out; [pubkey] is optional on the wire. *)
Record NostrEvent := {
  kind : Z;
  content : string;
  created_at : Z;
  tags : list (list string);
  pubkey : option string
}.

Module FollowEntry.
Record t := {
  pubkey : string;
  relay : option string;
  petname : option string
}.
End FollowEntry.

(** The filter handed to [eventStore.query]. *)
Record Filter := {
  kinds : list Z;
  authors : option (list string);
  limit : option Z
}.

(** What a subscription delivers: the argument of [packet?.event] ([None]
    when the packet is nullish or carries no event). *)
Definition Packet : Type := option NostrEvent.

(** What a publish subscription delivers: [response?.type]. *)
Definition Response : Type := option string.

(** One callback of a subscription. *)
Inductive notification (P : Type) : Type :=
  | Next (item : P)
  | Complete
  | Error (error : string).
Arguments Next {P} item.
Arguments Complete {P}.
Arguments Error {P} error.

(** The behaviour of a subscribed stream: its notifications in delivery
    order, each with the number of milliseconds after [subscribe] at which
    it is delivered.  A stream that never completes simply has no
    [Complete].  These notifications arrive after [subscribe] has
    returned, as events of the event loop; timers fire exactly when due.
    What a store hands over while [subscribe] is still running is not part
    of the stream: it is part of the store's [conduct], below. *)
Definition stream (P : Type) : Type := list (Z * notification P).

(** The injected event store.  The service tests for each method before it
    calls it ([typeof eventStore.query !== 'function'], ['setRelays' in
    eventStore]), so each is optional.  The service hands the store's
    [setRelays] the array [this.relayUrls] itself, not a copy, so that
    method is given by what the array holds when the call returns: the
    argument as it was for a store that only reads it, something else for a
    store that writes to it. *)
Record EventStore := {
  query : option (Filter -> stream Packet);
  publish : option (NostrEvent -> stream Response);
  store_setRelays : option (list string -> list string)
}.

(** The calls the service makes to its collaborators, in order. *)
Inductive call :=
  | CallSetRelays (urls : list string)
  | CallQuery (filter : Filter)
  | CallPublish (event : NostrEvent)
  | CallSign (event : NostrEvent).

(** The mutable fields of a [RelayService] instance. *)
Record RelayService := {
  eventStore : option EventStore;
  relayUrls : list string;
  lastActionAt : gmap string Z
}.

Definition with_relayUrls (this : RelayService) (urls : list string) : RelayService :=
  {| eventStore := eventStore this; relayUrls := urls;
     lastActionAt := lastActionAt this |}.

Definition with_eventStore (this : RelayService) (es : EventStore) : RelayService :=
  {| eventStore := Some es; relayUrls := relayUrls this;
     lastActionAt := lastActionAt this |}.

Definition with_lastActionAt (this : RelayService) (m : gmap string Z) : RelayService :=
  {| eventStore := eventStore this; relayUrls := relayUrls this;
     lastActionAt := m |}.

Record RelayServiceConfig := {
  config_relayUrls : option (list string)
}.

Definition NOT_INITIALIZED : string :=
  "RelayService not initialized. Call initialize() with an EventStore instance.".

(** An asynchronous method: how and when (clock reading, in ms) its promise
    settles, the state it leaves, and the calls it made. *)
Record async (R : Type) : Type := {
  settled : result R;
  settled_at : Z;
  state_after : RelayService;
  calls : list call
}.
Arguments settled {R} _.
Arguments settled_at {R} _.
Arguments state_after {R} _.
Arguments calls {R} _.

(** ** The subscription race

    Every operation subscribes an observer to a stream and arms one timer.
    [on_next], [on_complete] and [on_error] are the three callbacks
    ([None]: the callback returns without settling the promise; a missing
    callback never settles); [on_timeout] is the timer callback and [delay]
    its delay.  The accumulator is the local state the callbacks close over
    (the [profiles] map). *)
Record observer (P S R : Type) : Type := {
  on_next : S -> P -> S * option (result R);
  on_complete : S -> option (result R);
  on_error : S -> string -> option (result R);
  on_timeout : S -> result R;
  delay : Z
}.
Arguments on_next {P S R} _.
Arguments on_complete {P S R} _.
Arguments on_error {P S R} _.
Arguments on_timeout {P S R} _.
Arguments delay {P S R} _.

(** When the timer fires, in ms after it was armed. *)
Definition fires_at {P S R} (o : observer P S R) : Z := Z.max 0 (delay o).

(** The event loop playing a stream against an observer, for a store
    that calls back after [subscribe] has returned only and whose
    notification, when due at the very time the timer is due, comes after
    the timer callback ([race_at] and [subscribe_with] below lift both
    restrictions): notifications
    stamped before the timer are delivered in order; the first callback that
    settles the promise ends the race (every settling callback unsubscribes
    first, so nothing is delivered afterwards); a stream that completed or
    failed delivers nothing more; when the timer fires with the promise
    pending, its callback settles it.  The result is the settlement and its
    time in ms after [subscribe]. *)
Fixpoint race {P S R} (o : observer P S R) (acc : S) (src : stream P)
  : Z * result R :=
  match src with
  | [] => (fires_at o, on_timeout o acc)
  | (t, n) :: rest =>
      if fires_at o <=? t then (fires_at o, on_timeout o acc)
      else
        match n with
        | Next item =>
            match on_next o acc item with
            | (_, Some r) => (t, r)
            | (acc', None) => race o acc' rest
            end
        | Complete =>
            match on_complete o acc with
            | Some r => (t, r)
            | None => (fires_at o, on_timeout o acc)
            end
        | Error e =>
            match on_error o acc e with
            | Some r => (t, r)
            | None => (fires_at o, on_timeout o acc)
            end
        end
  end.

(** [n || fallback] on numbers. *)
Definition num_or (n fallback : Z) : Z := if n =? 0 then fallback else n.

(** ** [enforceRateLimit]

    [now] is the clock at the call.  The result is the clock at which the
    caller resumes, which is also the value stored for the action. *)
Definition enforceRateLimit (this : RelayService) (action : string)
    (minIntervalMs now : Z) : Z * RelayService :=
  let lastAt := default 0 (lastActionAt this !! action) in
  let waitMs := minIntervalMs - (now - lastAt) in
  let resumed := if 0 <? waitMs then now + waitMs else now in
  (resumed, with_lastActionAt this (<[action := resumed]> (lastActionAt this))).

(** The clock at which a read that was called at [now] issues its query:
    when its rate-limit wait is over. *)
Definition issued_at (this : RelayService) (action : string) (now : Z) : Z :=
  fst (enforceRateLimit this action minProfileQueryIntervalMs now).

(** The shape shared by the five reads: guard on the store, rate limit,
    guard on [query], subscribe and race. *)
Definition read {S R} (this : RelayService) (now : Z) (action : string)
    (filter : Filter) (o : observer Packet S R) (acc : S) (unavailable : R)
  : async R :=
  match eventStore this with
  | None =>
      {| settled := Throw NOT_INITIALIZED; settled_at := now;
         state_after := this; calls := [] |}
  | Some es =>
      let '(started, this') :=
        enforceRateLimit this action minProfileQueryIntervalMs now in
      match query es with
      | None =>
          {| settled := Ok unavailable; settled_at := started;
             state_after := this'; calls := [] |}
      | Some q =>
          let '(dt, r) := race o acc (q filter) in
          {| settled := r; settled_at := started + dt;
             state_after := this'; calls := [CallQuery filter] |}
      end
  end.

(** ** Stores that call back inside [subscribe], or throw

    The race above takes the stream as a well-behaved store presents it:
    [query] and [subscribe] return, and the callbacks are made afterwards.
    A store may also call the observer back while [subscribe] is still
    running, and [query], [publish] or [subscribe] may throw.

    Inside [subscribe] the constant [subscription] of the executor is not
    initialised yet, and every callback that settles the promise reaches
    [subscription.unsubscribe()] before it settles: such a callback throws
    there and leaves the promise pending.  What becomes of the exception is
    up to the stream: it may let it through, so that [subscribe] and with
    it the executor throws, which rejects the promise; it may drop the
    subscriber; or it may go on delivering.  A callback that does not
    settle (a record that is passed over, a record that is accumulated)
    runs as it does later. *)
Inductive thrown_callback :=
  | Propagates
  | Unsubscribes
  | Continues.

Definition SUBSCRIPTION_UNSET : string :=
  "ReferenceError: Cannot access 'subscription' before initialization".

(** What a store does besides delivering later.  [query_throws] and
    [publish_throws]: the call, or [subscribe] on what it returns, throws.
    [query_inside] and [publish_inside]: the callbacks made inside
    [subscribe], in order.  [callback_throw]: what the stream does when
    such a callback throws.  [stream_first]: whether a notification due at
    the very time the timer is due is delivered before the timer callback
    runs. *)
Record conduct := {
  query_throws : Filter -> option string;
  query_inside : Filter -> list (notification Packet);
  publish_throws : NostrEvent -> option string;
  publish_inside : NostrEvent -> list (notification Response);
  callback_throw : thrown_callback;
  stream_first : bool
}.

(** The conduct the race above assumes. *)
Definition orderly : conduct :=
  {| query_throws := fun _ => None;
     query_inside := fun _ => [];
     publish_throws := fun _ => None;
     publish_inside := fun _ => [];
     callback_throw := Continues;
     stream_first := false |}.

(** The callbacks made inside [subscribe]: the accumulator they leave and
    whether the subscription is over when [subscribe] returns, or the
    exception that [subscribe] throws. *)
Fixpoint inside {P S R} (o : observer P S R) (mode : thrown_callback) (acc : S)
    (ns : list (notification P)) : result (S * bool) :=
  match ns with
  | [] => Ok (acc, false)
  | Next item :: rest =>
      match on_next o acc item with
      | (acc', None) => inside o mode acc' rest
      | (_, Some _) =>
          match mode with
          | Propagates => Throw SUBSCRIPTION_UNSET
          | Unsubscribes => Ok (acc, true)
          | Continues => inside o mode acc rest
          end
      end
  | Complete :: _ =>
      match on_complete o acc, mode with
      | Some _, Propagates => Throw SUBSCRIPTION_UNSET
      | _, _ => Ok (acc, true)
      end
  | Error e :: _ =>
      match on_error o acc e, mode with
      | Some _, Propagates => Throw SUBSCRIPTION_UNSET
      | _, _ => Ok (acc, true)
      end
  end.




(** Whether the timer, due at [due], runs before a notification due at
    [t]. *)
Definition timer_first (due : Z) (stream_first : bool) (t : Z) : bool :=
  if stream_first then due <? t else due <=? t.

(** The race of an observer whose timer is due at [due]. *)
Fixpoint race_at {P S R} (due : Z) (stream_first : bool) (o : observer P S R)
    (acc : S) (src : stream P) : Z * result R :=
  match src with
  | [] => (due, on_timeout o acc)
  | (t, n) :: rest =>
      if timer_first due stream_first t then (due, on_timeout o acc)
      else
        match n with
        | Next item =>
            match on_next o acc item with
            | (_, Some r) => (t, r)
            | (acc', None) => race_at due stream_first o acc' rest
            end
        | Complete =>
            match on_complete o acc with
            | Some r => (t, r)
            | None => (due, on_timeout o acc)
            end
        | Error e =>
            match on_error o acc e with
            | Some r => (t, r)
            | None => (due, on_timeout o acc)
            end
        end
  end.

(** The executor from [subscribe] on: the call throws, or a callback made
    inside [subscribe] throws through, and the promise is rejected at
    once; or [subscribe] returns, the timer is armed, and the race is on
    for what the stream delivers later, if it is not over already. *)
Definition subscribe_with {P S R} (thrown : option string)
    (ns : list (notification P)) (mode : thrown_callback) (stream_first : bool)
    (due : Z) (o : observer P S R) (acc : S) (later : stream P)
  : Z * result R :=
  match thrown with
  | Some e => (0, Throw e)
  | None =>
      match inside o mode acc ns with
      | Throw e => (0, Throw e)
      | Ok (acc', true) => (due, on_timeout o acc')
      | Ok (acc', false) => race_at due stream_first o acc' later
      end
  end.

(** The shape shared by the five reads, on a store of any conduct. *)
Definition read_under {S R} (c : conduct) (this : RelayService) (now : Z)
    (action : string) (filter : Filter) (o : observer Packet S R) (acc : S)
    (unavailable : R) : async R :=
  match eventStore this with
  | None =>
      {| settled := Throw NOT_INITIALIZED; settled_at := now;
         state_after := this; calls := [] |}
  | Some es =>
      let '(started, this') :=
        enforceRateLimit this action minProfileQueryIntervalMs now in
      match query es with
      | None =>
          {| settled := Ok unavailable; settled_at := started;
             state_after := this'; calls := [] |}
      | Some q =>
          let '(dt, r) :=
            subscribe_with (query_throws c filter) (query_inside c filter)
              (callback_throw c) (stream_first c) (fires_at o) o acc
              (q filter) in
          {| settled := r; settled_at := started + dt;
             state_after := this'; calls := [CallQuery filter] |}
      end
  end.

(** ** The pages that call the service

    The state each handler writes, and what a handler leaves when its
    promise settles: the page state (before the timers that clear the
    message fire), the service, the calls made, and the clock. *)

Module Membership.
Record state := {
  members : list FollowEntry.t;
  saveMessage : option string;
  isSaving : bool
}.
End Membership.

Module Profile.
Record state := {
  isSaving : bool;
  saveMessage : option string;
  suggestedRole : option string;
  isGettingRole : bool
}.
End Profile.

Record handled (S : Type) : Type := {
  ui : S;
  service : RelayService;
  made : list call;
  finished_at : Z
}.
Arguments ui {S} _.
Arguments service {S} _.
Arguments made {S} _.
Arguments finished_at {S} _.

(** The object a metadata value stringifies to: its present fields, as
    string members, in declaration order. *)
Definition json_of_metadata (m : ProfileMetadata) : json :=
  JObject
    (omap (fun kv : string * option string =>
             match snd kv with
             | Some v => Some (fst kv, JString v)
             | None => None
             end)
          [("name", name m); ("display_name", display_name m);
           ("about", about m); ("picture", picture m); ("website", website m)]).

(** ** Vocabulary for the statements *)

(** A parsed value is an object in the sense of the test
    [!parsed || typeof parsed !== 'object']: an object literal or an array
    (an array is an object to [typeof]); [null] and the primitives are
    not. *)
Definition is_object (v : json) : bool :=
  match v with
  | JArray _ | JObject _ => true
  | _ => false
  end.

(** [null] and the primitives: the parsed values the same test turns
    away. *)
Definition is_primitive (v : json) : bool :=
  match v with
  | JNull | JBool _ | JNumber _ | JString _ => true
  | JArray _ | JObject _ => false
  end.

(** [v] is the value of the last member named [key] of a JSON object text
    with the members [props]. *)
Definition last_member (key : string) (props : list (string * json)) (v : json)
  : Prop :=
  exists before after,
    props = before ++ (key, v) :: after
    /\ forall kv, kv ∈ after -> fst kv <> key.

(** [metadata] holds exactly those of the five whitelisted fields whose
    member in [props] has a string for value, with that string. *)
Definition holds_string_members (props : list (string * json))
    (metadata : ProfileMetadata) : Prop :=
  (forall s, name metadata = Some s <-> last_member "name" props (JString s))
  /\ (forall s, display_name metadata = Some s
                <-> last_member "display_name" props (JString s))
  /\ (forall s, about metadata = Some s <-> last_member "about" props (JString s))
  /\ (forall s, picture metadata = Some s
                <-> last_member "picture" props (JString s))
  /\ (forall s, website metadata = Some s
                <-> last_member "website" props (JString s)).

(** The items a subscription delivers before it ends or the deadline
    passes, when no callback settles earlier. *)
Fixpoint delivered {P} (deadline : Z) (src : stream P) : list P :=
  match src with
  | [] => []
  | (t, n) :: rest =>
      if deadline <=? t then []
      else
        match n with
        | Next item => item :: delivered deadline rest
        | _ => []
        end
  end.

(** How a subscription that nothing settled earlier ends. *)
Inductive ending :=
  | Completed (t : Z)
  | Failed (t : Z) (error : string)
  | TimedOut.

Fixpoint ending_of {P} (deadline : Z) (src : stream P) : ending :=
  match src with
  | [] => TimedOut
  | (t, n) :: rest =>
      if deadline <=? t then TimedOut
      else
        match n with
        | Next _ => ending_of deadline rest
        | Complete => Completed t
        | Error e => Failed t e
        end
  end.

(** A stream that never completes and never fails. *)
Definition never_ends {P} (src : stream P) : Prop :=
  forall t n, (t, n) ∈ src -> exists item, n = Next item.

(** No delivered item makes [on_next] settle (for an observer without
    accumulator). *)
Definition none_settles {P R} (o : observer P unit R) (src : stream P) : Prop :=
  forall item, item ∈ delivered (fires_at o) src -> snd (on_next o tt item) = None.

(** When a subscription that nothing settled earlier is over: at its end,
    or at the deadline. *)
Definition ending_time (deadline : Z) (e : ending) : Z :=
  match e with
  | Completed t => t
  | Failed t _ => t
  | TimedOut => deadline
  end.

(** No callback of the observer ever rejects the promise. *)
Definition never_rejects {P S R} (o : observer P S R) : Prop :=
  (forall acc item r, snd (on_next o acc item) = Some r -> is_rejected r = false)
  /\ (forall acc r, on_complete o acc = Some r -> is_rejected r = false)
  /\ (forall acc e r, on_error o acc e = Some r -> is_rejected r = false)
  /\ (forall acc, is_rejected (on_timeout o acc) = false).

(** The same notions for a timer due at [due] and a store that may have
    its notification run first when both are due together. *)
Fixpoint delivered_at {P} (due : Z) (stream_first : bool) (src : stream P)
  : list P :=
  match src with
  | [] => []
  | (t, n) :: rest =>
      if timer_first due stream_first t then []
      else
        match n with
        | Next item => item :: delivered_at due stream_first rest
        | _ => []
        end
  end.

Fixpoint ending_at {P} (due : Z) (stream_first : bool) (src : stream P)
  : ending :=
  match src with
  | [] => TimedOut
  | (t, n) :: rest =>
      if timer_first due stream_first t then TimedOut
      else
        match n with
        | Next _ => ending_at due stream_first rest
        | Complete => Completed t
        | Error e => Failed t e
        end
  end.




(** ** A reference platform and sample data for concrete runs

    Two small instances of the platform parameters, used only to evaluate
    the operations on concrete inputs.  Each accepts a fragment of what the
    real parser accepts and agrees with it there; outside the fragment it
    throws. *)

Definition is_alpha (c : ascii) : bool := in_range 65 90 c || in_range 97 122 c.
Definition is_digit (c : ascii) : bool := in_range 48 57 c.

Definition to_lower (c : ascii) : ascii :=
  if in_range 65 90 c then ascii_of_N (N_of_ascii c + 32) else c.

(** Characters of a URL scheme after the first: letters, digits, [+ - .] *)
Definition is_scheme_char (c : ascii) : bool :=
  is_alpha c || is_digit c || (code c =? 43) || (code c =? 45) || (code c =? 46).

(** Characters of a plain host name: letters, digits, [- .] *)
Definition is_host_char (c : ascii) : bool :=
  is_alpha c || is_digit c || (code c =? 45) || (code c =? 46).

(** Split at the first [:], the text before it being scheme characters. *)
Fixpoint split_scheme (l : list ascii) : option (list ascii * list ascii) :=
  match l with
  | [] => None
  | c :: rest =>
      if code c =? 58 then Some ([], rest)
      else if is_scheme_char c then
        match split_scheme rest with
        | Some (scheme, after) => Some (c :: scheme, after)
        | None => None
        end
      else None
  end.

(** The host: host characters up to the end or the first [/]. *)
Fixpoint take_host (l : list ascii) : option (list ascii) :=
  match l with
  | [] => Some []
  | c :: rest =>
      if code c =? 47 then Some []
      else if is_host_char c then
        match take_host rest with
        | Some host => Some (c :: host)
        | None => None
        end
      else None
  end.

(** [new URL] on the fragment [scheme://host] and [scheme://host/...]. *)
Definition sample_URL_parse (url : string) : result URL :=
  match split_scheme (list_ascii_of_string url) with
  | Some (c :: scheme, s1 :: s2 :: after) =>
      if is_alpha c && (code s1 =? 47) && (code s2 =? 47) then
        match take_host after with
        | Some (h :: host) =>
            Ok {| protocol :=
                    string_of_list_ascii (map to_lower (c :: scheme) ++ [":"%char]);
                  hostname := string_of_list_ascii (map to_lower (h :: host)) |}
        | _ => Throw "TypeError: Invalid URL"
        end
      else Throw "TypeError: Invalid URL"
  | _ => Throw "TypeError: Invalid URL"
  end.

(** The double quote character. *)
Definition dquote : ascii := ascii_of_nat 34.

(** [s] between double quotes. *)
Definition quoted (s : string) : string :=
  String dquote (s +:+ String dquote EmptyString).

(** The characters up to the closing quote of a JSON string without
    escapes or control characters, and what follows the quote. *)
Fixpoint take_string_body (l : list ascii) : option (list ascii * list ascii) :=
  match l with
  | [] => None
  | c :: rest =>
      if code c =? 34 then Some ([], rest)
      else if (code c =? 92) || (code c <? 32) then None
      else
        match take_string_body rest with
        | Some (body, after) => Some (c :: body, after)
        | None => None
        end
  end.

Definition take_quoted (l : list ascii) : option (string * list ascii) :=
  match l with
  | c :: rest =>
      if code c =? 34 then
        match take_string_body rest with
        | Some (body, after) => Some (string_of_list_ascii body, after)
        | None => None
        end
      else None
  | [] => None
  end.

(** Members [ "k":"v" ] separated by commas, up to the closing brace. *)
Fixpoint parse_members (fuel : nat) (l : list ascii) : option (list (string * json)) :=
  match fuel with
  | O => None
  | S fuel' =>
      match take_quoted l with
      | Some (k, colon :: rest) =>
          if code colon =? 58 then
            match take_quoted rest with
            | Some (v, sep :: after) =>
                if code sep =? 125 then
                  match after with
                  | [] => Some [(k, JString v)]
                  | _ => None
                  end
                else if code sep =? 44 then
                  match parse_members fuel' after with
                  | Some members => Some ((k, JString v) :: members)
                  | None => None
                  end
                else None
            | _ => None
            end
          else None
      | _ => None
      end
  end.

(** [JSON.parse] on the fragment: [null], [[]], [{}] and objects whose
    members are strings, written without white space or escapes. *)
Definition sample_JSON_parse (text : string) : result json :=
  if String.eqb text "null" then Ok JNull
  else if String.eqb text "[]" then Ok (JArray [])
  else if String.eqb text "{}" then Ok (JObject [])
  else
    match list_ascii_of_string text with
    | c :: rest =>
        if code c =? 123 then
          match parse_members (length rest) rest with
          | Some members => Ok (JObject members)
          | None => Throw "SyntaxError"
          end
        else Throw "SyntaxError"
    | [] => Throw "SyntaxError"
    end.

(** Two well-formed public keys. *)
Definition P1 : string := string_of_list_ascii (repeat "a"%char 64).
Definition P2 : string := string_of_list_ascii (repeat "b"%char 64).

(** The JSON text [{"name":"<n>"}]. *)
Definition profile_text (n : string) : string :=
  "{" +:+ quoted "name" +:+ ":" +:+ quoted n +:+ "}".

Definition profile_event (author : string) (n : string) (at_ : Z) : NostrEvent :=
  {| kind := 0; content := profile_text n; created_at := at_;
     tags := []; pubkey := Some author |}.

(** A signing function that takes 5 ms and sets the author. *)
Definition sample_sign (event : NostrEvent) : Z * result NostrEvent :=
  (5, Ok {| kind := kind event; content := content event;
            created_at := created_at event; tags := tags event;
            pubkey := Some P1 |}).

(** A store that acknowledges every publish after 20 ms and answers every
    query with one profile of [P1], then stays silent. *)
Definition sample_store : EventStore :=
  {| query := Some (fun _ => [(1, Next (Some (profile_event P1 "alice" 100)))]);
     publish := Some (fun _ => [(20, Next (Some "OK"))]);
     store_setRelays := None |}.

(** A fresh instance with the default relays, before [initialize]. *)
Definition fresh_service : RelayService :=
  {| eventStore := None; relayUrls := defaultRelays; lastActionAt := ∅ |}.

(** The same instance after [initialize(sample_store)]. *)
Definition ready_service : RelayService :=
  {| eventStore := Some sample_store; relayUrls := defaultRelays;
     lastActionAt := ∅ |}.

(** An initialised instance configured with no relay at all. *)
Definition relayless_service : RelayService :=
  {| eventStore := Some sample_store; relayUrls := []; lastActionAt := ∅ |}.

(** A string of 63 hex digits: one short of a public key. *)
Definition P63 : string := string_of_list_ascii (repeat "a"%char 63).

Definition short_key_entry : FollowEntry.t :=
  {| FollowEntry.pubkey := P63; FollowEntry.relay := None;
     FollowEntry.petname := None |}.

Definition empty_relay_entry : FollowEntry.t :=
  {| FollowEntry.pubkey := P1; FollowEntry.relay := Some EmptyString;
     FollowEntry.petname := None |}.

Definition petname_only_entry : FollowEntry.t :=
  {| FollowEntry.pubkey := P1; FollowEntry.relay := None;
     FollowEntry.petname := Some "bob" |}.

Definition named (n : string) : ProfileMetadata :=
  {| name := Some n; display_name := None; about := None;
     picture := None; website := None |}.

(** Some signed event to publish. *)
Definition note : NostrEvent :=
  {| kind := 1; content := "hello"; created_at := 1000; tags := [];
     pubkey := Some P1 |}.

(** A store whose queries deliver two profiles of [P1], the older one
    first, and then stay silent. *)
Definition two_profiles_store : EventStore :=
  {| query := Some (fun _ => [(1, Next (Some (profile_event P1 "old" 100)));
                              (2, Next (Some (profile_event P1 "new" 200)))]);
     publish := None;
     store_setRelays := None |}.

(** The same two profiles, the newer one first. *)
Definition two_profiles_store_rev : EventStore :=
  {| query := Some (fun _ => [(1, Next (Some (profile_event P1 "new" 200)));
                              (2, Next (Some (profile_event P1 "old" 100)))]);
     publish := None;
     store_setRelays := None |}.

(** A store whose queries deliver nothing, ever. *)
Definition silent_store : EventStore :=
  {| query := Some (fun _ => []); publish := None; store_setRelays := None |}.

Definition service_with (es : EventStore) : RelayService :=
  {| eventStore := Some es; relayUrls := defaultRelays; lastActionAt := ∅ |}.

(** [DOMPurify.sanitize] with no tag allowed, on text without markup
    characters, which it returns unchanged; other text is outside the
    fragment. *)
Definition is_plain_char (c : ascii) : bool :=
  negb ((code c =? 60) || (code c =? 62) || (code c =? 38)).

Definition sample_sanitize (value : string) : string :=
  if forallb is_plain_char (list_ascii_of_string value) then value
  else EmptyString.

Definition member_text (kv : string * option string) : option string :=
  match snd kv with
  | Some v => Some (quoted (fst kv) +:+ ":" +:+ quoted v)
  | None => None
  end.

Fixpoint join_comma (l : list string) : string :=
  match l with
  | [] => EmptyString
  | [x] => x
  | x :: rest => x +:+ "," +:+ join_comma rest
  end.

(** [JSON.stringify] on a metadata object whose strings need no escape. *)
Definition sample_JSON_stringify (m : ProfileMetadata) : string :=
  "{" +:+ join_comma
            (omap member_text
               [("name", name m); ("display_name", display_name m);
                ("about", about m); ("picture", picture m);
                ("website", website m)])
      +:+ "}".

(** A filled-in profile form. *)
Definition sample_form : ProfileMetadata :=
  {| name := Some "alice"; display_name := Some "smith";
     about := Some "builds relays"; picture := Some EmptyString;
     website := Some "https://example.org" |}.

(** A role suggestion that comes after 30 ms, with spaces around it. *)
Definition sample_suggest (about_ : string) : Z * result (option string) :=
  (30, Ok (Some " builder ")).

Definition idle_profile_page : Profile.state :=
  {| Profile.isSaving := false; Profile.saveMessage := None;
     Profile.suggestedRole := None; Profile.isGettingRole := false |}.

Definition one_member_page : Membership.state :=
  {| Membership.members :=
       [ {| FollowEntry.pubkey := P2; FollowEntry.relay := None;
            FollowEntry.petname := None |} ];
     Membership.saveMessage := None; Membership.isSaving := false |}.

(** A member list as it is read back when the petname took the place of the
    relay. *)
Definition shifted_member_page : Membership.state :=
  {| Membership.members :=
       [ {| FollowEntry.pubkey := P2; FollowEntry.relay := Some "bob";
            FollowEntry.petname := None |} ];
     Membership.saveMessage := None; Membership.isSaving := false |}.

(** A store that accepts publishes and never answers. *)
Definition mute_store : EventStore :=
  {| query := None; publish := Some (fun _ => []); store_setRelays := Some (fun urls => urls) |}.

(** A store whose [setRelays] adds its own bootstrap address to the array
    it is given ([urls.push('https://bootstrap.example')]). *)
Definition appending_store : EventStore :=
  {| query := None; publish := None;
     store_setRelays :=
       Some (fun urls => urls ++ ["https://bootstrap.example"]) |}.

Definition undecodable_event : NostrEvent :=
  {| kind := 0; content := "oops"; created_at := 50; tags := [];
     pubkey := Some P1 |}.

(** A store whose queries deliver a record that does not decode, then one
    that does. *)
Definition mixed_store : EventStore :=
  {| query := Some (fun _ => [(1, Next (Some undecodable_event));
                              (2, Next (Some (profile_event P1 "alice" 100)))]);
     publish := None; store_setRelays := None |}.

Definition role_event (role : string) : NostrEvent :=
  {| kind := 0; content := "{}"; created_at := 100;
     tags := [["role"; role]]; pubkey := Some P1 |}.

(** A store whose queries deliver two profile records with a role tag. *)
Definition role_store : EventStore :=
  {| query := Some (fun _ => [(1, Next (Some (role_event " builder ")));
                              (2, Next (Some (role_event "farmer")))]);
     publish := None; store_setRelays := None |}.

Definition follow_event : NostrEvent :=
  {| kind := 3; content := EmptyString; created_at := 100;
     tags := [["p"; P1]; ["p"; P2; "wss://r"]]; pubkey := Some P1 |}.

(** A store whose queries deliver a profile record, then a follow list. *)
Definition follow_store : EventStore :=
  {| query := Some (fun _ => [(1, Next (Some (profile_event P1 "alice" 100)));
                              (2, Next (Some follow_event))]);
     publish := None; store_setRelays := None |}.


(** A store that answers from its cache inside [subscribe], with one
    profile of [P1], then with the end of the stream; [mode] is what its
    stream does with an exception of the observer. *)
Definition cached_conduct (mode : thrown_callback) : conduct :=
  {| query_throws := fun _ => None;
     query_inside :=
       fun _ => [Next (Some (profile_event P1 "cached" 50)); Complete];
     publish_throws := fun _ => None;
     publish_inside := fun _ => [Next (Some "OK")];
     callback_throw := mode;
     stream_first := false |}.

(** A store whose notifications run before a timer due at the same time. *)
Definition prompt_conduct : conduct :=
  {| query_throws := fun _ => None;
     query_inside := fun _ => [];
     publish_throws := fun _ => None;
     publish_inside := fun _ => [];
     callback_throw := Continues;
     stream_first := true |}.

(** A store that acknowledges a publish exactly 1000 ms after
    [subscribe], and answers a query with one profile exactly 5000 ms
    after. *)
Definition on_the_dot_store : EventStore :=
  {| query := Some (fun _ => [(5000, Next (Some (profile_event P1 "alice" 100)))]);
     publish := Some (fun _ => [(1000, Next (Some "OK"))]);
     store_setRelays := None |}.

(** [setTimeout] as Node has it: a delay below 1 or above 2147483647 is
    set to 1. *)
Definition sample_setTimeout_delay (ms : Z) : Z :=
  if (1 <=? ms) && (ms <=? 2147483647) then ms else 1.

Section Platform.

(** [new URL(url)]: [Throw] when the constructor throws. *)
Variable URL_parse : string -> result URL.

(** [JSON.parse(text)]: [Throw] when it throws. *)
Variable JSON_parse : string -> result json.

Definition isValidHttpUrl (url : string) : bool :=
  match URL_parse url with
  | Ok parsed =>
      bool_decide (protocol parsed ∈ ["http:"; "https:"])
  | Throw _ => false
  end.

Definition isValidRelayUrl (url : string) : bool :=
  match URL_parse url with
  | Ok parsed =>
      bool_decide (protocol parsed ∈ ["ws:"; "wss:"])
      && (0 <? str_length (hostname parsed))
  | Throw _ => false
  end.

(** *** [validateRelayUrls], the constructor, [setRelays], [getRelays] *)

Definition validateRelayUrls (urls : list string) : result (list string) :=
  if (length urls =? 0)%nat then Ok []
  else
    let validUrls := List.filter isValidRelayUrl urls in
    if negb (length validUrls =? length urls)%nat
    then Throw "Invalid relay URL format"
    else Ok validUrls.

Definition constructor (config : RelayServiceConfig) : result RelayService :=
  urls ← validateRelayUrls (default defaultRelays (config_relayUrls config));
  Ok {| eventStore := None; relayUrls := urls; lastActionAt := ∅ |}.

(** The forwarding [eventStore.setRelays(this.relayUrls)], made when a
    store is attached and has the method.  The store receives the array
    the instance keeps, so what the store writes to it is written to
    [this.relayUrls]; the call is logged with the array as it was handed
    over. *)
Definition forward_relays (this : RelayService) : RelayService * list call :=
  match eventStore this with
  | Some es =>
      match store_setRelays es with
      | Some method =>
          (with_relayUrls this (method (relayUrls this)),
           [CallSetRelays (relayUrls this)])
      | None => (this, [])
      end
  | None => (this, [])
  end.

(** A synchronous method returns or throws, leaves the instance in a
    state, and has made some calls. *)
Definition initialize (this : RelayService) (es : EventStore)
  : result unit * RelayService * list call :=
  let '(this', made_) := forward_relays (with_eventStore this es) in
  (Ok tt, this', made_).

Definition setRelays (this : RelayService) (urls : list string)
  : result unit * RelayService * list call :=
  match validateRelayUrls urls with
  | Throw msg => (Throw msg, this, [])
  | Ok valid =>
      let '(this', made_) := forward_relays (with_relayUrls this valid) in
      (Ok tt, this', made_)
  end.

Definition getRelays (this : RelayService) : list string := relayUrls this.

(** *** [parseProfileMetadata] *)

(** The body of the [try] block. *)
Definition parseProfileMetadata_try (content : string)
  : result (option ProfileMetadata) :=
  parsed ← JSON_parse content;
  if js_falsy parsed || negb (String.eqb (js_typeof parsed) "object")
  then Ok None
  else Ok (Some {| name := string_prop parsed "name";
                   display_name := string_prop parsed "display_name";
                   about := string_prop parsed "about";
                   picture := string_prop parsed "picture";
                   website := string_prop parsed "website" |}).

Definition parseProfileMetadata (content : string)
  : result (option ProfileMetadata) :=
  if maxProfileContentSize <? str_length content then Ok None
  else try_catch (parseProfileMetadata_try content) (fun _ => Ok None).

(** *** [fetchProfile] *)

Definition fetchProfile_observer : observer Packet unit (option ProfileMetadata) :=
  {| on_next := fun acc packet =>
       match packet with
       | Some event =>
           if kind event =? 0 then
             match parseProfileMetadata (content event) with
             | Ok (Some metadata) => (acc, Some (Ok (Some metadata)))
             | _ => (acc, None)
             end
           else (acc, None)
       | None => (acc, None)
       end;
     on_complete := fun _ => Some (Ok None);
     on_error := fun _ _ => Some (Ok None);
     on_timeout := fun _ => Ok None;
     delay := 5000 |}.

Definition fetchProfile_filter (pubkey : string) : Filter :=
  {| kinds := [0]; authors := Some [pubkey]; limit := Some 1 |}.

Definition fetchProfile (this : RelayService) (now : Z) (pubkey : string)
  : async (option ProfileMetadata) :=
  read this now "fetch-profile" (fetchProfile_filter pubkey)
    fetchProfile_observer tt None.

(** *** [fetchProfileRoleTag] *)

(** The [for (const tag of tags)] loop: the first tag that carries a valid
    role, if any. *)
Fixpoint find_role (tags : list (list string)) : option string :=
  match tags with
  | [] => None
  | tag :: rest =>
      if bool_decide (tag !! 0%nat = Some "role") && truthy (tag !! 1%nat) then
        let candidate := trim (default EmptyString (tag !! 1%nat)) in
        if isValidRoleTag candidate then Some candidate else find_role rest
      else find_role rest
  end.

Definition fetchProfileRoleTag_observer : observer Packet unit (option string) :=
  {| on_next := fun acc packet =>
       match packet with
       | Some event =>
           if kind event =? 0 then (acc, Some (Ok (find_role (tags event))))
           else (acc, None)
       | None => (acc, None)
       end;
     on_complete := fun _ => Some (Ok None);
     on_error := fun _ _ => Some (Ok None);
     on_timeout := fun _ => Ok None;
     delay := 5000 |}.

Definition fetchProfileRoleTag_filter (pubkey : string) : Filter :=
  {| kinds := [0]; authors := Some [pubkey]; limit := Some 1 |}.

Definition fetchProfileRoleTag (this : RelayService) (now : Z) (pubkey : string)
  : async (option string) :=
  read this now "fetch-role-tag" (fetchProfileRoleTag_filter pubkey)
    fetchProfileRoleTag_observer tt None.

(** *** [fetchFollowList] *)

(** The decoding loop over the tags of a kind-3 record. *)
Fixpoint decode_follow_tags (tags : list (list string)) : list FollowEntry.t :=
  match tags with
  | [] => []
  | tag :: rest =>
      if bool_decide (tag !! 0%nat = Some "p") && truthy (tag !! 1%nat) then
        {| FollowEntry.pubkey := default EmptyString (tag !! 1%nat);
           FollowEntry.relay := or_undefined (tag !! 2%nat);
           FollowEntry.petname := or_undefined (tag !! 3%nat) |}
        :: decode_follow_tags rest
      else decode_follow_tags rest
  end.

Definition fetchFollowList_observer : observer Packet unit (list FollowEntry.t) :=
  {| on_next := fun acc packet =>
       match packet with
       | Some event =>
           if kind event =? 3 then (acc, Some (Ok (decode_follow_tags (tags event))))
           else (acc, None)
       | None => (acc, None)
       end;
     on_complete := fun _ => Some (Ok []);
     on_error := fun _ _ => Some (Ok []);
     on_timeout := fun _ => Ok [];
     delay := 10000 |}.

Definition fetchFollowList_filter (pubkey : string) : Filter :=
  {| kinds := [3]; authors := Some [pubkey]; limit := Some 1 |}.

Definition fetchFollowList (this : RelayService) (now : Z) (pubkey : string)
  : async (list FollowEntry.t) :=
  read this now "fetch-follow-list" (fetchFollowList_filter pubkey)
    fetchFollowList_observer tt [].

(** *** [fetchMultipleProfiles] *)

Definition fetchMultipleProfiles_next (profiles : gmap string ProfileMetadata)
    (packet : Packet) : gmap string ProfileMetadata :=
  match packet with
  | Some event =>
      if (kind event =? 0) && truthy (pubkey event) then
        match parseProfileMetadata (content event) with
        | Ok (Some metadata) =>
            <[default EmptyString (pubkey event) := metadata]> profiles
        | _ => profiles
        end
      else profiles
  | None => profiles
  end.

Definition fetchMultipleProfiles_observer
  : observer Packet (gmap string ProfileMetadata) (gmap string ProfileMetadata) :=
  {| on_next := fun profiles packet =>
       (fetchMultipleProfiles_next profiles packet, None);
     on_complete := fun profiles => Some (Ok profiles);
     on_error := fun profiles _ => Some (Ok profiles);
     on_timeout := fun profiles => Ok profiles;
     delay := 1000 |}.

Definition fetchMultipleProfiles_filter (pubkeys : list string) : Filter :=
  {| kinds := [0]; authors := Some pubkeys; limit := None |}.

Definition fetchMultipleProfiles (this : RelayService) (now : Z)
    (pubkeys : list string) : async (gmap string ProfileMetadata) :=
  match eventStore this with
  | None =>
      {| settled := Throw NOT_INITIALIZED; settled_at := now;
         state_after := this; calls := [] |}
  | Some _ =>
      if (length pubkeys =? 0)%nat then
        {| settled := Ok ∅; settled_at := now; state_after := this; calls := [] |}
      else
        read this now "fetch-multiple-profiles"
          (fetchMultipleProfiles_filter pubkeys)
          fetchMultipleProfiles_observer ∅ ∅
  end.

(** *** [queryProfiles] *)

Definition queryProfiles_next (profiles : gmap string (ProfileMetadata * Z))
    (packet : Packet) : gmap string (ProfileMetadata * Z) :=
  match packet with
  | Some event =>
      if (kind event =? 0) && truthy (pubkey event) then
        match parseProfileMetadata (content event) with
        | Ok (Some metadata) =>
            let timestamp := num_or (created_at event) 0 in
            let author := default EmptyString (pubkey event) in
            match profiles !! author with
            | Some existing =>
                if snd existing <? timestamp
                then <[author := (metadata, timestamp)]> profiles
                else profiles
            | None => <[author := (metadata, timestamp)]> profiles
            end
        | _ => profiles
        end
      else profiles
  | None => profiles
  end.

(** The [result] map built from [profiles] on every exit. *)
Definition queryProfiles_result (profiles : gmap string (ProfileMetadata * Z))
  : gmap string ProfileMetadata := fst <$> profiles.

Definition queryProfiles_observer
  : observer Packet (gmap string (ProfileMetadata * Z)) (gmap string ProfileMetadata) :=
  {| on_next := fun profiles packet => (queryProfiles_next profiles packet, None);
     on_complete := fun profiles => Some (Ok (queryProfiles_result profiles));
     on_error := fun profiles _ => Some (Ok (queryProfiles_result profiles));
     on_timeout := fun profiles => Ok (queryProfiles_result profiles);
     delay := 10000 |}.

(** The filter; [pubkeys] defaults to [[]] and [limit] to 100. *)
Definition queryProfiles_filter (pubkeys : option (list string))
    (limit : option Z) : Filter :=
  let pubkeys := default [] pubkeys in
  let limit := default 100 limit in
  {| kinds := [0];
     authors := if (0 <? length pubkeys)%nat then Some pubkeys else None;
     limit := Some limit |}.

Definition queryProfiles (this : RelayService) (now : Z)
    (pubkeys : option (list string)) (limit : option Z)
  : async (gmap string ProfileMetadata) :=
  read this now "query-profiles" (queryProfiles_filter pubkeys limit)
    queryProfiles_observer ∅ ∅.

(** [event] is a kind-0 record of [author] whose content decodes to
    [metadata]: the records [queryProfiles] and [fetchMultipleProfiles]
    take into account. *)
Definition eligible (author : string) (event : NostrEvent)
    (metadata : ProfileMetadata) : Prop :=
  kind event = 0
  /\ pubkey event = Some author
  /\ author <> EmptyString
  /\ parseProfileMetadata (content event) = Ok (Some metadata).

(** The index after the records [seen]: each author is bound to a decoded
    record of theirs of greatest [created_at], and to nothing when they
    have none. *)
Definition latest_index (profiles : gmap string (ProfileMetadata * Z))
    (seen : list Packet) : Prop :=
  forall a,
    match profiles !! a with
    | Some (m, ts) =>
        exists e, Some e ∈ seen /\ eligible a e m /\ ts = created_at e
                  /\ forall e' m', Some e' ∈ seen -> eligible a e' m' ->
                                   created_at e' <= ts
    | None => forall e m, Some e ∈ seen -> ~ eligible a e m
    end.

(** *** [publishEvent] *)

(** [delay] is the delay asked of [setTimeout]. *)
Definition publishEvent_observer (timeoutMs : Z) : observer Response unit bool :=
  {| on_next := fun acc response =>
       if bool_decide (response = Some "OK") then (acc, Some (Ok true))
       else (acc, None);
     on_complete := fun _ => None;
     on_error := fun _ error => Some (Throw error);
     on_timeout := fun _ => Ok false;
     delay := timeoutMs |}.

(** [timeoutMs] defaults to 1000. *)
Definition publishEvent (this : RelayService) (now : Z) (event : NostrEvent)
    (timeoutMs : option Z) : async bool :=
  let timeoutMs := default 1000 timeoutMs in
  match eventStore this with
  | None =>
      {| settled := Throw NOT_INITIALIZED; settled_at := now;
         state_after := this; calls := [] |}
  | Some es =>
      let '(started, this') :=
        enforceRateLimit this "publish" minPublishIntervalMs now in
      if (length (relayUrls this') =? 0)%nat then
        {| settled := Throw "No relays configured"; settled_at := started;
           state_after := this'; calls := [] |}
      else
        match publish es with
        | None =>
            {| settled := Throw "EventStore does not support publish method";
               settled_at := started; state_after := this'; calls := [] |}
        | Some p =>
            let '(dt, r) := race (publishEvent_observer timeoutMs) tt (p event) in
            {| settled := r; settled_at := started + dt;
               state_after := this'; calls := [CallPublish event] |}
        end
  end.

(** *** [publishFollowList] *)

(** The callback of [followList.map]: validate one entry and build its
    tag. *)
Definition follow_tag (entry : FollowEntry.t) : result (list string) :=
  if negb (isValidPubkey (FollowEntry.pubkey entry)) then
    Throw "Invalid pubkey format for follow list entry."
  else if truthy (FollowEntry.relay entry)
          && negb (isValidRelayUrl (default EmptyString (FollowEntry.relay entry))) then
    Throw "Invalid relay URL format for follow list entry."
  else
    let tag := ["p"; FollowEntry.pubkey entry] in
    let tag :=
      if truthy (FollowEntry.relay entry)
      then (tag ++ [default EmptyString (FollowEntry.relay entry)])%list else tag in
    let tag :=
      if truthy (FollowEntry.petname entry)
      then (tag ++ [default EmptyString (FollowEntry.petname entry)])%list else tag in
    Ok tag.

(** [followList.map(...)]: the tags, or the first exception. *)
Definition encode_follow_list (followList : list FollowEntry.t)
  : result (list (list string)) :=
  mapM follow_tag followList.

(** [signEvent] is the injected signing function: for an event, how long
    its promise takes to settle and how it settles. *)
Definition publishFollowList (this : RelayService) (now : Z) (pubkey : string)
    (followList : list FollowEntry.t)
    (signEvent : NostrEvent -> Z * result NostrEvent) : async bool :=
  match encode_follow_list followList with
  | Throw msg =>
      {| settled := Throw msg; settled_at := now;
         state_after := this; calls := [] |}
  | Ok tags =>
      let event :=
        {| kind := 3; content := EmptyString; created_at := now / 1000;
           tags := tags; pubkey := None |} in
      let '(dt, signed) := signEvent event in
      match signed with
      | Throw msg =>
          {| settled := Throw msg; settled_at := now + dt;
             state_after := this; calls := [CallSign event] |}
      | Ok signedEvent =>
          let published := publishEvent this (now + dt) signedEvent None in
          {| settled := settled published;
             settled_at := settled_at published;
             state_after := state_after published;
             calls := CallSign event :: calls published |}
      end
  end.

(** An entry the positional encoding can carry: no empty-string field, and
    a petname only together with a relay. *)
Definition positional (entry : FollowEntry.t) : Prop :=
  FollowEntry.relay entry <> Some EmptyString
  /\ FollowEntry.petname entry <> Some EmptyString
  /\ (FollowEntry.petname entry = None \/ FollowEntry.relay entry <> None).

(** *** The operations on a store of any conduct *)

(** The delay [setTimeout] really uses for a requested delay: the
    requested one when it is an integer from 1 to 2147483647, and what the
    platform makes of it otherwise. *)
Variable setTimeout_delay : Z -> Z.

Definition fetchProfile_under (c : conduct) (this : RelayService) (now : Z)
    (pubkey : string) : async (option ProfileMetadata) :=
  read_under c this now "fetch-profile" (fetchProfile_filter pubkey)
    fetchProfile_observer tt None.

Definition fetchProfileRoleTag_under (c : conduct) (this : RelayService)
    (now : Z) (pubkey : string) : async (option string) :=
  read_under c this now "fetch-role-tag" (fetchProfileRoleTag_filter pubkey)
    fetchProfileRoleTag_observer tt None.

Definition fetchFollowList_under (c : conduct) (this : RelayService) (now : Z)
    (pubkey : string) : async (list FollowEntry.t) :=
  read_under c this now "fetch-follow-list" (fetchFollowList_filter pubkey)
    fetchFollowList_observer tt [].



Definition publishEvent_under (c : conduct) (this : RelayService) (now : Z)
    (event : NostrEvent) (timeoutMs : option Z) : async bool :=
  let timeoutMs := default 1000 timeoutMs in
  match eventStore this with
  | None =>
      {| settled := Throw NOT_INITIALIZED; settled_at := now;
         state_after := this; calls := [] |}
  | Some es =>
      let '(started, this') :=
        enforceRateLimit this "publish" minPublishIntervalMs now in
      if (length (relayUrls this') =? 0)%nat then
        {| settled := Throw "No relays configured"; settled_at := started;
           state_after := this'; calls := [] |}
      else
        match publish es with
        | None =>
            {| settled := Throw "EventStore does not support publish method";
               settled_at := started; state_after := this'; calls := [] |}
        | Some p =>
            let '(dt, r) :=
              subscribe_with (publish_throws c event) (publish_inside c event)
                (callback_throw c) (stream_first c)
                (setTimeout_delay timeoutMs)
                (publishEvent_observer timeoutMs) tt (p event) in
            {| settled := r; settled_at := started + dt;
               state_after := this'; calls := [CallPublish event] |}
        end
  end.

(** *** The instance as a transition system *)

Inductive operation :=
  | Initialize (es : EventStore)
  | SetRelays (urls : list string)
  | GetRelays
  | PublishEvent (now : Z) (event : NostrEvent) (timeoutMs : option Z)
  | FetchProfile (now : Z) (pubkey : string)
  | FetchProfileRoleTag (now : Z) (pubkey : string)
  | FetchFollowList (now : Z) (pubkey : string)
  | FetchMultipleProfiles (now : Z) (pubkeys : list string)
  | QueryProfiles (now : Z) (pubkeys : option (list string)) (limit : option Z)
  | PublishFollowList (now : Z) (pubkey : string)
      (followList : list FollowEntry.t)
      (signEvent : NostrEvent -> Z * result NostrEvent).

(** The state an operation leaves, whether it returns or throws. *)
Definition step (this : RelayService) (op : operation) : RelayService :=
  match op with
  | Initialize es => snd (fst (initialize this es))
  | SetRelays urls => snd (fst (setRelays this urls))
  | GetRelays => this
  | PublishEvent now event timeoutMs =>
      state_after (publishEvent this now event timeoutMs)
  | FetchProfile now pubkey => state_after (fetchProfile this now pubkey)
  | FetchProfileRoleTag now pubkey =>
      state_after (fetchProfileRoleTag this now pubkey)
  | FetchFollowList now pubkey => state_after (fetchFollowList this now pubkey)
  | FetchMultipleProfiles now pubkeys =>
      state_after (fetchMultipleProfiles this now pubkeys)
  | QueryProfiles now pubkeys limit =>
      state_after (queryProfiles this now pubkeys limit)
  | PublishFollowList now pubkey followList signEvent =>
      state_after (publishFollowList this now pubkey followList signEvent)
  end.

(** The states an instance can be in: as constructed, or after any
    operation on a reachable state. *)
Inductive reachable : RelayService -> Prop :=
  | reachable_new (config : RelayServiceConfig) (this : RelayService) :
      constructor config = Ok this -> reachable this
  | reachable_step (this : RelayService) (op : operation) :
      reachable this -> reachable (step this op).

(** A store that leaves the array it is handed as it is. *)
Definition keeps_list (es : EventStore) : Prop :=
  forall method, store_setRelays es = Some method ->
                 forall urls, method urls = urls.

(** An operation that attaches no store but one that keeps the list. *)
Definition tidy (op : operation) : Prop :=
  match op with
  | Initialize es => keeps_list es
  | _ => True
  end.

(** The states an instance can be in when every store it was given keeps
    the list. *)
Inductive reachable_tidy : RelayService -> Prop :=
  | tidy_new (config : RelayServiceConfig) (this : RelayService) :
      constructor config = Ok this -> reachable_tidy this
  | tidy_step (this : RelayService) (op : operation) :
      reachable_tidy this -> tidy op -> reachable_tidy (step this op).

(** *** [MembershipPage]: [handleAddMember], [handleRemoveMember] *)

(** The entry [{ pubkey }] that [handleAddMember] appends. *)
Definition new_member (pubkey : string) : FollowEntry.t :=
  {| FollowEntry.pubkey := pubkey; FollowEntry.relay := None;
     FollowEntry.petname := None |}.

(** [publicKey] is the page's prop ([string | null]); [signEvent] stands for
    [authService.signEvent]. *)
Definition handleAddMember (st : Membership.state) (relayService : RelayService)
    (publicKey : option string)
    (signEvent : NostrEvent -> Z * result NostrEvent) (now : Z)
    (pubkey : string) : handled Membership.state :=
  if negb (truthy publicKey) then
    {| ui := st; service := relayService; made := []; finished_at := now |}
  else if existsb (fun m => String.eqb (FollowEntry.pubkey m) pubkey)
                  (Membership.members st) then
    {| ui := {| Membership.members := Membership.members st;
                Membership.saveMessage := Some "User is already a member";
                Membership.isSaving := Membership.isSaving st |};
       service := relayService; made := []; finished_at := now |}
  else
    let newMembers := Membership.members st ++ [new_member pubkey] in
    let published :=
      publishFollowList relayService now (default EmptyString publicKey)
        newMembers signEvent in
    {| ui :=
         match settled published with
         | Ok _ =>
             {| Membership.members := newMembers;
                Membership.saveMessage := Some "Member added successfully!";
                Membership.isSaving := false |}
         | Throw _ =>
             {| Membership.members := Membership.members st;
                Membership.saveMessage :=
                  Some "Failed to add member. Please try again.";
                Membership.isSaving := false |}
         end;
       service := state_after published;
       made := calls published;
       finished_at := settled_at published |}.

Definition handleRemoveMember (st : Membership.state) (relayService : RelayService)
    (publicKey : option string)
    (signEvent : NostrEvent -> Z * result NostrEvent) (now : Z)
    (pubkey : string) : handled Membership.state :=
  if negb (truthy publicKey) then
    {| ui := st; service := relayService; made := []; finished_at := now |}
  else
    let newMembers :=
      List.filter (fun m => negb (String.eqb (FollowEntry.pubkey m) pubkey))
                  (Membership.members st) in
    let published :=
      publishFollowList relayService now (default EmptyString publicKey)
        newMembers signEvent in
    {| ui :=
         match settled published with
         | Ok _ =>
             {| Membership.members := newMembers;
                Membership.saveMessage := Some "Member removed successfully!";
                Membership.isSaving := false |}
         | Throw _ =>
             {| Membership.members := Membership.members st;
                Membership.saveMessage :=
                  Some "Failed to remove member. Please try again.";
                Membership.isSaving := false |}
         end;
       service := state_after published;
       made := calls published;
       finished_at := settled_at published |}.

(** *** [ProfilePage]: [handleSubmit] *)

(** [DOMPurify.sanitize(value, { ALLOWED_TAGS: [], ALLOWED_ATTR: [] })] *)
Variable DOMPurify_sanitize : string -> string.

(** [JSON.stringify] on a metadata object. *)
Variable JSON_stringify : ProfileMetadata -> string.

Definition sanitizeText (value : string) : string := DOMPurify_sanitize value.

(** The object that is stringified: the form data with its three text
    fields sanitized. *)
Definition sanitized (formData : ProfileMetadata) : ProfileMetadata :=
  {| name := Some (sanitizeText (default EmptyString (name formData)));
     display_name :=
       Some (sanitizeText (default EmptyString (display_name formData)));
     about := Some (sanitizeText (default EmptyString (about formData)));
     picture := picture formData;
     website := website formData |}.

(** The tag of the one-entry follow list: the key, the first relay if there
    is one, the name if there is one. *)
Definition followTag (relayService : RelayService) (publicKey : string)
    (formData : ProfileMetadata) : list string :=
  let tag := ["p"; publicKey] in
  let relayUrl := getRelays relayService !! 0%nat in
  let tag := if truthy relayUrl then tag ++ [default EmptyString relayUrl] else tag in
  let tag :=
    if truthy (name formData)
    then tag ++ [default EmptyString (name formData)] else tag in
  tag.

(** The role step: the tags of the profile event, the page state and the
    clock after it.  [onRoleSuggestion] is the optional callback: for the
    [about] text, how long its promise takes and how it settles. *)
Definition suggest_role (st : Profile.state) (formData : ProfileMetadata)
    (onRoleSuggestion : option (string -> Z * result (option string)))
    (now : Z) : list (list string) * Profile.state * Z :=
  let no_role :=
    {| Profile.isSaving := Profile.isSaving st;
       Profile.saveMessage := Profile.saveMessage st;
       Profile.suggestedRole := None;
       Profile.isGettingRole := false |} in
  match onRoleSuggestion with
  | Some suggest =>
      if truthy (about formData)
         && (0 <? str_length (trim (default EmptyString (about formData)))) then
        let '(dt, r) := suggest (default EmptyString (about formData)) in
        match r with
        | Ok roleSuggestion =>
            let candidate :=
              if truthy roleSuggestion
              then trim (default EmptyString roleSuggestion) else EmptyString in
            if str_truthy candidate && isValidRoleTag candidate then
              ([["role"; candidate]],
               {| Profile.isSaving := Profile.isSaving st;
                  Profile.saveMessage := Profile.saveMessage st;
                  Profile.suggestedRole := Some candidate;
                  Profile.isGettingRole := false |},
               now + dt)
            else ([], no_role, now + dt)
        | Throw _ => ([], no_role, now + dt)
        end
      else
        ([], {| Profile.isSaving := Profile.isSaving st;
                Profile.saveMessage := Profile.saveMessage st;
                Profile.suggestedRole := None;
                Profile.isGettingRole := Profile.isGettingRole st |}, now)
  | None =>
      ([], {| Profile.isSaving := Profile.isSaving st;
              Profile.saveMessage := Profile.saveMessage st;
              Profile.suggestedRole := None;
              Profile.isGettingRole := Profile.isGettingRole st |}, now)
  end.

(** The [catch] and [finally] blocks. *)
Definition submit_failed (st : Profile.state) (relayService : RelayService)
    (calls_ : list call) (now : Z) : handled Profile.state * bool :=
  ({| ui := {| Profile.isSaving := false;
               Profile.saveMessage :=
                 Some "Failed to save profile. Please try again.";
               Profile.suggestedRole := Profile.suggestedRole st;
               Profile.isGettingRole := Profile.isGettingRole st |};
      service := relayService; made := calls_; finished_at := now |},
   false).

(** [onSuccess] tells whether the optional callback was given; the second
    component of the result tells whether it was called. *)
Definition handleSubmit (st : Profile.state) (relayService : RelayService)
    (publicKey : option string) (formData : ProfileMetadata)
    (onRoleSuggestion : option (string -> Z * result (option string)))
    (onSuccess : bool)
    (signEvent : NostrEvent -> Z * result NostrEvent) (now : Z)
  : handled Profile.state * bool :=
  if negb (truthy publicKey) then
    ({| ui := st; service := relayService; made := []; finished_at := now |},
     false)
  else
    let publicKey := default EmptyString publicKey in
    let st :=
      {| Profile.isSaving := true; Profile.saveMessage := None;
         Profile.suggestedRole := Profile.suggestedRole st;
         Profile.isGettingRole := Profile.isGettingRole st |} in
    if negb (isValidPubkey publicKey) then submit_failed st relayService [] now
    else
      let '(tags_, st, t1) := suggest_role st formData onRoleSuggestion now in
      let profileEvent :=
        {| kind := 0; content := JSON_stringify (sanitized formData);
           created_at := t1 / 1000; tags := tags_; pubkey := None |} in
      let follows :=
        {| kind := 3; content := EmptyString; created_at := t1 / 1000;
           tags := [followTag relayService publicKey formData];
           pubkey := None |} in
      let '(dt1, signedProfile) := signEvent profileEvent in
      match signedProfile with
      | Throw _ =>
          submit_failed st relayService [CallSign profileEvent] (t1 + dt1)
      | Ok signedProfile =>
          let '(dt2, signedFollows) := signEvent follows in
          match signedFollows with
          | Throw _ =>
              submit_failed st relayService
                [CallSign profileEvent; CallSign follows] (t1 + dt1 + dt2)
          | Ok signedFollows =>
              let first :=
                publishEvent relayService (t1 + dt1 + dt2) signedProfile None in
              match settled first with
              | Throw _ =>
                  submit_failed st (state_after first)
                    ([CallSign profileEvent; CallSign follows] ++ calls first)
                    (settled_at first)
              | Ok _ =>
                  let second :=
                    publishEvent (state_after first) (settled_at first)
                      signedFollows None in
                  match settled second with
                  | Throw _ =>
                      submit_failed st (state_after second)
                        ([CallSign profileEvent; CallSign follows]
                           ++ calls first ++ calls second)
                        (settled_at second)
                  | Ok _ =>
                      ({| ui := {| Profile.isSaving := false;
                                   Profile.saveMessage :=
                                     Some "Profile saved successfully!";
                                   Profile.suggestedRole := Profile.suggestedRole st;
                                   Profile.isGettingRole := Profile.isGettingRole st |};
                          service := state_after second;
                          made := [CallSign profileEvent; CallSign follows]
                                    ++ calls first ++ calls second;
                          finished_at := settled_at second |},
                       onSuccess)
                  end
              end
          end
      end.

(** Two states of an instance from which every [publishEvent] call
    behaves alike: same settlement, same time, same calls. *)
Definition publishes_alike (this that : RelayService) : Prop :=
  forall now event timeoutMs,
    settled (publishEvent this now event timeoutMs)
    = settled (publishEvent that now event timeoutMs)
    /\ settled_at (publishEvent this now event timeoutMs)
       = settled_at (publishEvent that now event timeoutMs)
    /\ calls (publishEvent this now event timeoutMs)
       = calls (publishEvent that now event timeoutMs).

(** The map of [fetchMultipleProfiles] after the records [seen]: each
    author is bound to the metadata of the last of their records that
    decodes, and to nothing when they have none. *)
Definition last_index (profiles : gmap string ProfileMetadata)
    (seen : list Packet) : Prop :=
  forall a,
    match profiles !! a with
    | Some m =>
        exists pre e post,
          seen = pre ++ Some e :: post /\ eligible a e m
          /\ forall e' m', Some e' ∈ post -> ~ eligible a e' m'
    | None => forall e m, Some e ∈ seen -> ~ eligible a e m
    end.

(** ** Properties *)

(** *** Relay URL validation *)

Lemma filter_length_forallb {A} (f : A -> bool) (l : list A) :
  (length (List.filter f l) =? length l)%nat = forallb f l.
Proof.
  induction l as [|x l IH]; [reflexivity|].
  simpl. destruct (f x); simpl.
  - exact IH.
  - pose proof (List.filter_length_le f l) as Hle.
    apply Nat.eqb_neq. lia.
Qed.

Lemma validateRelayUrls_spec (urls : list string) :
  validateRelayUrls urls =
  if forallb isValidRelayUrl urls then Ok urls
  else Throw "Invalid relay URL format".
Proof.
  unfold validateRelayUrls.
  destruct urls as [|u urls]; [reflexivity|].
  change (length (u :: urls) =? 0)%nat with false. cbv iota.
  rewrite filter_length_forallb.
  destruct (forallb isValidRelayUrl (u :: urls)) eqn:Hall; simpl negb; cbv iota.
  - f_equal. apply forallb_filter_id. exact Hall.
  - reflexivity.
Qed.

Lemma forallb_false_iff {A} (f : A -> bool) (l : list A) :
  forallb f l = false <-> exists x, x ∈ l /\ f x = false.
Proof.
  induction l as [|y l IH]; simpl.
  - split; [discriminate|]. intros (x & Hx & _). inversion Hx.
  - rewrite andb_false_iff, IH. split.
    + intros [Hy|(x & Hx & Hf)].
      * exists y. split; [left|exact Hy].
      * exists x. split; [right; exact Hx|exact Hf].
    + intros (x & Hx & Hf). inversion Hx; subst.
      * left. exact Hf.
      * right. exists x. split; assumption.
Qed.

Lemma forallb_true_iff {A} (f : A -> bool) (l : list A) :
  forallb f l = true <-> forall x, x ∈ l -> f x = true.
Proof.
  rewrite forallb_forall. split; intros H x Hx; apply H.
  - apply list_elem_of_In. exact Hx.
  - apply list_elem_of_In. exact Hx.
Qed.

(** What the forwarding leaves: the same instance but for the relay set,
    which is whatever the store made of the array. *)
Lemma forward_relays_state (this : RelayService) :
  eventStore (fst (forward_relays this)) = eventStore this
  /\ lastActionAt (fst (forward_relays this)) = lastActionAt this
  /\ (relayUrls (fst (forward_relays this)) = relayUrls this
      \/ exists es method,
           eventStore this = Some es /\ store_setRelays es = Some method
           /\ relayUrls (fst (forward_relays this)) = method (relayUrls this)).
Proof.
  unfold forward_relays.
  destruct (eventStore this) as [es|] eqn:Hes.
  2:{ cbn. split; [exact Hes|]. split; [reflexivity|]. left. reflexivity. }
  destruct (store_setRelays es) as [method|] eqn:Hm; cbn.
  - split; [exact Hes|]. split; [reflexivity|].
    right. exists es, method. split; [reflexivity|]. split; [exact Hm|reflexivity].
  - split; [exact Hes|]. split; [reflexivity|]. left. reflexivity.
Qed.


(** With a store that keeps the list, the forwarding leaves the instance
    as it is. *)
Lemma forward_relays_keeps (this : RelayService) :
  (forall es, eventStore this = Some es -> keeps_list es) ->
  fst (forward_relays this) = this.
Proof.
  intros Hkeep. unfold forward_relays.
  destruct (eventStore this) as [es|] eqn:Hes; [|reflexivity].
  destruct (store_setRelays es) as [method|] eqn:Hm; [|reflexivity].
  cbn. rewrite (Hkeep es eq_refl method Hm).
  destruct this; cbn in *. unfold with_relayUrls. cbn. reflexivity.
Qed.

(** What [setRelays] does.  When some URL of the argument fails
    [isValidRelayUrl] the call throws, no call is made and the instance is
    left as it was.  When every URL passes, the call returns after
    installing the argument and handing that same array to the store. *)
Lemma setRelays_outcome (this : RelayService) (urls : list string) :
  ((exists url, url ∈ urls /\ isValidRelayUrl url = false) ->
     setRelays this urls = (Throw "Invalid relay URL format", this, []))
  /\ ((forall url, url ∈ urls -> isValidRelayUrl url = true) ->
        setRelays this urls
        = (Ok tt, fst (forward_relays (with_relayUrls this urls)),
           snd (forward_relays (with_relayUrls this urls)))).
Proof.
  unfold setRelays. rewrite validateRelayUrls_spec.
  destruct (forallb isValidRelayUrl urls) eqn:Hall.
  - split.
    + intros Hbad. apply forallb_false_iff in Hbad. congruence.
    + intros _. destruct (forward_relays (with_relayUrls this urls)). reflexivity.
  - split.
    + intros _. reflexivity.
    + intros Hgood. apply forallb_true_iff in Hgood. congruence.
Qed.

(** On an instance whose store keeps the list, or that has none,
    [setRelays] is all or nothing: the relay set afterwards is the argument
    when every URL passes, and what it was otherwise. *)
Lemma setRelays_all_or_nothing_keeping (this : RelayService) (urls : list string) :
  (forall es, eventStore this = Some es -> keeps_list es) ->
  ((exists url, url ∈ urls /\ isValidRelayUrl url = false) ->
     (exists msg, fst (fst (setRelays this urls)) = Throw msg)
     /\ snd (fst (setRelays this urls)) = this)
  /\ ((forall url, url ∈ urls -> isValidRelayUrl url = true) ->
        fst (fst (setRelays this urls)) = Ok tt
        /\ getRelays (snd (fst (setRelays this urls))) = urls).
Proof.
  intros Hkeep. destruct (setRelays_outcome this urls) as [Hbad Hgood]. split.
  - intros H. rewrite (Hbad H). cbn. split; [eexists; reflexivity|reflexivity].
  - intros H. rewrite (Hgood H). cbn. split; [reflexivity|].
    rewrite forward_relays_keeps; [reflexivity|]. exact Hkeep.
Qed.

(** *** The relay set is touched by [setRelays] only *)

Lemma read_relayUrls {S R} (this : RelayService) (now : Z) (action : string)
    (filter : Filter) (o : observer Packet S R) (acc : S) (unavailable : R) :
  relayUrls (state_after (read this now action filter o acc unavailable))
  = relayUrls this.
Proof.
  unfold read, enforceRateLimit.
  destruct (eventStore this) as [es|]; [|reflexivity].
  destruct (query es) as [q|]; [|reflexivity].
  destruct (race o acc (q filter)). reflexivity.
Qed.

Lemma fetchMultipleProfiles_relayUrls (this : RelayService) (now : Z)
    (pubkeys : list string) :
  relayUrls (state_after (fetchMultipleProfiles this now pubkeys)) = relayUrls this.
Proof.
  unfold fetchMultipleProfiles.
  destruct (eventStore this) eqn:Hes; [|reflexivity].
  destruct (length pubkeys =? 0)%nat; [reflexivity|].
  apply read_relayUrls.
Qed.

Lemma publishEvent_relayUrls (this : RelayService) (now : Z) (event : NostrEvent)
    (timeoutMs : option Z) :
  relayUrls (state_after (publishEvent this now event timeoutMs)) = relayUrls this.
Proof.
  unfold publishEvent, enforceRateLimit.
  destruct (eventStore this) as [es|]; [|reflexivity].
  cbn [relayUrls with_lastActionAt].
  destruct (length (relayUrls this) =? 0)%nat; [reflexivity|].
  destruct (publish es) as [p|]; [|reflexivity].
  destruct (race _ tt (p event)). reflexivity.
Qed.

Lemma publishFollowList_relayUrls (this : RelayService) (now : Z) (author : string)
    (followList : list FollowEntry.t)
    (signEvent : NostrEvent -> Z * result NostrEvent) :
  relayUrls (state_after (publishFollowList this now author followList signEvent))
  = relayUrls this.
Proof.
  unfold publishFollowList.
  destruct (encode_follow_list followList) as [tags_|msg]; [|reflexivity].
  destruct (signEvent _) as [dt [signed|msg]]; [|reflexivity].
  cbn [state_after]. apply publishEvent_relayUrls.
Qed.

Lemma validateRelayUrls_valid (urls valid : list string) :
  validateRelayUrls urls = Ok valid ->
  valid = urls /\ forall url, url ∈ valid -> isValidRelayUrl url = true.
Proof.
  rewrite validateRelayUrls_spec.
  destruct (forallb isValidRelayUrl urls) eqn:Hall; [|discriminate].
  intros [= <-]. split; [reflexivity|]. apply forallb_true_iff. exact Hall.
Qed.

Lemma initialize_state (this : RelayService) (es : EventStore) :
  snd (fst (initialize this es)) = fst (forward_relays (with_eventStore this es))
  /\ snd (initialize this es) = snd (forward_relays (with_eventStore this es)).
Proof.
  unfold initialize. destruct (forward_relays (with_eventStore this es)).
  split; reflexivity.
Qed.

Lemma step_relayUrls (this : RelayService) (op : operation) :
  (forall es, eventStore this = Some es -> keeps_list es) ->
  tidy op ->
  relayUrls (step this op) = relayUrls this
  \/ exists urls, op = SetRelays urls
                  /\ validateRelayUrls urls = Ok (relayUrls (step this op)).
Proof.
  intros Hkeep Htidy. destruct op; cbn [step].
  - left. destruct (initialize_state this es) as [-> _].
    rewrite forward_relays_keeps; [reflexivity|].
    cbn. intros es' [= <-]. exact Htidy.
  - unfold setRelays.
    destruct (validateRelayUrls urls) as [valid|msg] eqn:Hv.
    + right. exists urls. split; [reflexivity|].
      pose proof (forward_relays_keeps (with_relayUrls this valid) Hkeep) as Hf.
      destruct (forward_relays (with_relayUrls this valid)) as [this' made_].
      cbn in *. rewrite Hf. exact Hv.
    + left. reflexivity.
  - left. reflexivity.
  - left. apply publishEvent_relayUrls.
  - left. apply read_relayUrls.
  - left. apply read_relayUrls.
  - left. apply read_relayUrls.
  - left. apply fetchMultipleProfiles_relayUrls.
  - left. apply read_relayUrls.
  - left. apply publishFollowList_relayUrls.
Qed.

(** *** [parseProfileMetadata] *)

Lemma object_test (v : json) :
  js_falsy v || negb (String.eqb (js_typeof v) "object") = negb (is_object v).
Proof. destruct v as [|b|n|s| |]; try reflexivity.
  - destruct b; reflexivity.
  - cbn. destruct (n =? 0); reflexivity.
  - cbn. destruct (str_truthy s); reflexivity.
Qed.

Lemma is_primitive_is_object (v : json) : is_primitive v = negb (is_object v).
Proof. destruct v; reflexivity. Qed.

Lemma last_binding_None (key : string) (props : list (string * json)) :
  last_binding key props = None <-> forall kv, kv ∈ props -> fst kv <> key.
Proof.
  induction props as [|[k x] rest IH]; cbn [last_binding].
  - split; [|reflexivity]. intros _ kv Hin. inversion Hin.
  - destruct (last_binding key rest) as [v'|] eqn:Hrest.
    + split; [discriminate|]. intros Hall.
      assert (Hnone : Some v' = None); [|discriminate].
      apply IH. intros kv Hin. apply Hall. right. exact Hin.
    + destruct (String.eqb k key) eqn:Hk.
      * apply String.eqb_eq in Hk. split; [discriminate|].
        intros Hall. exfalso. apply (Hall (k, x)); [left|exact Hk].
      * apply String.eqb_neq in Hk. split; [|reflexivity].
        intros _ kv Hin. inversion Hin; subst.
        -- exact Hk.
        -- apply (proj1 IH eq_refl). assumption.
Qed.

Lemma last_binding_last_member (key : string) (props : list (string * json))
    (v : json) :
  last_binding key props = Some v <-> last_member key props v.
Proof.
  unfold last_member. induction props as [|[k x] rest IH].
  - cbn. split; [discriminate|]. intros (before & after & Heq & _).
    destruct before; discriminate.
  - split.
    + cbn [last_binding].
      destruct (last_binding key rest) as [v'|] eqn:Hrest.
      * intros [= <-]. destruct (proj1 IH eq_refl) as (before & after & -> & Hlast).
        exists ((k, x) :: before), after. split; [reflexivity|exact Hlast].
      * destruct (String.eqb k key) eqn:Hk; [|discriminate].
        apply String.eqb_eq in Hk. subst k. intros [= <-].
        exists [], rest. split; [reflexivity|].
        apply last_binding_None. exact Hrest.
    + intros (before & after & Heq & Hlast). destruct before as [|b0 before].
      * cbn in Heq. inversion Heq; subst. cbn [last_binding].
        apply last_binding_None in Hlast. rewrite Hlast.
        rewrite String.eqb_refl. reflexivity.
      * cbn in Heq. inversion Heq; subst. cbn [last_binding].
        rewrite (proj2 IH); [reflexivity|].
        exists before, after. split; [reflexivity|exact Hlast].
Qed.

Lemma string_prop_last_member (props : list (string * json)) (key s : string) :
  string_prop (JObject props) key = Some s <-> last_member key props (JString s).
Proof.
  rewrite <- last_binding_last_member. unfold string_prop, get_prop.
  destruct (last_binding key props) as [[| | |s'| |]|]; split; congruence.
Qed.

(** C5.  [parseProfileMetadata] never throws.  It returns [null] exactly
    when the content is longer than 10000 characters, or [JSON.parse]
    throws, or the parsed value is [null] or a primitive.  A parsed array
    passes the test [typeof parsed === 'object'] and gives the metadata
    object with no field.  A parsed object gives a metadata object holding
    exactly those of [name], [display_name], [about], [picture], [website]
    whose member (the last one, when the text repeats the key) has a string
    for value, and nothing else. *)
Theorem parseProfileMetadata_spec (content : string) :
  exists r, parseProfileMetadata content = Ok r
    /\ (r = None <->
          10000 < str_length content
          \/ (exists msg, JSON_parse content = Throw msg)
          \/ (exists parsed, JSON_parse content = Ok parsed
                             /\ is_primitive parsed = true))
    /\ (forall items,
          str_length content <= 10000 ->
          JSON_parse content = Ok (JArray items) ->
          r = Some empty_metadata)
    /\ (forall props,
          str_length content <= 10000 ->
          JSON_parse content = Ok (JObject props) ->
          exists metadata,
            r = Some metadata /\ holds_string_members props metadata).
Proof.
  unfold parseProfileMetadata, parseProfileMetadata_try, maxProfileContentSize.
  destruct (10000 <? str_length content) eqn:Hlen.
  - apply Z.ltb_lt in Hlen. exists None. split; [reflexivity|]. split.
    + split; [intros _; left; exact Hlen|reflexivity].
    + split; intros; lia.
  - apply Z.ltb_ge in Hlen.
    destruct (JSON_parse content) as [parsed|msg] eqn:Hparse; cbn.
    + rewrite object_test.
      destruct (is_object parsed) eqn:Hobj; cbn.
      * eexists. split; [reflexivity|]. split; [|split].
        -- split; [discriminate|].
           intros [Hlong|[(msg & Hmsg)|(v & Hv & Hno)]];
             [lia|discriminate|].
           injection Hv as <-. rewrite is_primitive_is_object, Hobj in Hno.
           discriminate.
        -- intros items _ [= ->]. reflexivity.
        -- intros props _ [= ->]. eexists. split; [reflexivity|].
           unfold holds_string_members; cbn [name display_name about picture website].
           repeat split; intros; apply string_prop_last_member; assumption.
      * exists None. split; [reflexivity|]. split; [|split].
        -- split; [|reflexivity]. intros _. right. right.
           exists parsed. split; [reflexivity|].
           rewrite is_primitive_is_object, Hobj. reflexivity.
        -- intros items _ [= ->]. discriminate.
        -- intros props _ [= ->]. discriminate.
    + exists None. split; [reflexivity|]. split; [|split].
      * split; [|reflexivity]. intros _. right. left. exists msg. reflexivity.
      * intros items _ [=].
      * intros props _ [=].
Qed.

(** *** The race *)

Lemma race_never_rejects {P S R} (o : observer P S R) (src : stream P) (acc : S) :
  never_rejects o -> is_rejected (snd (race o acc src)) = false.
Proof.
  intros (Hnext & Hcomplete & Herror & Htimeout).
  revert acc. induction src as [|[t n] rest IH]; intros acc; cbn [race].
  - apply Htimeout.
  - destruct (fires_at o <=? t); [apply Htimeout|].
    destruct n as [item| |e].
    + destruct (on_next o acc item) as [acc' [r|]] eqn:Hn.
      * apply (Hnext acc item). rewrite Hn. reflexivity.
      * apply IH.
    + destruct (on_complete o acc) as [r|] eqn:Hc;
        [apply (Hcomplete acc); exact Hc|apply Htimeout].
    + destruct (on_error o acc e) as [r|] eqn:He;
        [apply (Herror acc e); exact He|apply Htimeout].
Qed.

(** An observer that only accumulates: the race ends when the stream
    does, or at the deadline, with the accumulated result. *)
Lemma race_accumulating {P S R} (o : observer P S R) (finish : S -> R)
    (src : stream P) (acc : S) :
  (forall a item, snd (on_next o a item) = None) ->
  (forall a, on_complete o a = Some (Ok (finish a))) ->
  (forall a e, on_error o a e = Some (Ok (finish a))) ->
  (forall a, on_timeout o a = Ok (finish a)) ->
  race o acc src =
  (ending_time (fires_at o) (ending_of (fires_at o) src),
   Ok (finish (fold_left (fun a item => fst (on_next o a item))
                         (delivered (fires_at o) src) acc))).
Proof.
  intros Hnext Hcomplete Herror Htimeout.
  revert acc. induction src as [|[t n] rest IH]; intros acc;
    cbn [race delivered ending_of].
  - rewrite Htimeout. reflexivity.
  - destruct (fires_at o <=? t); [rewrite Htimeout; reflexivity|].
    destruct n as [item| |e].
    + specialize (Hnext acc item).
      destruct (on_next o acc item) as [acc' [r|]] eqn:Hn; [discriminate|].
      rewrite IH. cbn [fold_left]. rewrite Hn. reflexivity.
    + rewrite Hcomplete. reflexivity.
    + rewrite Herror. reflexivity.
Qed.

(** An observer without accumulator whose non-settling exits all give
    [fallback]: when no delivered item settles, the race ends when the
    stream does, or at the deadline, with [fallback]. *)
Lemma race_fallback {P R} (o : observer P unit R) (fallback : R) (src : stream P) :
  (forall e, on_complete o tt = Some (Ok fallback)
             /\ on_error o tt e = Some (Ok fallback)
             /\ on_timeout o tt = Ok fallback) ->
  none_settles o src ->
  race o tt src =
  (ending_time (fires_at o) (ending_of (fires_at o) src), Ok fallback).
Proof.
  intros Hexits. unfold none_settles.
  destruct (Hexits EmptyString) as (Hcomplete & _ & Htimeout).
  induction src as [|[t n] rest IH]; intros Hnone;
    cbn [race delivered ending_of] in *.
  - rewrite Htimeout. reflexivity.
  - destruct (fires_at o <=? t); [rewrite Htimeout; reflexivity|].
    destruct n as [item| |e].
    + pose proof (Hnone item ltac:(left)) as Hitem.
      destruct (on_next o tt item) as [[] [r|]]; [discriminate|].
      apply IH. intros item' Hin. apply Hnone. right. exact Hin.
    + rewrite Hcomplete. reflexivity.
    + destruct (Hexits e) as (_ & Herror & _). rewrite Herror. reflexivity.
Qed.

Lemma never_ends_times_out {P} (deadline : Z) (src : stream P) :
  never_ends src -> ending_of deadline src = TimedOut.
Proof.
  unfold never_ends. induction src as [|[t n] rest IH]; intros Hopen;
    cbn [ending_of]; [reflexivity|].
  destruct (deadline <=? t); [reflexivity|].
  destruct (Hopen t n ltac:(left)) as [item ->].
  apply IH. intros t' n' Hin. apply (Hopen t' n'). right. exact Hin.
Qed.

Lemma read_subscribed {S R} (this : RelayService) (es : EventStore)
    (q : Filter -> stream Packet) (now : Z) (action : string) (filter : Filter)
    (o : observer Packet S R) (acc : S) (unavailable : R) :
  eventStore this = Some es -> query es = Some q ->
  read this now action filter o acc unavailable =
  {| settled := snd (race o acc (q filter));
     settled_at :=
       fst (enforceRateLimit this action minProfileQueryIntervalMs now)
       + fst (race o acc (q filter));
     state_after :=
       snd (enforceRateLimit this action minProfileQueryIntervalMs now);
     calls := [CallQuery filter] |}.
Proof.
  intros Hes Hq. unfold read. rewrite Hes.
  destruct (enforceRateLimit _ _ _ _) as [started this'].
  rewrite Hq. destruct (race o acc (q filter)) as [dt r]. reflexivity.
Qed.

(** *** [queryProfiles]: latest wins *)

Lemma num_or_zero (n : Z) : num_or n 0 = n.
Proof. unfold num_or. destruct (n =? 0) eqn:H; [|reflexivity].
  apply Z.eqb_eq in H. congruence. Qed.

Lemma eligible_functional (a a' : string) (e : NostrEvent)
    (m m' : ProfileMetadata) :
  eligible a e m -> eligible a' e m' -> a = a' /\ m = m'.
Proof. intros (_ & Ha & _ & Hm) (_ & Ha' & _ & Hm'). split; congruence. Qed.

(** What one [next] callback of [queryProfiles] does to the index. *)
Lemma queryProfiles_next_cases (profiles : gmap string (ProfileMetadata * Z))
    (packet : Packet) :
  (exists e a m,
      packet = Some e /\ eligible a e m
      /\ queryProfiles_next profiles packet =
         match profiles !! a with
         | Some existing =>
             if snd existing <? created_at e
             then <[a := (m, created_at e)]> profiles else profiles
         | None => <[a := (m, created_at e)]> profiles
         end)
  \/ ((forall e a m, packet = Some e -> ~ eligible a e m)
      /\ queryProfiles_next profiles packet = profiles).
Proof.
  destruct packet as [e|]; cbn [queryProfiles_next].
  2:{ right. split; [intros e a m [=]|reflexivity]. }
  destruct (kind e =? 0) eqn:Hk; cbn [andb].
  2:{ right. split; [|reflexivity].
      intros e' a m [= <-] (Hk' & _). apply Z.eqb_neq in Hk. contradiction. }
  destruct (pubkey e) as [a|] eqn:Hp; cbn [truthy].
  2:{ right. split; [|reflexivity].
      intros e' a m [= <-] (_ & Hp' & _). congruence. }
  destruct (str_truthy a) eqn:Ha.
  2:{ right. split; [|reflexivity].
      intros e' a' m [= <-] (_ & Hp' & Hne & _).
      assert (a' = a) by congruence. subst a'.
      destruct a; [contradiction|discriminate]. }
  destruct (parseProfileMetadata (content e)) as [[m|]|msg] eqn:Hm.
  - left. exists e, a, m. rewrite num_or_zero. cbn [default].
    split; [reflexivity|]. split; [|reflexivity].
    repeat split; try assumption.
    + apply Z.eqb_eq. exact Hk.
    + intros ->. discriminate.
  - right. split; [|reflexivity].
    intros e' a' m [= <-] (_ & _ & _ & Hm'). congruence.
  - right. split; [|reflexivity].
    intros e' a' m [= <-] (_ & _ & _ & Hm'). congruence.
Qed.

Lemma latest_index_next (profiles : gmap string (ProfileMetadata * Z))
    (seen : list Packet) (packet : Packet) :
  latest_index profiles seen ->
  latest_index (queryProfiles_next profiles packet) (seen ++ [packet]).
Proof.
  intros Hinv a. specialize (Hinv a) as Ha.
  assert (Hmem : forall e', Some e' ∈ seen ++ [packet] ->
                            Some e' ∈ seen \/ packet = Some e').
  { intros e' Hin. apply elem_of_app in Hin as [Hin|Hin]; [left; exact Hin|].
    right. apply list_elem_of_singleton in Hin. congruence. }
  assert (Hold : forall e', Some e' ∈ seen -> Some e' ∈ seen ++ [packet]).
  { intros e' Hin. apply elem_of_app. left. exact Hin. }
  assert (Hnew : forall e', packet = Some e' -> Some e' ∈ seen ++ [packet]).
  { intros e' ->. apply elem_of_app. right. apply list_elem_of_singleton.
    reflexivity. }
  destruct (queryProfiles_next_cases profiles packet)
    as [(e0 & a0 & m0 & Hp & Hel & Hnext)|(Hnone & Hnext)]; rewrite Hnext.
  - (* the packet counts for author a0 *)
    destruct (decide (a0 = a)) as [->|Hne].
    + destruct (profiles !! a) as [[m ts]|] eqn:Hlook; cbn [snd].
      * destruct Ha as (e & Hin & Hele & Hts & Hmax).
        destruct (ts <? created_at e0) eqn:Hlt.
        -- apply Z.ltb_lt in Hlt. rewrite lookup_insert_eq.
           exists e0. split; [apply Hnew; exact Hp|].
           split; [exact Hel|]. split; [reflexivity|].
           intros e' m' Hin' Hel'. destruct (Hmem e' Hin') as [Hs|Hs].
           ++ specialize (Hmax e' m' Hs Hel'). lia.
           ++ assert (e' = e0) by congruence. subst e'. lia.
        -- apply Z.ltb_ge in Hlt. rewrite Hlook.
           exists e. split; [apply Hold; exact Hin|].
           split; [exact Hele|]. split; [exact Hts|].
           intros e' m' Hin' Hel'. destruct (Hmem e' Hin') as [Hs|Hs].
           ++ apply (Hmax e' m' Hs Hel').
           ++ assert (e' = e0) by congruence. subst e'. exact Hlt.
      * rewrite lookup_insert_eq.
        exists e0. split; [apply Hnew; exact Hp|].
        split; [exact Hel|]. split; [reflexivity|].
        intros e' m' Hin' Hel'. destruct (Hmem e' Hin') as [Hs|Hs].
        -- exfalso. apply (Ha e' m' Hs Hel').
        -- assert (e' = e0) by congruence. subst e'. lia.
    + (* another author: the binding of a is untouched *)
      assert (Hsame :
        match profiles !! a0 with
        | Some existing =>
            if snd existing <? created_at e0
            then <[a0 := (m0, created_at e0)]> profiles else profiles
        | None => <[a0 := (m0, created_at e0)]> profiles
        end !! a = profiles !! a).
      { destruct (profiles !! a0) as [existing|];
          [destruct (snd existing <? created_at e0)|];
          try reflexivity; apply lookup_insert_ne; exact Hne. }
      rewrite Hsame.
      destruct (profiles !! a) as [[m ts]|].
      * destruct Ha as (e & Hin & Hele & Hts & Hmax).
        exists e. split; [apply Hold; exact Hin|].
        split; [exact Hele|]. split; [exact Hts|].
        intros e' m' Hin' Hel'. destruct (Hmem e' Hin') as [Hs|Hs].
        -- apply (Hmax e' m' Hs Hel').
        -- assert (e' = e0) by congruence. subst e'.
           destruct (eligible_functional _ _ _ _ _ Hel Hel'). contradiction.
      * intros e' m' Hin' Hel'. destruct (Hmem e' Hin') as [Hs|Hs].
        -- apply (Ha e' m' Hs Hel').
        -- assert (e' = e0) by congruence. subst e'.
           destruct (eligible_functional _ _ _ _ _ Hel Hel'). contradiction.
  - (* the packet is skipped *)
    destruct (profiles !! a) as [[m ts]|].
    + destruct Ha as (e & Hin & Hele & Hts & Hmax).
      exists e. split; [apply Hold; exact Hin|].
      split; [exact Hele|]. split; [exact Hts|].
      intros e' m' Hin' Hel'. destruct (Hmem e' Hin') as [Hs|Hs].
      * apply (Hmax e' m' Hs Hel').
      * exfalso. apply (Hnone e' a m' Hs Hel').
    + intros e' m' Hin' Hel'. destruct (Hmem e' Hin') as [Hs|Hs].
      * apply (Ha e' m' Hs Hel').
      * apply (Hnone e' a m' Hs Hel').
Qed.

Lemma latest_index_fold (packets seen : list Packet)
    (profiles : gmap string (ProfileMetadata * Z)) :
  latest_index profiles seen ->
  latest_index (fold_left queryProfiles_next packets profiles) (seen ++ packets).
Proof.
  revert seen profiles.
  induction packets as [|packet packets IH]; intros seen profiles Hinv.
  - rewrite app_nil_r. exact Hinv.
  - cbn [fold_left].
    replace (seen ++ packet :: packets) with ((seen ++ [packet]) ++ packets)
      by (rewrite <- app_assoc; reflexivity).
    apply IH. apply latest_index_next. exact Hinv.
Qed.

Lemma latest_index_empty : latest_index ∅ [].
Proof. intros a. rewrite lookup_empty. intros e m Hin. inversion Hin. Qed.

(** C3.  [queryProfiles] applies latest-wins: for the records delivered
    before the promise settles, the returned map binds an author exactly
    when one of their kind-0 records decodes, and then to the metadata
    decoded from one of those records whose [created_at] is greatest among
    them.  A record whose [created_at] is not greater than that of the
    record already retained for its author leaves the index as it is. *)
Theorem queryProfiles_latest_wins (this : RelayService) (es : EventStore)
    (q : Filter -> stream Packet) (now : Z) (pubkeys : option (list string))
    (limit : option Z) :
  eventStore this = Some es -> query es = Some q ->
  exists result,
    settled (queryProfiles this now pubkeys limit) = Ok result
    /\ (forall author,
          match result !! author with
          | Some metadata =>
              exists event,
                Some event ∈ delivered 10000 (q (queryProfiles_filter pubkeys limit))
                /\ eligible author event metadata
                /\ forall event' metadata',
                     Some event' ∈ delivered 10000 (q (queryProfiles_filter pubkeys limit)) ->
                     eligible author event' metadata' ->
                     created_at event' <= created_at event
          | None =>
              forall event metadata,
                Some event ∈ delivered 10000 (q (queryProfiles_filter pubkeys limit)) ->
                ~ eligible author event metadata
          end)
    /\ (forall profiles event author existing,
          pubkey event = Some author ->
          profiles !! author = Some existing ->
          created_at event <= snd existing ->
          queryProfiles_next profiles (Some event) = profiles).
Proof.
  intros Hes Hq. unfold queryProfiles.
  rewrite (read_subscribed _ es q) by assumption. cbn [settled].
  rewrite (race_accumulating queryProfiles_observer queryProfiles_result)
    by reflexivity.
  cbn [snd]. eexists. split; [reflexivity|]. split.
  - intros author.
    change (fires_at queryProfiles_observer) with 10000.
    change (fun a item => fst (on_next queryProfiles_observer a item))
      with queryProfiles_next.
    set (records := delivered 10000 (q (queryProfiles_filter pubkeys limit))).
    pose proof (latest_index_fold records [] ∅ latest_index_empty author) as Hidx.
    cbn [app] in Hidx. unfold queryProfiles_result. rewrite lookup_fmap.
    destruct (fold_left queryProfiles_next records ∅ !! author) as [[m ts]|];
      cbn [fmap option_fmap option_map fst].
    + destruct Hidx as (e & Hin & Hel & Hts & Hmax).
      exists e. split; [exact Hin|]. split; [exact Hel|].
      intros e' m' Hin' Hel'. rewrite <- Hts. apply (Hmax e' m' Hin' Hel').
    + exact Hidx.
  - intros profiles event author existing Hauthor Hlook Hold.
    cbn [queryProfiles_next]. rewrite Hauthor. cbn [default].
    destruct ((kind event =? 0) && truthy (Some author)); [|reflexivity].
    destruct (parseProfileMetadata (content event)) as [[m|]|msg];
      try reflexivity.
    unfold id. rewrite num_or_zero, Hlook.
    destruct (snd existing <? created_at event) eqn:Hlt; [|reflexivity].
    apply Z.ltb_lt in Hlt. lia.
Qed.

(** *** Reads never reject once a store is attached *)






Lemma read_never_rejects {S R} (this : RelayService) (es : EventStore) (now : Z)
    (action : string) (filter : Filter) (o : observer Packet S R) (acc : S)
    (unavailable : R) :
  eventStore this = Some es -> never_rejects o ->
  is_rejected (settled (read this now action filter o acc unavailable)) = false.
Proof.
  intros Hes Ho. unfold read. rewrite Hes.
  destruct (enforceRateLimit _ _ _ _) as [started this'].
  destruct (query es) as [q|]; [|reflexivity].
  pose proof (race_never_rejects o (q filter) acc Ho) as Hrace.
  destruct (race o acc (q filter)) as [dt r]. exact Hrace.
Qed.

Lemma read_unavailable {S R} (this : RelayService) (es : EventStore) (now : Z)
    (action : string) (filter : Filter) (o : observer Packet S R) (acc : S)
    (unavailable : R) :
  eventStore this = Some es -> query es = None ->
  settled (read this now action filter o acc unavailable) = Ok unavailable
  /\ calls (read this now action filter o acc unavailable) = [].
Proof.
  intros Hes Hq. unfold read. rewrite Hes.
  destruct (enforceRateLimit _ _ _ _) as [started this'].
  rewrite Hq. split; reflexivity.
Qed.

Lemma read_uninitialised {S R} (this : RelayService) (now : Z)
    (action : string) (filter : Filter) (o : observer Packet S R) (acc : S)
    (unavailable : R) :
  eventStore this = None ->
  read this now action filter o acc unavailable =
  {| settled := Throw NOT_INITIALIZED; settled_at := now;
     state_after := this; calls := [] |}.
Proof. intros Hes. unfold read. rewrite Hes. reflexivity. Qed.

(** Before [initialize], every read rejects at once, and asks nothing of
    any store. *)
Lemma reads_reject_before_initialize (this : RelayService) (now : Z) :
  eventStore this = None ->
  (forall pubkey, settled (fetchProfile this now pubkey) = Throw NOT_INITIALIZED)
  /\ (forall pubkey,
        settled (fetchProfileRoleTag this now pubkey) = Throw NOT_INITIALIZED)
  /\ (forall pubkey,
        settled (fetchFollowList this now pubkey) = Throw NOT_INITIALIZED)
  /\ (forall pubkeys,
        settled (fetchMultipleProfiles this now pubkeys) = Throw NOT_INITIALIZED)
  /\ (forall pubkeys limit,
        settled (queryProfiles this now pubkeys limit) = Throw NOT_INITIALIZED).
Proof.
  intros Hes. repeat split; intros;
    unfold fetchProfile, fetchProfileRoleTag, fetchFollowList,
      fetchMultipleProfiles, queryProfiles;
    rewrite ?Hes, ?read_uninitialised by exact Hes; reflexivity.
Qed.

(** A single-entity read that no delivered item settles ends with its
    fallback, when the stream ends or at the deadline. *)
Lemma read_fallback {R} (this : RelayService) (es : EventStore)
    (q : Filter -> stream Packet) (now : Z) (action : string) (filter : Filter)
    (o : observer Packet unit R) (fallback : R) :
  eventStore this = Some es -> query es = Some q ->
  (forall e, on_complete o tt = Some (Ok fallback)
             /\ on_error o tt e = Some (Ok fallback)
             /\ on_timeout o tt = Ok fallback) ->
  none_settles o (q filter) ->
  settled (read this now action filter o tt fallback) = Ok fallback
  /\ settled_at (read this now action filter o tt fallback)
     = issued_at this action now
       + ending_time (fires_at o) (ending_of (fires_at o) (q filter)).
Proof.
  intros Hes Hq Hexits Hnone.
  rewrite (read_subscribed _ es q) by assumption.
  rewrite (race_fallback o fallback) by assumption.
  split; reflexivity.
Qed.

(** A collecting read ends with what it accumulated, when the stream ends
    or at the deadline. *)
Lemma read_accumulating {S R} (this : RelayService) (es : EventStore)
    (q : Filter -> stream Packet) (now : Z) (action : string) (filter : Filter)
    (o : observer Packet S R) (finish : S -> R) (acc : S) (unavailable : R) :
  eventStore this = Some es -> query es = Some q ->
  (forall a item, snd (on_next o a item) = None) ->
  (forall a, on_complete o a = Some (Ok (finish a))) ->
  (forall a e, on_error o a e = Some (Ok (finish a))) ->
  (forall a, on_timeout o a = Ok (finish a)) ->
  settled (read this now action filter o acc unavailable)
  = Ok (finish (fold_left (fun a item => fst (on_next o a item))
                          (delivered (fires_at o) (q filter)) acc))
  /\ settled_at (read this now action filter o acc unavailable)
     = issued_at this action now
       + ending_time (fires_at o) (ending_of (fires_at o) (q filter)).
Proof.
  intros Hes Hq Hnext Hcomplete Herror Htimeout.
  rewrite (read_subscribed _ es q) by assumption.
  rewrite (race_accumulating o finish) by assumption.
  split; reflexivity.
Qed.

Lemma single_read_exits {R} (o : observer Packet unit R) (fallback : R) :
  on_complete o tt = Some (Ok fallback) ->
  (forall e, on_error o tt e = Some (Ok fallback)) ->
  on_timeout o tt = Ok fallback ->
  forall e : string,
    on_complete o tt = Some (Ok fallback)
    /\ on_error o tt e = Some (Ok fallback)
    /\ on_timeout o tt = Ok fallback.
Proof. intros Hc He Ht e. split; [exact Hc|]. split; [apply He|exact Ht]. Qed.

Lemma fetchMultipleProfiles_nonempty (this : RelayService) (es : EventStore)
    (now : Z) (pubkeys : list string) :
  eventStore this = Some es -> pubkeys <> [] ->
  fetchMultipleProfiles this now pubkeys =
  read this now "fetch-multiple-profiles" (fetchMultipleProfiles_filter pubkeys)
    fetchMultipleProfiles_observer ∅ ∅.
Proof.
  intros Hes Hne. unfold fetchMultipleProfiles. rewrite Hes.
  destruct pubkeys; [contradiction|reflexivity].
Qed.

(** On a store that only delivers after [subscribe] has returned, and
    whose timer wins when both are due together, the general race is the
    race above. *)
Lemma race_at_race {P S R} (o : observer P S R) (acc : S) (src : stream P) :
  race_at (fires_at o) false o acc src = race o acc src.
Proof.
  revert acc. induction src as [|[t n] rest IH]; intros acc;
    cbn [race race_at timer_first]; [reflexivity|].
  destruct (fires_at o <=? t); [reflexivity|].
  destruct n as [item| |e]; [|reflexivity|reflexivity].
  destruct (on_next o acc item) as [acc' [r|]]; [reflexivity|apply IH].
Qed.

Lemma delivered_at_delivered {P} (due : Z) (src : stream P) :
  delivered_at due false src = delivered due src.
Proof.
  induction src as [|[t n] rest IH]; cbn [delivered delivered_at timer_first];
    [reflexivity|].
  destruct (due <=? t); [reflexivity|].
  destruct n; [rewrite IH|..]; reflexivity.
Qed.

Lemma ending_at_ending_of {P} (due : Z) (src : stream P) :
  ending_at due false src = ending_of due src.
Proof.
  induction src as [|[t n] rest IH]; cbn [ending_of ending_at timer_first];
    [reflexivity|].
  destruct (due <=? t); [reflexivity|].
  destruct n; [exact IH|reflexivity..].
Qed.

Lemma read_under_orderly {S R} (this : RelayService) (now : Z) (action : string)
    (filter : Filter) (o : observer Packet S R) (acc : S) (unavailable : R) :
  read_under orderly this now action filter o acc unavailable
  = read this now action filter o acc unavailable.
Proof.
  unfold read_under, read.
  destruct (eventStore this) as [es|]; [|reflexivity].
  destruct (enforceRateLimit _ _ _ _) as [started this'].
  destruct (query es) as [q|]; [|reflexivity].
  cbn [orderly query_throws query_inside callback_throw stream_first
       subscribe_with inside].
  rewrite race_at_race. reflexivity.
Qed.




Lemma read_under_subscribed {S R} (c : conduct) (this : RelayService)
    (es : EventStore) (q : Filter -> stream Packet) (now : Z) (action : string)
    (filter : Filter) (o : observer Packet S R) (acc : S) (unavailable : R) :
  eventStore this = Some es -> query es = Some q ->
  read_under c this now action filter o acc unavailable =
  {| settled :=
       snd (subscribe_with (query_throws c filter) (query_inside c filter)
              (callback_throw c) (stream_first c) (fires_at o) o acc (q filter));
     settled_at :=
       issued_at this action now
       + fst (subscribe_with (query_throws c filter) (query_inside c filter)
                (callback_throw c) (stream_first c) (fires_at o) o acc
                (q filter));
     state_after :=
       snd (enforceRateLimit this action minProfileQueryIntervalMs now);
     calls := [CallQuery filter] |}.
Proof.
  intros Hes Hq. unfold read_under, issued_at. rewrite Hes.
  destruct (enforceRateLimit _ _ _ _) as [started this'].
  rewrite Hq. destruct (subscribe_with _ _ _ _ _ _ _ _) as [dt r]. reflexivity.
Qed.




(** When the subscription is over as [subscribe] returns, the promise
    stays pending until the timer fires. *)
Lemma read_under_over {S R} (c : conduct) (this : RelayService)
    (es : EventStore) (q : Filter -> stream Packet) (now : Z) (action : string)
    (filter : Filter) (o : observer Packet S R) (acc acc' : S) (unavailable : R) :
  eventStore this = Some es -> query es = Some q ->
  query_throws c filter = None ->
  inside o (callback_throw c) acc (query_inside c filter) = Ok (acc', true) ->
  settled (read_under c this now action filter o acc unavailable)
  = on_timeout o acc'
  /\ settled_at (read_under c this now action filter o acc unavailable)
     = issued_at this action now + fires_at o.
Proof.
  intros Hes Hq Hthrows Hinside.
  rewrite (read_under_subscribed c this es q) by assumption.
  unfold subscribe_with. rewrite Hthrows, Hinside. split; reflexivity.
Qed.


Lemma race_at_fallback {P R} (due : Z) (stream_first : bool)
    (o : observer P unit R) (fallback : R) (src : stream P) :
  (forall e, on_complete o tt = Some (Ok fallback)
             /\ on_error o tt e = Some (Ok fallback)
             /\ on_timeout o tt = Ok fallback) ->
  (forall item, item ∈ delivered_at due stream_first src ->
                snd (on_next o tt item) = None) ->
  race_at due stream_first o tt src =
  (ending_time due (ending_at due stream_first src), Ok fallback).
Proof.
  intros Hexits.
  destruct (Hexits EmptyString) as (Hcomplete & _ & Htimeout).
  induction src as [|[t n] rest IH]; intros Hnone;
    cbn [race_at delivered_at ending_at] in *.
  - rewrite Htimeout. reflexivity.
  - destruct (timer_first due stream_first t); [rewrite Htimeout; reflexivity|].
    destruct n as [item| |e].
    + pose proof (Hnone item ltac:(left)) as Hitem.
      destruct (on_next o tt item) as [[] [r|]]; [discriminate|].
      apply IH. intros item' Hin. apply Hnone. right. exact Hin.
    + rewrite Hcomplete. reflexivity.
    + destruct (Hexits e) as (_ & Herror & _). rewrite Herror. reflexivity.
Qed.




(** *** Deadlines *)

Lemma issued_at_ge (this : RelayService) (action : string) (now : Z) :
  now <= issued_at this action now.
Proof.
  unfold issued_at, enforceRateLimit. cbn [fst].
  destruct (0 <? _) eqn:Hw; [apply Z.ltb_lt in Hw|]; lia.
Qed.

(** C7.  A read whose stream never completes and never fails,
    and which no delivered item settles, settles exactly when its timer
    fires: 5000 ms ([fetchProfile], [fetchProfileRoleTag]), 10000 ms
    ([fetchFollowList], [queryProfiles]) or 1000 ms
    ([fetchMultipleProfiles]) after it issued its query, which it does
    when its rate-limit wait is over.  The single-entity reads settle
    with [null], [fetchFollowList] with the empty list; the two map reads,
    which no item settles, settle with the map accumulated from the items
    delivered before the deadline. *)
Theorem reads_settle_at_deadline (this : RelayService) (es : EventStore)
    (q : Filter -> stream Packet) (now : Z) :
  eventStore this = Some es -> query es = Some q ->
  (forall pubkey,
      never_ends (q (fetchProfile_filter pubkey)) ->
      none_settles fetchProfile_observer (q (fetchProfile_filter pubkey)) ->
      settled (fetchProfile this now pubkey) = Ok None
      /\ settled_at (fetchProfile this now pubkey)
         = issued_at this "fetch-profile" now + 5000)
  /\ (forall pubkey,
        never_ends (q (fetchProfileRoleTag_filter pubkey)) ->
        none_settles fetchProfileRoleTag_observer
          (q (fetchProfileRoleTag_filter pubkey)) ->
        settled (fetchProfileRoleTag this now pubkey) = Ok None
        /\ settled_at (fetchProfileRoleTag this now pubkey)
           = issued_at this "fetch-role-tag" now + 5000)
  /\ (forall pubkey,
        never_ends (q (fetchFollowList_filter pubkey)) ->
        none_settles fetchFollowList_observer (q (fetchFollowList_filter pubkey)) ->
        settled (fetchFollowList this now pubkey) = Ok []
        /\ settled_at (fetchFollowList this now pubkey)
           = issued_at this "fetch-follow-list" now + 10000)
  /\ (forall pubkeys,
        pubkeys <> [] ->
        never_ends (q (fetchMultipleProfiles_filter pubkeys)) ->
        settled (fetchMultipleProfiles this now pubkeys)
        = Ok (fold_left fetchMultipleProfiles_next
                (delivered 1000 (q (fetchMultipleProfiles_filter pubkeys))) ∅)
        /\ settled_at (fetchMultipleProfiles this now pubkeys)
           = issued_at this "fetch-multiple-profiles" now + 1000)
  /\ (forall pubkeys limit,
        never_ends (q (queryProfiles_filter pubkeys limit)) ->
        settled (queryProfiles this now pubkeys limit)
        = Ok (queryProfiles_result
                (fold_left queryProfiles_next
                   (delivered 10000 (q (queryProfiles_filter pubkeys limit))) ∅))
        /\ settled_at (queryProfiles this now pubkeys limit)
           = issued_at this "query-profiles" now + 10000)
  /\ (forall action, now <= issued_at this action now).
Proof.
  intros Hes Hq. repeat apply conj.
  - intros pubkey Hopen Hnone.
    destruct (read_fallback this es q now "fetch-profile"
                (fetchProfile_filter pubkey) fetchProfile_observer None Hes Hq
                (single_read_exits fetchProfile_observer None eq_refl (fun _ => eq_refl)
                   eq_refl) Hnone)
      as [Hv Ht].
    split; [exact Hv|]. unfold fetchProfile. rewrite Ht.
    rewrite never_ends_times_out by exact Hopen. reflexivity.
  - intros pubkey Hopen Hnone.
    destruct (read_fallback this es q now "fetch-role-tag"
                (fetchProfileRoleTag_filter pubkey) fetchProfileRoleTag_observer
                None Hes Hq
                (single_read_exits fetchProfileRoleTag_observer None eq_refl
                   (fun _ => eq_refl) eq_refl) Hnone)
      as [Hv Ht].
    split; [exact Hv|]. unfold fetchProfileRoleTag. rewrite Ht.
    rewrite never_ends_times_out by exact Hopen. reflexivity.
  - intros pubkey Hopen Hnone.
    destruct (read_fallback this es q now "fetch-follow-list"
                (fetchFollowList_filter pubkey) fetchFollowList_observer
                [] Hes Hq
                (single_read_exits fetchFollowList_observer [] eq_refl (fun _ => eq_refl)
                   eq_refl) Hnone)
      as [Hv Ht].
    split; [exact Hv|]. unfold fetchFollowList. rewrite Ht.
    rewrite never_ends_times_out by exact Hopen. reflexivity.
  - intros pubkeys Hne Hopen.
    rewrite (fetchMultipleProfiles_nonempty this es) by assumption.
    destruct (read_accumulating this es q now "fetch-multiple-profiles"
                (fetchMultipleProfiles_filter pubkeys)
                fetchMultipleProfiles_observer (fun a => a) ∅ ∅ Hes Hq
                (fun _ _ => eq_refl) (fun _ => eq_refl) (fun _ _ => eq_refl)
                (fun _ => eq_refl)) as [Hv Ht].
    split; [exact Hv|]. rewrite Ht.
    rewrite never_ends_times_out by exact Hopen. reflexivity.
  - intros pubkeys limit Hopen.
    destruct (read_accumulating this es q now "query-profiles"
                (queryProfiles_filter pubkeys limit)
                queryProfiles_observer queryProfiles_result ∅ ∅ Hes Hq
                (fun _ _ => eq_refl) (fun _ => eq_refl) (fun _ _ => eq_refl)
                (fun _ => eq_refl)) as [Hv Ht].
    split; [exact Hv|]. unfold queryProfiles. rewrite Ht.
    rewrite never_ends_times_out by exact Hopen. reflexivity.
  - intros action. apply issued_at_ge.
Qed.

(** C9.  The deadlines are the constants of the code:
    5000 ms for [fetchProfile] and [fetchProfileRoleTag], 1000 ms for the
    batch read [fetchMultipleProfiles], which is therefore the shorter
    one, 10000 ms for [fetchFollowList] and [queryProfiles], and 1000 ms
    by default for [publishEvent]. *)
Theorem operation_deadlines :
  delay fetchProfile_observer = 5000
  /\ delay fetchProfileRoleTag_observer = 5000
  /\ delay fetchMultipleProfiles_observer = 1000
  /\ delay fetchMultipleProfiles_observer < delay fetchProfile_observer
  /\ delay fetchMultipleProfiles_observer < delay fetchProfileRoleTag_observer
  /\ delay fetchFollowList_observer = 10000
  /\ delay queryProfiles_observer = 10000
  /\ (forall this now event,
        publishEvent this now event None = publishEvent this now event (Some 1000))
  /\ (forall timeoutMs, delay (publishEvent_observer timeoutMs) = timeoutMs).
Proof. cbn. repeat split; lia. Qed.

(** *** [publishEvent] without relays *)

(** C8.  With an empty relay set [publishEvent] rejects without calling
    [publish] and without arming the [timeoutMs] timer, so that [timeoutMs]
    has no part in what happens.  With no store attached it rejects at the
    call.  With a store attached it rejects when its rate-limit wait is
    over: at the call when the last publish was admitted at least 750 ms
    earlier, and otherwise exactly 750 ms after that admission; the
    rejected call counts as an admission itself. *)
Theorem publishEvent_no_relays (this : RelayService) (now : Z)
    (event : NostrEvent) (timeoutMs : option Z) :
  relayUrls this = [] ->
  calls (publishEvent this now event timeoutMs) = []
  /\ publishEvent this now event timeoutMs = publishEvent this now event None
  /\ (eventStore this = None ->
      settled (publishEvent this now event timeoutMs) = Throw NOT_INITIALIZED
      /\ settled_at (publishEvent this now event timeoutMs) = now
      /\ state_after (publishEvent this now event timeoutMs) = this)
  /\ (forall es, eventStore this = Some es ->
        settled (publishEvent this now event timeoutMs)
        = Throw "No relays configured"
        /\ (750 <= now - default 0 (lastActionAt this !! "publish") ->
            settled_at (publishEvent this now event timeoutMs) = now)
        /\ (now - default 0 (lastActionAt this !! "publish") < 750 ->
            settled_at (publishEvent this now event timeoutMs)
            = default 0 (lastActionAt this !! "publish") + 750)
        /\ lastActionAt (state_after (publishEvent this now event timeoutMs))
             !! "publish"
           = Some (settled_at (publishEvent this now event timeoutMs))).
Proof.
  intros Hnone. unfold publishEvent, enforceRateLimit, minPublishIntervalMs.
  destruct (eventStore this) as [es|].
  - cbn [relayUrls with_lastActionAt]. rewrite Hnone.
    cbn [length Nat.eqb calls settled settled_at state_after].
    set (lastAt := default 0 (lastActionAt this !! "publish")).
    split; [reflexivity|]. split; [reflexivity|]. split; [discriminate|].
    intros es' _. split; [reflexivity|].
    cbn [lastActionAt with_lastActionAt]. rewrite lookup_insert_eq.
    destruct (0 <? 750 - (now - lastAt)) eqn:Hw.
    + apply Z.ltb_lt in Hw. split; [lia|]. split; [lia|reflexivity].
    + apply Z.ltb_ge in Hw. split; [reflexivity|]. split; [lia|reflexivity].
  - cbn. split; [reflexivity|]. split; [reflexivity|].
    split; [repeat split|]. intros es [=].
Qed.

(** *** The validation gate of [publishFollowList] *)

Lemma follow_tag_invalid (entry : FollowEntry.t) :
  isValidPubkey (FollowEntry.pubkey entry) = false
  \/ (exists r, FollowEntry.relay entry = Some r /\ r <> EmptyString
                /\ isValidRelayUrl r = false) ->
  exists msg, follow_tag entry = Throw msg.
Proof.
  unfold follow_tag. intros [Hpk|(r & Hr & Hne & Hurl)].
  - rewrite Hpk. cbn. eexists. reflexivity.
  - destruct (isValidPubkey (FollowEntry.pubkey entry)); cbn;
      [|eexists; reflexivity].
    rewrite Hr. cbn. destruct r; [contradiction|]. cbn.
    cbn in Hurl. rewrite Hurl. cbn. eexists. reflexivity.
Qed.

Lemma mapM_throws {A B} (f : A -> result B) (l : list A) :
  (exists x, x ∈ l /\ exists msg, f x = Throw msg) ->
  exists msg, mapM f l = Throw msg.
Proof.
  induction l as [|y l IH]; intros (x & Hin & msg & Hf).
  - inversion Hin.
  - cbn. destruct (f y) as [b|msg'] eqn:Hy; cbn; [|eexists; reflexivity].
    inversion Hin; subst; [congruence|].
    destruct IH as [msg'' ->]; [exists x; eauto|].
    cbn. eexists. reflexivity.
Qed.

(** An empty-string relay is no relay to the encoder: it is neither
    validated nor written. *)
Lemma follow_tag_empty_relay (pk : string) (petname : option string) :
  follow_tag {| FollowEntry.pubkey := pk; FollowEntry.relay := Some EmptyString;
                FollowEntry.petname := petname |}
  = follow_tag {| FollowEntry.pubkey := pk; FollowEntry.relay := None;
                  FollowEntry.petname := petname |}.
Proof. reflexivity. Qed.

(** C1.  If some entry's pubkey fails [isValidPubkey], or
    some entry has a non-empty relay that fails [isValidRelayUrl], then
    [publishFollowList] rejects at once: the signing function is not
    called, nothing is published or queried, and the instance is
    unchanged. *)
Theorem publishFollowList_gate (this : RelayService) (now : Z) (author : string)
    (followList : list FollowEntry.t)
    (signEvent : NostrEvent -> Z * result NostrEvent) :
  (exists entry,
      entry ∈ followList
      /\ (isValidPubkey (FollowEntry.pubkey entry) = false
          \/ exists r, FollowEntry.relay entry = Some r /\ r <> EmptyString
                       /\ isValidRelayUrl r = false)) ->
  (exists msg,
      settled (publishFollowList this now author followList signEvent) = Throw msg)
  /\ calls (publishFollowList this now author followList signEvent) = []
  /\ settled_at (publishFollowList this now author followList signEvent) = now
  /\ state_after (publishFollowList this now author followList signEvent) = this.
Proof.
  intros (entry & Hin & Hbad).
  destruct (mapM_throws follow_tag followList) as [msg Hthrow].
  { exists entry. split; [exact Hin|]. apply follow_tag_invalid. exact Hbad. }
  unfold publishFollowList, encode_follow_list. rewrite Hthrow. cbn.
  split; [eexists; reflexivity|]. repeat split.
Qed.

(** *** Encoding and decoding follow lists *)

Lemma valid_pubkey_truthy (pk : string) :
  isValidPubkey pk = true -> str_truthy pk = true.
Proof.
  unfold isValidPubkey, test_plus. intros H.
  apply andb_true_iff in H as [_ H]. apply andb_true_iff in H as [H _]. exact H.
Qed.

Lemma follow_tag_roundtrip (entry : FollowEntry.t) :
  isValidPubkey (FollowEntry.pubkey entry) = true ->
  (forall r, FollowEntry.relay entry = Some r -> isValidRelayUrl r = true) ->
  positional entry ->
  exists tag, follow_tag entry = Ok tag
              /\ forall tags_, decode_follow_tags (tag :: tags_)
                               = entry :: decode_follow_tags tags_.
Proof.
  intros Hpk Hrelay (Hr & Hp & Horder).
  pose proof (valid_pubkey_truthy _ Hpk) as Htruthy.
  unfold follow_tag. rewrite Hpk.
  destruct entry as [pk [r|] [pn|]]; cbn in *.
  - destruct r; [congruence|]. destruct pn; [congruence|].
    rewrite (Hrelay _ eq_refl); cbn.
    eexists. split; [reflexivity|]. intros tags_. cbn. rewrite Htruthy.
    destruct pk; [discriminate|reflexivity].
  - destruct r; [congruence|].
    rewrite (Hrelay _ eq_refl); cbn.
    eexists. split; [reflexivity|]. intros tags_. cbn. rewrite Htruthy.
    destruct pk; [discriminate|reflexivity].
  - destruct Horder; congruence.
  - eexists. split; [reflexivity|]. intros tags_. cbn. rewrite Htruthy.
    destruct pk; [discriminate|reflexivity].
Qed.

(** Decoding what was encoded gives the entries back, in order, for valid
    entries that the positional encoding can carry. *)
Lemma follow_list_roundtrip (followList : list FollowEntry.t) :
  (forall entry, entry ∈ followList ->
      isValidPubkey (FollowEntry.pubkey entry) = true
      /\ (forall r, FollowEntry.relay entry = Some r -> isValidRelayUrl r = true)
      /\ positional entry) ->
  exists tags_, encode_follow_list followList = Ok tags_
                /\ decode_follow_tags tags_ = followList.
Proof.
  unfold encode_follow_list.
  induction followList as [|entry rest IH]; intros Hall.
  - exists []. split; reflexivity.
  - destruct IH as (tags_ & Henc & Hdec).
    { intros e He. apply Hall. right. exact He. }
    destruct (Hall entry ltac:(left)) as (Hpk & Hrelay & Hpos).
    destruct (follow_tag_roundtrip entry Hpk Hrelay Hpos) as (tag & Htag & Hone).
    exists (tag :: tags_).
    change (mapM follow_tag (entry :: rest))
      with (follow_tag entry ≫= fun y =>
            mapM follow_tag rest ≫= fun k => mret (y :: k)).
    split.
    + rewrite Htag. cbn. rewrite Henc. reflexivity.
    + rewrite Hone, Hdec. reflexivity.
Qed.

(** *** Validators *)

(** X1.  No URL is both a relay URL and an HTTP URL: the two validators
    accept disjoint sets of strings. *)
Theorem relay_and_http_urls_disjoint (url : string) :
  isValidRelayUrl url = true -> isValidHttpUrl url = false.
Proof.
  unfold isValidRelayUrl, isValidHttpUrl.
  destruct (URL_parse url) as [parsed|msg]; [|discriminate].
  intros H. apply andb_true_iff in H as [H _].
  apply bool_decide_eq_true in H. apply bool_decide_eq_false.
  intros Hhttp.
  apply list_elem_of_In in H. apply list_elem_of_In in Hhttp.
  cbn in H, Hhttp.
  destruct H as [H|[H|[]]]; destruct Hhttp as [Hh|[Hh|[]]];
    rewrite <- H in Hh; discriminate.
Qed.

Lemma trim_start_idempotent (l : list ascii) :
  trim_start (trim_start l) = trim_start l.
Proof.
  induction l as [|c l IH]; [reflexivity|].
  cbn. destruct (is_js_space c) eqn:Hc; [exact IH|].
  cbn. rewrite Hc. reflexivity.
Qed.

Lemma trim_start_snoc (l : list ascii) (c : ascii) :
  is_js_space c = false -> trim_start (l ++ [c]) = trim_start l ++ [c].
Proof.
  intros Hc. induction l as [|d l IH]; cbn.
  - rewrite Hc. reflexivity.
  - destruct (is_js_space d); [exact IH|reflexivity].
Qed.

Lemma trim_start_head (l : list ascii) :
  trim_start l = [] \/ exists c rest, trim_start l = c :: rest /\ is_js_space c = false.
Proof.
  induction l as [|c l IH]; [left; reflexivity|].
  cbn. destruct (is_js_space c) eqn:Hc; [exact IH|].
  right. exists c, l. split; [reflexivity|exact Hc].
Qed.

(** The characters [trim] keeps. *)
Lemma trim_chars_fixed (l : list ascii) :
  let kept := rev (trim_start (rev (trim_start l))) in
  rev (trim_start (rev (trim_start kept))) = kept.
Proof.
  cbv zeta.
  destruct (trim_start_head l) as [Hnil|(c & rest & Hl & Hc)].
  - rewrite Hnil. reflexivity.
  - rewrite Hl. cbn [rev].
    rewrite (trim_start_snoc (rev rest) c Hc).
    rewrite rev_app_distr. cbn [rev app].
    cbn [trim_start]. rewrite Hc. cbn [rev].
    rewrite rev_involutive.
    rewrite (trim_start_snoc _ c Hc), trim_start_idempotent.
    rewrite rev_app_distr. reflexivity.
Qed.

Lemma trim_idempotent (s : string) : trim (trim s) = trim s.
Proof.
  unfold trim. rewrite list_ascii_of_string_of_list_ascii. f_equal.
  apply trim_chars_fixed.
Qed.

(** X2.  [isValidRoleTag] looks at its argument only up to surrounding
    white space: a role and its trimmed form are accepted or rejected
    together, and trimming a trimmed role changes nothing. *)
Theorem isValidRoleTag_ignores_surrounding_space (role : string) :
  isValidRoleTag (trim role) = isValidRoleTag role
  /\ trim (trim role) = trim role.
Proof.
  split; [|apply trim_idempotent].
  unfold isValidRoleTag. rewrite trim_idempotent. reflexivity.
Qed.

(** X3.  The role [fetchProfileRoleTag] extracts from a tag list is always
    a valid role in trimmed form, taken from the second element of a
    ['role'] tag of the list. *)
Theorem find_role_valid (tags_ : list (list string)) (role : string) :
  find_role tags_ = Some role ->
  isValidRoleTag role = true
  /\ trim role = role
  /\ exists tag raw,
       tag ∈ tags_ /\ tag !! 0%nat = Some "role" /\ tag !! 1%nat = Some raw
       /\ role = trim raw.
Proof.
  induction tags_ as [|tag rest IH]; [discriminate|].
  cbn [find_role].
  destruct (bool_decide (tag !! 0%nat = Some "role")) eqn:Hname; cbn [andb].
  2:{ intros H. destruct (IH H) as (Hv & Ht & tag' & raw & Hin & Hrest).
      split; [exact Hv|]. split; [exact Ht|].
      exists tag', raw. split; [right; exact Hin|exact Hrest]. }
  apply bool_decide_eq_true in Hname.
  destruct (tag !! 1%nat) as [raw|] eqn:Hraw; cbn [truthy default from_option].
  2:{ intros H. destruct (IH H) as (Hv & Ht & tag' & raw & Hin & Hrest).
      split; [exact Hv|]. split; [exact Ht|].
      exists tag', raw. split; [right; exact Hin|exact Hrest]. }
  destruct (str_truthy raw).
  2:{ intros H. destruct (IH H) as (Hv & Ht & tag' & raw' & Hin & Hrest).
      split; [exact Hv|]. split; [exact Ht|].
      exists tag', raw'. split; [right; exact Hin|exact Hrest]. }
  unfold id. destruct (isValidRoleTag (trim raw)) eqn:Hvalid.
  - intros [= <-]. split; [exact Hvalid|]. split; [apply trim_idempotent|].
    exists tag, raw. split; [left|]. split; [exact Hname|].
    split; [exact Hraw|reflexivity].
  - intros H. destruct (IH H) as (Hv & Ht & tag' & raw' & Hin & Hrest).
    split; [exact Hv|]. split; [exact Ht|].
    exists tag', raw'. split; [right; exact Hin|exact Hrest].
Qed.

(** *** The rate limiter *)

(** X4.  Two calls for one action, the second made no earlier than the
    first.  When the second is made once the first has been admitted (the
    first has written its admission time by then), it is admitted at the
    later of its own call and the first admission plus the minimum
    interval: the two admissions are at least the interval apart, and a
    call that comes late enough is not delayed.  When the second is made
    while the first is still waiting, it reads the same last admission as
    the first did (the first writes only after its wait), and is admitted
    at the very time the first is. *)
Theorem enforceRateLimit_spacing (this : RelayService) (action : string)
    (minIntervalMs now1 now2 : Z) :
  now1 <= now2 ->
  (fst (enforceRateLimit this action minIntervalMs now1) <= now2 ->
   fst (enforceRateLimit
          (snd (enforceRateLimit this action minIntervalMs now1))
          action minIntervalMs now2)
   = Z.max now2 (fst (enforceRateLimit this action minIntervalMs now1)
                 + minIntervalMs))
  /\ (now2 < fst (enforceRateLimit this action minIntervalMs now1) ->
      fst (enforceRateLimit this action minIntervalMs now2)
      = fst (enforceRateLimit this action minIntervalMs now1)).
Proof.
  intros Horder. unfold enforceRateLimit.
  cbn [fst snd lastActionAt with_lastActionAt].
  rewrite lookup_insert_eq. cbn [default from_option]. unfold id.
  set (lastAt := default 0 (lastActionAt this !! action)).
  change (from_option (fun x => x) 0 (lastActionAt this !! action)) with lastAt.
  destruct (0 <? minIntervalMs - (now1 - lastAt)) eqn:Hw1;
    [apply Z.ltb_lt in Hw1|apply Z.ltb_ge in Hw1].
  - split; intros H.
    + destruct (0 <? minIntervalMs - (now2 - (now1 + (minIntervalMs - (now1 - lastAt)))))
        eqn:Hw; [apply Z.ltb_lt in Hw|apply Z.ltb_ge in Hw]; lia.
    + destruct (0 <? minIntervalMs - (now2 - lastAt)) eqn:Hw;
        [apply Z.ltb_lt in Hw|apply Z.ltb_ge in Hw]; lia.
  - split; intros H.
    + destruct (0 <? minIntervalMs - (now2 - now1)) eqn:Hw;
        [apply Z.ltb_lt in Hw|apply Z.ltb_ge in Hw]; lia.
    + lia.
Qed.

Lemma enforceRateLimit_other_action (this : RelayService)
    (action other : string) (m now : Z) :
  other <> action ->
  lastActionAt (snd (enforceRateLimit this action m now)) !! other
  = lastActionAt this !! other.
Proof.
  intros Hne. unfold enforceRateLimit. cbn [snd lastActionAt with_lastActionAt].
  apply lookup_insert_ne. congruence.
Qed.

(** What [publishEvent] does depends on the instance only through the
    store, the relay set and the time of the last publish. *)
Lemma publishEvent_ext (this that : RelayService) (now : Z) (event : NostrEvent)
    (timeoutMs : option Z) :
  eventStore this = eventStore that ->
  relayUrls this = relayUrls that ->
  lastActionAt this !! "publish" = lastActionAt that !! "publish" ->
  settled (publishEvent this now event timeoutMs)
  = settled (publishEvent that now event timeoutMs)
  /\ settled_at (publishEvent this now event timeoutMs)
     = settled_at (publishEvent that now event timeoutMs)
  /\ calls (publishEvent this now event timeoutMs)
     = calls (publishEvent that now event timeoutMs).
Proof.
  intros Hes Hrel Hlast. unfold publishEvent, enforceRateLimit.
  rewrite Hes. destruct (eventStore that) as [es|]; [|repeat split].
  cbn [relayUrls with_lastActionAt]. rewrite Hrel, Hlast.
  destruct (length (relayUrls that) =? 0)%nat; [repeat split|].
  destruct (publish es) as [p|]; [|repeat split].
  destruct (race _ tt (p event)). repeat split.
Qed.

Lemma read_state_after {S R} (this : RelayService) (now : Z) (action : string)
    (filter : Filter) (o : observer Packet S R) (acc : S) (unavailable : R) :
  state_after (read this now action filter o acc unavailable) = this
  \/ state_after (read this now action filter o acc unavailable)
     = snd (enforceRateLimit this action minProfileQueryIntervalMs now).
Proof.
  unfold read. destruct (eventStore this) as [es|]; [|left; reflexivity].
  destruct (enforceRateLimit _ _ _ _) as [started this'].
  destruct (query es) as [q|]; [|right; reflexivity].
  destruct (race o acc (q filter)). right. reflexivity.
Qed.

Lemma publishEvent_after_read {S R} (this : RelayService) (now : Z)
    (action : string) (filter : Filter) (o : observer Packet S R) (acc : S)
    (unavailable : R) (now' : Z) (event : NostrEvent) (timeoutMs : option Z) :
  action <> "publish" ->
  settled (publishEvent
             (state_after (read this now action filter o acc unavailable))
             now' event timeoutMs)
  = settled (publishEvent this now' event timeoutMs)
  /\ settled_at (publishEvent
                   (state_after (read this now action filter o acc unavailable))
                   now' event timeoutMs)
     = settled_at (publishEvent this now' event timeoutMs)
  /\ calls (publishEvent
              (state_after (read this now action filter o acc unavailable))
              now' event timeoutMs)
     = calls (publishEvent this now' event timeoutMs).
Proof.
  intros Hne.
  destruct (read_state_after this now action filter o acc unavailable) as [->| ->].
  - repeat split.
  - apply publishEvent_ext; try reflexivity.
    apply enforceRateLimit_other_action. congruence.
Qed.

(** X5.  The cooldowns are per action: a read, whatever it does, leaves
    every later [publishEvent] exactly as it would have been without the
    read.  Reads never delay a publish. *)
Theorem reads_do_not_delay_publish (this : RelayService) (now : Z) :
  (forall pubkey,
      publishes_alike (state_after (fetchProfile this now pubkey)) this)
  /\ (forall pubkey,
        publishes_alike (state_after (fetchProfileRoleTag this now pubkey)) this)
  /\ (forall pubkey,
        publishes_alike (state_after (fetchFollowList this now pubkey)) this)
  /\ (forall pubkeys,
        publishes_alike (state_after (fetchMultipleProfiles this now pubkeys)) this)
  /\ (forall pubkeys limit,
        publishes_alike (state_after (queryProfiles this now pubkeys limit)) this).
Proof.
  repeat split; intros; try (apply publishEvent_after_read; discriminate).
  all: unfold fetchMultipleProfiles.
  all: destruct (eventStore this) eqn:Hes; [|reflexivity].
  all: destruct (length pubkeys =? 0)%nat; [reflexivity|].
  all: apply publishEvent_after_read; discriminate.
Qed.

(** *** Bounded waits *)




(** *** Which item settles a read *)

(** The first item delivered after [subscribe] has returned whose callback
    settles decides the race. *)
Lemma race_at_first_split {P R} (due : Z) (stream_first : bool)
    (o : observer P unit R) (src : stream P) (pre post : list P) (item : P)
    (r : result R) :
  delivered_at due stream_first src = pre ++ item :: post ->
  (forall p, p ∈ pre -> snd (on_next o tt p) = None) ->
  snd (on_next o tt item) = Some r ->
  snd (race_at due stream_first o tt src) = r.
Proof.
  revert pre. induction src as [|[t n] rest IH]; intros pre Hsplit Hpre Hitem;
    cbn [race_at delivered_at] in *.
  - destruct pre; discriminate.
  - destruct (timer_first due stream_first t); [destruct pre; discriminate|].
    destruct n as [x| |e]; try (destruct pre; discriminate).
    destruct pre as [|p pre]; cbn [app] in Hsplit; injection Hsplit as -> Hrest.
    + destruct (on_next o tt item) as [acc' [r'|]]; cbn [snd] in *;
        [congruence|discriminate].
    + pose proof (Hpre p ltac:(left)) as Hp.
      destruct (on_next o tt p) as [[] [r'|]]; [discriminate|].
      apply (IH pre Hrest); [|exact Hitem].
      intros p' Hin. apply Hpre. right. exact Hin.
Qed.

Lemma race_at_unsettled {P R} (due : Z) (stream_first : bool)
    (o : observer P unit R) (src : stream P) :
  (forall item, item ∈ delivered_at due stream_first src ->
                snd (on_next o tt item) = None) ->
  snd (race_at due stream_first o tt src) =
  match ending_at due stream_first src with
  | Completed _ => default (on_timeout o tt) (on_complete o tt)
  | Failed _ e => default (on_timeout o tt) (on_error o tt e)
  | TimedOut => on_timeout o tt
  end.
Proof.
  induction src as [|[t n] rest IH]; intros Hnone;
    cbn [race_at delivered_at ending_at] in *; [reflexivity|].
  destruct (timer_first due stream_first t); [reflexivity|].
  destruct n as [item| |e].
  - pose proof (Hnone item ltac:(left)) as Hitem.
    destruct (on_next o tt item) as [[] [r|]]; [discriminate|].
    apply IH. intros item' Hin. apply Hnone. right. exact Hin.
  - destruct (on_complete o tt); reflexivity.
  - destruct (on_error o tt e); reflexivity.
Qed.

(** A race that no delivered item settles ends as the stream does. *)
Lemma race_unsettled {P R} (o : observer P unit R) (src : stream P) :
  none_settles o src ->
  snd (race o tt src) =
  match ending_of (fires_at o) src with
  | Completed _ => default (on_timeout o tt) (on_complete o tt)
  | Failed _ e => default (on_timeout o tt) (on_error o tt e)
  | TimedOut => on_timeout o tt
  end.
Proof.
  unfold none_settles.
  induction src as [|[t n] rest IH]; intros Hnone;
    cbn [race delivered ending_of] in *; [reflexivity|].
  destruct (fires_at o <=? t); [reflexivity|].
  destruct n as [item| |e].
  - pose proof (Hnone item ltac:(left)) as Hitem.
    destruct (on_next o tt item) as [[] [r|]]; [discriminate|].
    apply IH. intros item' Hin. apply Hnone. right. exact Hin.
  - destruct (on_complete o tt); reflexivity.
  - destruct (on_error o tt e); reflexivity.
Qed.

(** Either some delivered item settles first, or none does. *)
Lemma delivered_first_settling {P R} (o : observer P unit R) (items : list P) :
  (forall item, item ∈ items -> snd (on_next o tt item) = None)
  \/ exists pre item post r,
       items = pre ++ item :: post
       /\ (forall p, p ∈ pre -> snd (on_next o tt p) = None)
       /\ snd (on_next o tt item) = Some r.
Proof.
  induction items as [|x items IH].
  - left. intros item Hin. inversion Hin.
  - destruct (snd (on_next o tt x)) as [r|] eqn:Hx.
    + right. exists [], x, items, r. split; [reflexivity|].
      split; [|exact Hx]. intros p Hin. inversion Hin.
    + destruct IH as [Hnone|(pre & item & post & r & -> & Hpre & Hitem)].
      * left. intros item Hin. inversion Hin; subst; [exact Hx|apply Hnone; assumption].
      * right. exists (x :: pre), item, post, r. split; [reflexivity|].
        split; [|exact Hitem].
        intros p Hin. inversion Hin; subst; [exact Hx|apply Hpre; assumption].
Qed.

(** What a read does once [query] is called, by what happens inside
    [subscribe]. *)
Lemma read_under_cases {R} (c : conduct) (this : RelayService)
    (es : EventStore) (q : Filter -> stream Packet) (now : Z) (action : string)
    (filter : Filter) (o : observer Packet unit R) (unavailable : R) :
  eventStore this = Some es -> query es = Some q ->
  (forall e, query_throws c filter = Some e ->
     settled (read_under c this now action filter o tt unavailable) = Throw e
     /\ settled_at (read_under c this now action filter o tt unavailable)
        = issued_at this action now)
  /\ (query_throws c filter = None ->
      (inside o (callback_throw c) tt (query_inside c filter) = Ok (tt, false) ->
         settled (read_under c this now action filter o tt unavailable)
         = snd (race_at (fires_at o) (stream_first c) o tt (q filter)))
      /\ (inside o (callback_throw c) tt (query_inside c filter) = Ok (tt, true) ->
          settled (read_under c this now action filter o tt unavailable)
          = on_timeout o tt
          /\ settled_at (read_under c this now action filter o tt unavailable)
             = issued_at this action now + fires_at o)
      /\ (forall e,
            inside o (callback_throw c) tt (query_inside c filter) = Throw e ->
            settled (read_under c this now action filter o tt unavailable)
            = Throw e
            /\ settled_at (read_under c this now action filter o tt unavailable)
               = issued_at this action now)).
Proof.
  intros Hes Hq. rewrite (read_under_subscribed c this es q) by assumption.
  cbn [settled settled_at]. unfold subscribe_with. split.
  - intros e ->. cbn. split; [reflexivity|lia].
  - intros ->. split; [|split].
    + intros ->. reflexivity.
    + intros ->. split; reflexivity.
    + intros e ->. cbn. split; [reflexivity|lia].
Qed.

(** X7.  [fetchProfile] on a store of any conduct.  When [query] or
    [subscribe] throws, it rejects with that exception at once.  When
    [subscribe] returns with the subscription on, it resolves to the
    metadata of the first kind-0 record whose content decodes among the
    records delivered after [subscribe] has returned and before the timer
    runs, 5000 ms later (a record due at that very time counts when the
    store has it run first); records of another kind and records that do
    not decode are passed over, and it resolves to a metadata object only
    if such a record was delivered.  When the subscription is over as
    [subscribe] returns, it resolves to [null] when the timer fires.  A
    record handed over inside [subscribe] never answers the read: its
    callback throws, and the exception either rejects the read, or ends
    the subscription, or is lost. *)
Theorem fetchProfile_first_decodable (c : conduct) (this : RelayService)
    (es : EventStore) (q : Filter -> stream Packet) (now : Z) (pubkey : string) :
  eventStore this = Some es -> query es = Some q ->
  (forall e, query_throws c (fetchProfile_filter pubkey) = Some e ->
             settled (fetchProfile_under c this now pubkey) = Throw e)
  /\ (query_throws c (fetchProfile_filter pubkey) = None ->
      (inside fetchProfile_observer (callback_throw c) tt
         (query_inside c (fetchProfile_filter pubkey)) = Ok (tt, false) ->
       (forall pre event post metadata,
           delivered_at 5000 (stream_first c) (q (fetchProfile_filter pubkey))
           = pre ++ Some event :: post ->
           kind event = 0 ->
           parseProfileMetadata (content event) = Ok (Some metadata) ->
           (forall e m, Some e ∈ pre -> kind e = 0 ->
                        parseProfileMetadata (content e) <> Ok (Some m)) ->
           settled (fetchProfile_under c this now pubkey) = Ok (Some metadata))
       /\ (forall metadata,
             settled (fetchProfile_under c this now pubkey) = Ok (Some metadata) ->
             exists event,
               Some event ∈ delivered_at 5000 (stream_first c)
                              (q (fetchProfile_filter pubkey))
               /\ kind event = 0
               /\ parseProfileMetadata (content event) = Ok (Some metadata)))
      /\ (inside fetchProfile_observer (callback_throw c) tt
            (query_inside c (fetchProfile_filter pubkey)) = Ok (tt, true) ->
          settled (fetchProfile_under c this now pubkey) = Ok None
          /\ settled_at (fetchProfile_under c this now pubkey)
             = issued_at this "fetch-profile" now + 5000)
      /\ (forall e,
            inside fetchProfile_observer (callback_throw c) tt
              (query_inside c (fetchProfile_filter pubkey)) = Throw e ->
            settled (fetchProfile_under c this now pubkey) = Throw e
            /\ settled_at (fetchProfile_under c this now pubkey)
               = issued_at this "fetch-profile" now)).
Proof.
  intros Hes Hq. unfold fetchProfile_under.
  destruct (read_under_cases c this es q now "fetch-profile"
              (fetchProfile_filter pubkey) fetchProfile_observer None Hes Hq)
    as [Hthrown Hreturned].
  split; [intros e He; apply (Hthrown e He)|].
  intros Hnone. destruct (Hreturned Hnone) as (Hon & Hover & Hthrough).
  split; [|split; [exact Hover|exact Hthrough]].
  intros Hinside. rewrite (Hon Hinside).
  change (fires_at fetchProfile_observer) with 5000. split.
  - intros pre event post metadata Hsplit Hkind Hdec Hpre.
    apply (race_at_first_split _ _ fetchProfile_observer _ pre post (Some event)).
    + exact Hsplit.
    + intros [e|] Hin; [|reflexivity]. cbn.
      destruct (kind e =? 0) eqn:Hk; [|reflexivity].
      apply Z.eqb_eq in Hk. specialize (Hpre e).
      destruct (parseProfileMetadata (content e)) as [[m|]|msg]; try reflexivity.
      exfalso. apply (Hpre m Hin Hk). reflexivity.
    + cbn. rewrite Hkind, Hdec. reflexivity.
  - intros metadata Hsettled.
    destruct (delivered_first_settling fetchProfile_observer
                (delivered_at 5000 (stream_first c)
                   (q (fetchProfile_filter pubkey))))
      as [Hnone'|(pre & item & post & r & Hsplit & Hpre & Hitem)].
    + rewrite (race_at_fallback _ _ fetchProfile_observer None) in Hsettled;
        [discriminate| |exact Hnone'].
      apply single_read_exits; reflexivity.
    + rewrite (race_at_first_split _ _ fetchProfile_observer _ pre post item r)
        in Hsettled by assumption.
      subst r. destruct item as [event|]; [|discriminate].
      exists event. split; [rewrite Hsplit; apply elem_of_app; right; left|].
      cbn in Hitem. destruct (kind event =? 0) eqn:Hk; [|discriminate].
      apply Z.eqb_eq in Hk. split; [exact Hk|].
      destruct (parseProfileMetadata (content event)) as [[m|]|msg];
        try discriminate.
      cbn in Hitem. congruence.
Qed.

(** X8.  [fetchProfileRoleTag] on a store of any conduct whose [query]
    and [subscribe] return with the subscription on: it answers from the
    first kind-0 record delivered after [subscribe] has returned and
    before the timer runs, and from that record alone: it resolves to the
    role found in that record's tags, or to [null] when that record
    carries no valid role.  Later records are never consulted. *)
Theorem fetchProfileRoleTag_first_record (c : conduct) (this : RelayService)
    (es : EventStore) (q : Filter -> stream Packet) (now : Z) (pubkey : string)
    (pre post : list Packet) (event : NostrEvent) :
  eventStore this = Some es -> query es = Some q ->
  query_throws c (fetchProfileRoleTag_filter pubkey) = None ->
  inside fetchProfileRoleTag_observer (callback_throw c) tt
    (query_inside c (fetchProfileRoleTag_filter pubkey)) = Ok (tt, false) ->
  delivered_at 5000 (stream_first c) (q (fetchProfileRoleTag_filter pubkey))
  = pre ++ Some event :: post ->
  kind event = 0 ->
  (forall e, Some e ∈ pre -> kind e <> 0) ->
  settled (fetchProfileRoleTag_under c this now pubkey)
  = Ok (find_role (tags event)).
Proof.
  intros Hes Hq Hthrows Hinside Hsplit Hkind Hpre.
  unfold fetchProfileRoleTag_under.
  destruct (read_under_cases c this es q now "fetch-role-tag"
              (fetchProfileRoleTag_filter pubkey) fetchProfileRoleTag_observer
              None Hes Hq) as [_ Hreturned].
  destruct (Hreturned Hthrows) as (Hon & _ & _). rewrite (Hon Hinside).
  change (fires_at fetchProfileRoleTag_observer) with 5000.
  apply (race_at_first_split _ _ fetchProfileRoleTag_observer _ pre post
           (Some event)).
  - exact Hsplit.
  - intros [e|] Hin; [|reflexivity]. cbn.
    destruct (kind e =? 0) eqn:Hk; [|reflexivity].
    apply Z.eqb_eq in Hk. exfalso. apply (Hpre e Hin Hk).
  - cbn. rewrite Hkind. reflexivity.
Qed.

(** X9.  [fetchFollowList] on a store of any conduct whose [query] and
    [subscribe] return with the subscription on: it answers from the first
    kind-3 record delivered after [subscribe] has returned and before the
    timer runs, and from that record alone: it resolves to the entries
    decoded from that record's tags, in tag order. *)
Theorem fetchFollowList_first_record (c : conduct) (this : RelayService)
    (es : EventStore) (q : Filter -> stream Packet) (now : Z) (pubkey : string)
    (pre post : list Packet) (event : NostrEvent) :
  eventStore this = Some es -> query es = Some q ->
  query_throws c (fetchFollowList_filter pubkey) = None ->
  inside fetchFollowList_observer (callback_throw c) tt
    (query_inside c (fetchFollowList_filter pubkey)) = Ok (tt, false) ->
  delivered_at 10000 (stream_first c) (q (fetchFollowList_filter pubkey))
  = pre ++ Some event :: post ->
  kind event = 3 ->
  (forall e, Some e ∈ pre -> kind e <> 3) ->
  settled (fetchFollowList_under c this now pubkey)
  = Ok (decode_follow_tags (tags event)).
Proof.
  intros Hes Hq Hthrows Hinside Hsplit Hkind Hpre.
  unfold fetchFollowList_under.
  destruct (read_under_cases c this es q now "fetch-follow-list"
              (fetchFollowList_filter pubkey) fetchFollowList_observer
              [] Hes Hq) as [_ Hreturned].
  destruct (Hreturned Hthrows) as (Hon & _ & _). rewrite (Hon Hinside).
  change (fires_at fetchFollowList_observer) with 10000.
  apply (race_at_first_split _ _ fetchFollowList_observer _ pre post
           (Some event)).
  - exact Hsplit.
  - intros [e|] Hin; [|reflexivity]. cbn.
    destruct (kind e =? 3) eqn:Hk; [|reflexivity].
    apply Z.eqb_eq in Hk. exfalso. apply (Hpre e Hin Hk).
  - cbn. rewrite Hkind. reflexivity.
Qed.

(** *** What [publishEvent] resolves to *)

Lemma publishEvent_subscribed (this : RelayService) (es : EventStore)
    (p : NostrEvent -> stream Response) (now : Z) (event : NostrEvent)
    (timeoutMs : option Z) :
  eventStore this = Some es -> relayUrls this <> [] -> publish es = Some p ->
  settled (publishEvent this now event timeoutMs)
  = snd (race (publishEvent_observer (default 1000 timeoutMs)) tt (p event))
  /\ calls (publishEvent this now event timeoutMs) = [CallPublish event].
Proof.
  intros Hes Hrel Hp. unfold publishEvent, enforceRateLimit. rewrite Hes.
  cbn [relayUrls with_lastActionAt].
  destruct (relayUrls this) as [|u urls]; [contradiction|].
  cbn [length Nat.eqb]. rewrite Hp.
  destruct (race _ tt (p event)) as [dt r]. split; reflexivity.
Qed.

Lemma publishEvent_under_subscribed (c : conduct) (this : RelayService)
    (es : EventStore) (p : NostrEvent -> stream Response) (now : Z)
    (event : NostrEvent) (timeoutMs : option Z) :
  eventStore this = Some es -> relayUrls this <> [] -> publish es = Some p ->
  settled (publishEvent_under c this now event timeoutMs)
  = snd (subscribe_with (publish_throws c event) (publish_inside c event)
           (callback_throw c) (stream_first c)
           (setTimeout_delay (default 1000 timeoutMs))
           (publishEvent_observer (default 1000 timeoutMs)) tt (p event))
  /\ calls (publishEvent_under c this now event timeoutMs) = [CallPublish event].
Proof.
  intros Hes Hrel Hp. unfold publishEvent_under, enforceRateLimit. rewrite Hes.
  cbn [relayUrls with_lastActionAt].
  destruct (relayUrls this) as [|u urls]; [contradiction|].
  cbn [length Nat.eqb]. rewrite Hp.
  destruct (subscribe_with _ _ _ _ _ _ tt (p event)) as [dt r].
  split; reflexivity.
Qed.

(** On a store that only delivers after [subscribe] has returned, and on a
    delay that [setTimeout] takes as it is, [publishEvent] is as
    above. *)
Lemma publishEvent_under_orderly (this : RelayService) (now : Z)
    (event : NostrEvent) (timeoutMs : option Z) :
  setTimeout_delay (default 1000 timeoutMs) = Z.max 0 (default 1000 timeoutMs) ->
  publishEvent_under orderly this now event timeoutMs
  = publishEvent this now event timeoutMs.
Proof.
  intros Hdelay. unfold publishEvent_under, publishEvent.
  destruct (eventStore this) as [es|]; [|reflexivity].
  destruct (enforceRateLimit _ _ _ _) as [started this'].
  destruct (length (relayUrls this') =? 0)%nat; [reflexivity|].
  destruct (publish es) as [p|]; [|reflexivity].
  cbn [orderly publish_throws publish_inside callback_throw stream_first
       subscribe_with inside].
  rewrite Hdelay.
  change (Z.max 0 (default 1000 timeoutMs))
    with (fires_at (publishEvent_observer (default 1000 timeoutMs))).
  rewrite race_at_race. reflexivity.
Qed.

(** X10.  [publishEvent] with a store attached, a relay configured and a
    [publish] method, on a store of any conduct.  It calls [publish]
    exactly once.  When [publish] or [subscribe] throws, it rejects with
    that exception.  When [subscribe] returns with the subscription on,
    it resolves [true] exactly when an ['OK'] response is delivered after
    [subscribe] has returned, before the stream fails or ends, and before
    the timer runs, which it does after the delay [setTimeout] makes of
    [timeoutMs] (a response due at that very time counts when the store
    has it run first); otherwise it rejects with the stream's error if the
    stream failed before the timer ran, and resolves [false] when the
    timer fires in every other case, also when the stream completed
    without an ['OK'].  When the subscription is over as [subscribe]
    returns, it resolves [false] when the timer fires.  An ['OK'] handed
    over inside [subscribe] never resolves the publish. *)
Theorem publishEvent_outcome (c : conduct) (this : RelayService)
    (es : EventStore) (p : NostrEvent -> stream Response) (now : Z)
    (event : NostrEvent) (timeoutMs : option Z) :
  eventStore this = Some es -> relayUrls this <> [] -> publish es = Some p ->
  calls (publishEvent_under c this now event timeoutMs) = [CallPublish event]
  /\ (forall e, publish_throws c event = Some e ->
                settled (publishEvent_under c this now event timeoutMs) = Throw e)
  /\ (publish_throws c event = None ->
      (inside (publishEvent_observer (default 1000 timeoutMs)) (callback_throw c)
         tt (publish_inside c event) = Ok (tt, false) ->
       (Some "OK" ∈ delivered_at (setTimeout_delay (default 1000 timeoutMs))
                      (stream_first c) (p event) ->
        settled (publishEvent_under c this now event timeoutMs) = Ok true)
       /\ (Some "OK" ∉ delivered_at (setTimeout_delay (default 1000 timeoutMs))
                         (stream_first c) (p event) ->
           settled (publishEvent_under c this now event timeoutMs)
           = match ending_at (setTimeout_delay (default 1000 timeoutMs))
                     (stream_first c) (p event) with
             | Failed _ e => Throw e
             | _ => Ok false
             end))
      /\ (inside (publishEvent_observer (default 1000 timeoutMs))
            (callback_throw c) tt (publish_inside c event) = Ok (tt, true) ->
          settled (publishEvent_under c this now event timeoutMs) = Ok false)
      /\ (forall e,
            inside (publishEvent_observer (default 1000 timeoutMs))
              (callback_throw c) tt (publish_inside c event) = Throw e ->
            settled (publishEvent_under c this now event timeoutMs) = Throw e)).
Proof.
  intros Hes Hrel Hp.
  destruct (publishEvent_under_subscribed c this es p now event timeoutMs
              Hes Hrel Hp) as [Hsettled Hcalls].
  split; [exact Hcalls|]. rewrite Hsettled. unfold subscribe_with.
  set (o := publishEvent_observer (default 1000 timeoutMs)).
  set (due := setTimeout_delay (default 1000 timeoutMs)).
  split; [intros e ->; reflexivity|].
  intros ->. split; [|split; [intros ->; reflexivity|intros e ->; reflexivity]].
  intros ->.
  assert (Hok : snd (on_next o tt (Some "OK")) = Some (Ok true)) by reflexivity.
  assert (Hother : forall response : Response,
             response <> Some "OK" -> snd (on_next o tt response) = None).
  { intros response Hne. cbn.
    rewrite bool_decide_eq_false_2 by exact Hne. reflexivity. }
  split.
  - intros Hin. apply list_elem_of_split_l in Hin as (pre & post & Hsplit & Hpre).
    apply (race_at_first_split _ _ o _ pre post (Some "OK")).
    + exact Hsplit.
    + intros response Hr. apply Hother. intros ->. contradiction.
    + exact Hok.
  - intros Hnot. rewrite race_at_unsettled.
    + destruct (ending_at due (stream_first c) (p event)); reflexivity.
    + intros response Hr. apply Hother. intros ->. contradiction.
Qed.

(** *** Follow lists: decoding and encoding *)

Lemma decode_follow_tags_app (a b : list (list string)) :
  decode_follow_tags (a ++ b) = decode_follow_tags a ++ decode_follow_tags b.
Proof.
  induction a as [|tag a IH]; [reflexivity|].
  cbn [app decode_follow_tags].
  destruct (bool_decide (tag !! 0%nat = Some "p") && truthy (tag !! 1%nat));
    [cbn [app]; f_equal|]; exact IH.
Qed.

Lemma or_undefined_not_empty (o : option string) :
  or_undefined o <> Some EmptyString.
Proof.
  unfold or_undefined. destruct o as [[|c s]|]; cbn; discriminate.
Qed.

(** X11.  The follow-list decoder works tag by tag: decoding a
    concatenation gives the concatenation of the decodings, so order is
    kept and duplicates are not merged, and never more entries than tags
    come out.  Each decoded entry comes from a ['p'] tag, its pubkey is
    that tag's second element and is not empty, and its relay and petname
    are absent rather than empty. *)
Theorem decode_follow_tags_tagwise :
  (forall a b,
      decode_follow_tags (a ++ b) = decode_follow_tags a ++ decode_follow_tags b)
  /\ (forall tags_, (length (decode_follow_tags tags_) <= length tags_)%nat)
  /\ (forall tags_ entry,
        entry ∈ decode_follow_tags tags_ ->
        FollowEntry.pubkey entry <> EmptyString
        /\ FollowEntry.relay entry <> Some EmptyString
        /\ FollowEntry.petname entry <> Some EmptyString
        /\ exists tag, tag ∈ tags_ /\ tag !! 0%nat = Some "p"
                       /\ tag !! 1%nat = Some (FollowEntry.pubkey entry)).
Proof.
  split; [exact decode_follow_tags_app|]. split.
  - induction tags_ as [|tag rest IH]; [reflexivity|].
    cbn [decode_follow_tags].
    destruct (bool_decide (tag !! 0%nat = Some "p") && truthy (tag !! 1%nat));
      cbn [length]; lia.
  - induction tags_ as [|tag rest IH]; intros entry Hin; [inversion Hin|].
    cbn [decode_follow_tags] in Hin.
    destruct (bool_decide (tag !! 0%nat = Some "p")) eqn:Hp; cbn [andb] in Hin.
    2:{ destruct (IH entry Hin) as (H1 & H2 & H3 & tag' & Hin' & Hrest).
        repeat split; try assumption. exists tag'. split; [right|]; assumption. }
    destruct (tag !! 1%nat) as [pk|] eqn:Hpk; cbn [truthy] in Hin.
    2:{ destruct (IH entry Hin) as (H1 & H2 & H3 & tag' & Hin' & Hrest).
        repeat split; try assumption. exists tag'. split; [right|]; assumption. }
    destruct (str_truthy pk) eqn:Hpkt.
    2:{ destruct (IH entry Hin) as (H1 & H2 & H3 & tag' & Hin' & Hrest).
        repeat split; try assumption. exists tag'. split; [right|]; assumption. }
    inversion Hin as [? ? Heq|? ? ? Hin' Heq]; subst.
    + cbn. split; [intros ->; discriminate|].
      split; [apply or_undefined_not_empty|].
      split; [apply or_undefined_not_empty|].
      exists tag. split; [left|]. apply bool_decide_eq_true in Hp.
      split; [exact Hp|exact Hpk].
    + destruct (IH entry Hin') as (H1 & H2 & H3 & tag' & Hin'' & Hrest).
      repeat split; try assumption. exists tag'. split; [right|]; assumption.
Qed.

Lemma mapM_cons_ok {A B} (f : A -> result B) (x : A) (l : list A) (ys : list B) :
  mapM f (x :: l) = Ok ys ->
  exists y ys', f x = Ok y /\ mapM f l = Ok ys' /\ ys = y :: ys'.
Proof.
  change (mapM f (x :: l))
    with (f x ≫= fun y => mapM f l ≫= fun k => mret (y :: k)).
  destruct (f x) as [y|msg]; [|discriminate]. cbn.
  destruct (mapM f l) as [ys'|msg]; [|discriminate]. cbn.
  intros [= <-]. exists y, ys'. repeat split.
Qed.

Lemma follow_tag_keeps_pubkey (entry : FollowEntry.t) (tag : list string) :
  follow_tag entry = Ok tag ->
  isValidPubkey (FollowEntry.pubkey entry) = true
  /\ tag !! 0%nat = Some "p"
  /\ tag !! 1%nat = Some (FollowEntry.pubkey entry).
Proof.
  unfold follow_tag.
  destruct (isValidPubkey (FollowEntry.pubkey entry)); [|discriminate]. cbn [negb].
  destruct (truthy (FollowEntry.relay entry)
            && negb (isValidRelayUrl (default EmptyString (FollowEntry.relay entry))));
    [discriminate|].
  destruct (truthy (FollowEntry.relay entry)), (truthy (FollowEntry.petname entry));
    intros [= <-]; repeat split.
Qed.

Lemma encode_keeps_pubkeys (followList : list FollowEntry.t)
    (tags_ : list (list string)) :
  encode_follow_list followList = Ok tags_ ->
  length tags_ = length followList
  /\ FollowEntry.pubkey <$> decode_follow_tags tags_
     = FollowEntry.pubkey <$> followList
  /\ forall entry, entry ∈ followList ->
                   isValidPubkey (FollowEntry.pubkey entry) = true.
Proof.
  unfold encode_follow_list. revert tags_.
  induction followList as [|entry rest IH]; intros tags_ Henc.
  - injection Henc as <-. repeat split. intros entry Hin. inversion Hin.
  - apply mapM_cons_ok in Henc as (tag & tags' & Htag & Hrest & ->).
    destruct (IH tags' Hrest) as (Hlen & Hpks & Hvalid).
    destruct (follow_tag_keeps_pubkey entry tag Htag) as (Hpk & H0 & H1).
    split; [cbn [length]; congruence|]. split.
    + cbn [decode_follow_tags]. rewrite H0, H1.
      rewrite bool_decide_eq_true_2 by reflexivity. cbn [andb truthy].
      rewrite (valid_pubkey_truthy _ Hpk). cbn. f_equal. exact Hpks.
    + intros e Hin. inversion Hin; subst; [exact Hpk|apply Hvalid; assumption].
Qed.

(** X12.  Every event [publishFollowList] hands to the signing function is
    a kind-3 event with empty content, stamped with the current time in
    seconds, whose tags decode to entries with exactly the pubkeys of the
    follow list, in order, one tag per entry; and every pubkey of the list
    is then well-formed. *)
Theorem publishFollowList_signs_the_list (this : RelayService) (now : Z)
    (author : string) (followList : list FollowEntry.t)
    (signEvent : NostrEvent -> Z * result NostrEvent) (event : NostrEvent) :
  CallSign event ∈ calls (publishFollowList this now author followList signEvent) ->
  kind event = 3
  /\ content event = EmptyString
  /\ created_at event = now / 1000
  /\ length (tags event) = length followList
  /\ FollowEntry.pubkey <$> decode_follow_tags (tags event)
     = FollowEntry.pubkey <$> followList
  /\ forall entry, entry ∈ followList ->
                   isValidPubkey (FollowEntry.pubkey entry) = true.
Proof.
  unfold publishFollowList.
  destruct (encode_follow_list followList) as [tags_|msg] eqn:Henc.
  2:{ cbn. intros Hin. inversion Hin. }
  destruct (encode_keeps_pubkeys followList tags_ Henc) as (Hlen & Hpks & Hvalid).
  set (ev := {| kind := 3; content := EmptyString; created_at := now / 1000;
                tags := tags_; pubkey := None |}).
  assert (Hev : forall rest, CallSign event ∈ CallSign ev :: rest ->
                             (forall c, c ∈ rest -> exists e, c = CallPublish e) ->
                             event = ev).
  { intros rest Hin Hrest. inversion Hin; subst; [reflexivity|].
    match goal with H : CallSign event ∈ rest |- _ =>
      destruct (Hrest _ H) as [e He]; discriminate end. }
  assert (Hpub : forall this' now' signed c,
             c ∈ calls (publishEvent this' now' signed None) ->
             exists e, c = CallPublish e).
  { intros this' now' signed c. unfold publishEvent.
    destruct (eventStore this') as [es|]; [|intros Hc; inversion Hc].
    destruct (enforceRateLimit _ _ _ _) as [started this''].
    destruct (length (relayUrls this'') =? 0)%nat; [intros Hc; inversion Hc|].
    destruct (publish es) as [p|]; [|intros Hc; inversion Hc].
    destruct (race _ tt (p signed)). cbn [calls]. intros Hc.
    apply list_elem_of_singleton in Hc. eauto. }
  destruct (signEvent ev) as [dt [signed|msg]]; cbn [calls]; intros Hin.
  - assert (event = ev) as -> by (apply (Hev _ Hin); apply Hpub).
    repeat split; assumption.
  - assert (event = ev) as ->.
    { apply (Hev [] Hin). intros c Hc. inversion Hc. }
    repeat split; assumption.
Qed.

(** X13.  [publishFollowList] publishes nothing but what the signing
    function returned for the event it built, and at most one event; when
    the signing function rejects, the rejection is passed on and nothing is
    published. *)
Theorem publishFollowList_publishes_signed_only (this : RelayService) (now : Z)
    (author : string) (followList : list FollowEntry.t)
    (signEvent : NostrEvent -> Z * result NostrEvent) :
  (forall signed,
      CallPublish signed
      ∈ calls (publishFollowList this now author followList signEvent) ->
      exists event dt,
        signEvent event = (dt, Ok signed)
        /\ calls (publishFollowList this now author followList signEvent)
           = [CallSign event; CallPublish signed])
  /\ (forall tags_ dt msg,
        encode_follow_list followList = Ok tags_ ->
        signEvent {| kind := 3; content := EmptyString; created_at := now / 1000;
                     tags := tags_; pubkey := None |} = (dt, Throw msg) ->
        settled (publishFollowList this now author followList signEvent) = Throw msg
        /\ forall signed,
             CallPublish signed
             ∉ calls (publishFollowList this now author followList signEvent)).
Proof.
  unfold publishFollowList. split.
  - intros signed.
    destruct (encode_follow_list followList) as [tags_|msg].
    2:{ cbn. intros Hin. inversion Hin. }
    set (ev := {| kind := 3; content := EmptyString; created_at := now / 1000;
                  tags := tags_; pubkey := None |}).
    destruct (signEvent ev) as [dt [signed'|msg]] eqn:Hsign; cbn [calls].
    2:{ intros Hin. apply list_elem_of_singleton in Hin. discriminate. }
    intros Hin. inversion Hin as [|? ? ? Hin']; subst.
    exists ev, dt. revert Hin'. unfold publishEvent.
    destruct (eventStore this) as [es|]; [|intros Hc; inversion Hc].
    destruct (enforceRateLimit _ _ _ _) as [started this''].
    destruct (length (relayUrls this'') =? 0)%nat; [intros Hc; inversion Hc|].
    destruct (publish es) as [p|]; [|intros Hc; inversion Hc].
    destruct (race _ tt (p signed')). cbn [calls]. intros Hc.
    apply list_elem_of_singleton in Hc. injection Hc as ->.
    split; [exact Hsign|reflexivity].
  - intros tags_ dt msg Henc Hsign. rewrite Henc, Hsign. cbn.
    split; [reflexivity|].
    intros signed Hin. apply list_elem_of_singleton in Hin. discriminate.
Qed.

(** *** [fetchMultipleProfiles]: the last record wins *)

Lemma fetchMultipleProfiles_next_cases (profiles : gmap string ProfileMetadata)
    (packet : Packet) :
  (exists e a m,
      packet = Some e /\ eligible a e m
      /\ fetchMultipleProfiles_next profiles packet = <[a := m]> profiles)
  \/ ((forall e a m, packet = Some e -> ~ eligible a e m)
      /\ fetchMultipleProfiles_next profiles packet = profiles).
Proof.
  destruct packet as [e|]; cbn [fetchMultipleProfiles_next].
  2:{ right. split; [intros e a m [=]|reflexivity]. }
  destruct (kind e =? 0) eqn:Hk; cbn [andb].
  2:{ right. split; [|reflexivity].
      intros e' a m [= <-] (Hk' & _). apply Z.eqb_neq in Hk. contradiction. }
  destruct (pubkey e) as [a|] eqn:Hp; cbn [truthy].
  2:{ right. split; [|reflexivity].
      intros e' a m [= <-] (_ & Hp' & _). congruence. }
  destruct (str_truthy a) eqn:Ha.
  2:{ right. split; [|reflexivity].
      intros e' a' m [= <-] (_ & Hp' & Hne & _).
      assert (a' = a) by congruence. subst a'.
      destruct a; [contradiction|discriminate]. }
  destruct (parseProfileMetadata (content e)) as [[m|]|msg] eqn:Hm.
  - left. exists e, a, m. split; [reflexivity|]. split; [|reflexivity].
    repeat split; try assumption.
    + apply Z.eqb_eq. exact Hk.
    + intros ->. discriminate.
  - right. split; [|reflexivity].
    intros e' a' m [= <-] (_ & _ & _ & Hm'). congruence.
  - right. split; [|reflexivity].
    intros e' a' m [= <-] (_ & _ & _ & Hm'). congruence.
Qed.

Lemma last_index_next (profiles : gmap string ProfileMetadata)
    (seen : list Packet) (packet : Packet) :
  last_index profiles seen ->
  last_index (fetchMultipleProfiles_next profiles packet) (seen ++ [packet]).
Proof.
  intros Hinv a. specialize (Hinv a) as Ha.
  assert (Hmem : forall e', Some e' ∈ seen ++ [packet] ->
                            Some e' ∈ seen \/ packet = Some e').
  { intros e' Hin. apply elem_of_app in Hin as [Hin|Hin]; [left; exact Hin|].
    right. apply list_elem_of_singleton in Hin. congruence. }
  assert (Hpost : forall post e', Some e' ∈ post ++ [packet] ->
                                  Some e' ∈ post \/ packet = Some e').
  { intros post e' Hin. apply elem_of_app in Hin as [Hin|Hin]; [left; exact Hin|].
    right. apply list_elem_of_singleton in Hin. congruence. }
  destruct (fetchMultipleProfiles_next_cases profiles packet)
    as [(e0 & a0 & m0 & Hp & Hel & Hnext)|(Hnone & Hnext)]; rewrite Hnext.
  - destruct (decide (a0 = a)) as [->|Hne].
    + rewrite lookup_insert_eq. exists seen, e0, []. subst packet.
      split; [reflexivity|]. split; [exact Hel|].
      intros e' m' Hin. inversion Hin.
    + rewrite lookup_insert_ne by exact Hne.
      destruct (profiles !! a) as [m|].
      * destruct Ha as (pre & e & post & -> & Hele & Hlast).
        exists pre, e, (post ++ [packet]).
        split; [rewrite <- app_assoc; reflexivity|]. split; [exact Hele|].
        intros e' m' Hin Hel'. destruct (Hpost post e' Hin) as [Hs|Hs].
        -- apply (Hlast e' m' Hs Hel').
        -- assert (e' = e0) by congruence. subst e'.
           destruct (eligible_functional _ _ _ _ _ Hel Hel'). contradiction.
      * intros e' m' Hin Hel'. destruct (Hmem e' Hin) as [Hs|Hs].
        -- apply (Ha e' m' Hs Hel').
        -- assert (e' = e0) by congruence. subst e'.
           destruct (eligible_functional _ _ _ _ _ Hel Hel'). contradiction.
  - destruct (profiles !! a) as [m|].
    + destruct Ha as (pre & e & post & -> & Hele & Hlast).
      exists pre, e, (post ++ [packet]).
      split; [rewrite <- app_assoc; reflexivity|]. split; [exact Hele|].
      intros e' m' Hin Hel'. destruct (Hpost post e' Hin) as [Hs|Hs].
      * apply (Hlast e' m' Hs Hel').
      * apply (Hnone e' a m' Hs Hel').
    + intros e' m' Hin Hel'. destruct (Hmem e' Hin) as [Hs|Hs].
      * apply (Ha e' m' Hs Hel').
      * apply (Hnone e' a m' Hs Hel').
Qed.

Lemma last_index_fold (packets seen : list Packet)
    (profiles : gmap string ProfileMetadata) :
  last_index profiles seen ->
  last_index (fold_left fetchMultipleProfiles_next packets profiles)
             (seen ++ packets).
Proof.
  revert seen profiles.
  induction packets as [|packet packets IH]; intros seen profiles Hinv.
  - rewrite app_nil_r. exact Hinv.
  - cbn [fold_left].
    replace (seen ++ packet :: packets) with ((seen ++ [packet]) ++ packets)
      by (rewrite <- app_assoc; reflexivity).
    apply IH. apply last_index_next. exact Hinv.
Qed.

(** X14.  [fetchMultipleProfiles] keeps, for each author, the metadata of
    the last delivered kind-0 record of that author that decodes, whatever
    the records' [created_at]; an author without such a record is not in
    the map.  The authors of the map are those of the delivered records,
    whether or not they were asked for. *)
Theorem fetchMultipleProfiles_last_record_wins (this : RelayService) (es : EventStore)
    (q : Filter -> stream Packet) (now : Z) (pubkeys : list string) :
  eventStore this = Some es -> query es = Some q -> pubkeys <> [] ->
  exists result,
    settled (fetchMultipleProfiles this now pubkeys) = Ok result
    /\ forall author,
         match result !! author with
         | Some metadata =>
             exists pre event post,
               delivered 1000 (q (fetchMultipleProfiles_filter pubkeys))
               = pre ++ Some event :: post
               /\ eligible author event metadata
               /\ forall event' metadata',
                    Some event' ∈ post -> ~ eligible author event' metadata'
         | None =>
             forall event metadata,
               Some event ∈ delivered 1000 (q (fetchMultipleProfiles_filter pubkeys)) ->
               ~ eligible author event metadata
         end.
Proof.
  intros Hes Hq Hne.
  rewrite (fetchMultipleProfiles_nonempty this es) by assumption.
  rewrite (read_subscribed _ es q) by assumption. cbn [settled].
  rewrite (race_accumulating fetchMultipleProfiles_observer (fun a => a))
    by reflexivity.
  cbn [snd]. eexists. split; [reflexivity|].
  intros author.
  change (fires_at fetchMultipleProfiles_observer) with 1000.
  change (fun a item => fst (on_next fetchMultipleProfiles_observer a item))
    with fetchMultipleProfiles_next.
  apply (last_index_fold _ [] ∅).
  intros a. rewrite lookup_empty. intros e m Hin. inversion Hin.
Qed.

(** *** What the store is told about relays *)

Lemma read_eventStore {S R} (this : RelayService) (now : Z) (action : string)
    (filter : Filter) (o : observer Packet S R) (acc : S) (unavailable : R) :
  eventStore (state_after (read this now action filter o acc unavailable))
  = eventStore this.
Proof.
  unfold read, enforceRateLimit.
  destruct (eventStore this) as [es|] eqn:Hes; [|exact Hes].
  destruct (query es) as [q|]; [|exact Hes].
  destruct (race o acc (q filter)). exact Hes.
Qed.

Lemma fetchMultipleProfiles_eventStore (this : RelayService) (now : Z)
    (pubkeys : list string) :
  eventStore (state_after (fetchMultipleProfiles this now pubkeys))
  = eventStore this.
Proof.
  unfold fetchMultipleProfiles.
  destruct (eventStore this) eqn:Hes; [|exact Hes].
  destruct (length pubkeys =? 0)%nat; [exact Hes|].
  rewrite read_eventStore. exact Hes.
Qed.

Lemma publishEvent_eventStore (this : RelayService) (now : Z) (event : NostrEvent)
    (timeoutMs : option Z) :
  eventStore (state_after (publishEvent this now event timeoutMs))
  = eventStore this.
Proof.
  unfold publishEvent, enforceRateLimit.
  destruct (eventStore this) as [es|] eqn:Hes; [|exact Hes].
  cbn [relayUrls with_lastActionAt].
  destruct (length (relayUrls this) =? 0)%nat; [exact Hes|].
  destruct (publish es) as [p|]; [|exact Hes].
  destruct (race _ tt (p event)). exact Hes.
Qed.

Lemma publishFollowList_eventStore (this : RelayService) (now : Z)
    (author : string) (followList : list FollowEntry.t)
    (signEvent : NostrEvent -> Z * result NostrEvent) :
  eventStore (state_after (publishFollowList this now author followList signEvent))
  = eventStore this.
Proof.
  unfold publishFollowList.
  destruct (encode_follow_list followList) as [tags_|msg]; [|reflexivity].
  destruct (signEvent _) as [dt [signed|msg]]; [|reflexivity].
  cbn [state_after]. apply publishEvent_eventStore.
Qed.

(** The store of an instance changes with [initialize] only. *)
Lemma step_eventStore (this : RelayService) (op : operation) :
  eventStore (step this op) = eventStore this
  \/ exists es, op = Initialize es /\ eventStore (step this op) = Some es.
Proof.
  destruct op; cbn [step].
  - right. exists es. split; [reflexivity|].
    destruct (initialize_state this es) as [-> _].
    destruct (forward_relays_state (with_eventStore this es)) as [-> _].
    reflexivity.
  - left. unfold setRelays.
    destruct (validateRelayUrls urls) as [valid|msg]; [|reflexivity].
    pose proof (forward_relays_state (with_relayUrls this valid)) as [Hes _].
    destruct (forward_relays (with_relayUrls this valid)) as [this' made_].
    exact Hes.
  - left. reflexivity.
  - left. apply publishEvent_eventStore.
  - left. apply read_eventStore.
  - left. apply read_eventStore.
  - left. apply read_eventStore.
  - left. apply fetchMultipleProfiles_eventStore.
  - left. apply read_eventStore.
  - left. apply publishFollowList_eventStore.
Qed.

(** As long as every store the instance was given keeps the list, the relay
    set holds valid relay URLs only. *)
Lemma reachable_tidy_invariant (this : RelayService) :
  reachable_tidy this ->
  (forall url, url ∈ relayUrls this -> isValidRelayUrl url = true)
  /\ (forall es, eventStore this = Some es -> keeps_list es).
Proof.
  induction 1 as [config this Hnew|this op Hreach [IHv IHk] Htidy].
  - unfold constructor in Hnew.
    destruct (validateRelayUrls _) as [valid|msg] eqn:Hv; [|discriminate].
    cbn in Hnew. injection Hnew as <-. cbn [relayUrls eventStore]. split.
    + apply validateRelayUrls_valid in Hv. apply Hv.
    + intros es [=].
  - split.
    + destruct (step_relayUrls this op IHk Htidy) as [Heq|(urls & _ & Hv)].
      * rewrite Heq. exact IHv.
      * apply validateRelayUrls_valid in Hv. apply Hv.
    + destruct (step_eventStore this op) as [Heq|(es & -> & Heq)].
      * rewrite Heq. exact IHk.
      * rewrite Heq. intros es' [= <-]. exact Htidy.
Qed.


(** *** [MembershipPage] *)

Lemma existsb_pubkey_false (l : list FollowEntry.t) (pubkey : string) :
  existsb (fun m => String.eqb (FollowEntry.pubkey m) pubkey) l = false ->
  pubkey ∉ FollowEntry.pubkey <$> l.
Proof.
  induction l as [|m l IH]; cbn; intros H Hin; [inversion Hin|].
  apply orb_false_iff in H as [Hm Hl]. apply String.eqb_neq in Hm.
  inversion Hin; subst; [congruence|]. apply (IH Hl). assumption.
Qed.

Lemma filter_pubkeys_subset (f : FollowEntry.t -> bool) (l : list FollowEntry.t)
    (pk : string) :
  pk ∈ FollowEntry.pubkey <$> List.filter f l -> pk ∈ FollowEntry.pubkey <$> l.
Proof.
  induction l as [|m l IH]; cbn; [trivial|].
  destruct (f m); cbn; intros Hin.
  - inversion Hin; subst; [left|right; apply IH; assumption].
  - right. apply IH. exact Hin.
Qed.

Lemma filter_pubkeys_NoDup (f : FollowEntry.t -> bool) (l : list FollowEntry.t) :
  NoDup (FollowEntry.pubkey <$> l) ->
  NoDup (FollowEntry.pubkey <$> List.filter f l).
Proof.
  induction l as [|m l IH]; cbn; [trivial|].
  intros Hnd. apply NoDup_cons in Hnd as [Hm Hl].
  destruct (f m); cbn; [|apply IH; exact Hl].
  apply NoDup_cons. split; [|apply IH; exact Hl].
  intros Hin. apply Hm. apply (filter_pubkeys_subset f). exact Hin.
Qed.

(** X16.  The membership handlers keep the pubkeys of the member list
    distinct: if no pubkey occurs twice before [handleAddMember] or
    [handleRemoveMember], none occurs twice afterwards, however the publish
    went. *)
Theorem membership_pubkeys_stay_unique (st : Membership.state)
    (relayService : RelayService) (publicKey : option string)
    (signEvent : NostrEvent -> Z * result NostrEvent) (now : Z) (pubkey : string) :
  NoDup (FollowEntry.pubkey <$> Membership.members st) ->
  NoDup (FollowEntry.pubkey
           <$> Membership.members
                 (ui (handleAddMember st relayService publicKey signEvent now pubkey)))
  /\ NoDup (FollowEntry.pubkey
              <$> Membership.members
                    (ui (handleRemoveMember st relayService publicKey signEvent
                           now pubkey))).
Proof.
  intros Hnd. split.
  - unfold handleAddMember.
    destruct (negb (truthy publicKey)); [exact Hnd|].
    destruct (existsb _ (Membership.members st)) eqn:Hdup; [exact Hnd|].
    cbn [ui]. destruct (settled _); cbn [Membership.members]; [|exact Hnd].
    rewrite fmap_app. apply NoDup_app. split; [exact Hnd|].
    split; [|apply NoDup_singleton].
    intros pk Hin Hnew. apply list_elem_of_singleton in Hnew. subst pk.
    apply (existsb_pubkey_false _ _ Hdup). exact Hin.
  - unfold handleRemoveMember.
    destruct (negb (truthy publicKey)); [exact Hnd|].
    cbn [ui]. destruct (settled _); cbn [Membership.members]; [|exact Hnd].
    apply filter_pubkeys_NoDup. exact Hnd.
Qed.

Lemma publishFollowList_throws (this : RelayService) (now : Z) (author : string)
    (followList : list FollowEntry.t)
    (signEvent : NostrEvent -> Z * result NostrEvent) (msg : string) :
  encode_follow_list followList = Throw msg ->
  publishFollowList this now author followList signEvent
  = {| settled := Throw msg; settled_at := now; state_after := this; calls := [] |}.
Proof. intros H. unfold publishFollowList. rewrite H. reflexivity. Qed.

(** X17.  [handleAddMember] never adds a malformed pubkey: when the pubkey
    fails [isValidPubkey], the member list stays as it was, nothing is
    signed or sent, and the service is untouched. *)
Theorem handleAddMember_never_adds_malformed (st : Membership.state)
    (relayService : RelayService) (publicKey : option string)
    (signEvent : NostrEvent -> Z * result NostrEvent) (now : Z) (pubkey : string) :
  isValidPubkey pubkey = false ->
  Membership.members
    (ui (handleAddMember st relayService publicKey signEvent now pubkey))
  = Membership.members st
  /\ made (handleAddMember st relayService publicKey signEvent now pubkey) = []
  /\ service (handleAddMember st relayService publicKey signEvent now pubkey)
     = relayService.
Proof.
  intros Hbad. unfold handleAddMember.
  destruct (negb (truthy publicKey)); [repeat split|].
  destruct (existsb _ (Membership.members st)); [repeat split|].
  destruct (mapM_throws follow_tag (Membership.members st ++ [new_member pubkey]))
    as [msg Hthrow].
  { exists (new_member pubkey). split; [apply elem_of_app; right; left|].
    apply follow_tag_invalid. left. exact Hbad. }
  rewrite (publishFollowList_throws _ _ _ _ _ msg Hthrow). repeat split.
Qed.

(** X18.  One member whose relay is a non-empty string that is not a relay
    URL blocks the list: [handleAddMember] then changes nothing for any
    pubkey, and [handleRemoveMember] changes nothing unless it removes that
    member; in both cases nothing is signed or sent. *)
Theorem membership_blocked_by_invalid_relay (st : Membership.state)
    (relayService : RelayService) (publicKey : option string)
    (signEvent : NostrEvent -> Z * result NostrEvent) (now : Z)
    (pubkey : string) (bad : FollowEntry.t) (r : string) :
  bad ∈ Membership.members st ->
  FollowEntry.relay bad = Some r -> r <> EmptyString ->
  isValidRelayUrl r = false ->
  (Membership.members
     (ui (handleAddMember st relayService publicKey signEvent now pubkey))
   = Membership.members st
   /\ made (handleAddMember st relayService publicKey signEvent now pubkey) = [])
  /\ (FollowEntry.pubkey bad <> pubkey ->
      Membership.members
        (ui (handleRemoveMember st relayService publicKey signEvent now pubkey))
      = Membership.members st
      /\ made (handleRemoveMember st relayService publicKey signEvent now pubkey)
         = []).
Proof.
  intros Hin Hr Hne Hurl.
  assert (Hbad : exists msg, follow_tag bad = Throw msg).
  { apply follow_tag_invalid. right. exists r. repeat split; assumption. }
  split.
  - unfold handleAddMember.
    destruct (negb (truthy publicKey)); [repeat split|].
    destruct (existsb _ (Membership.members st)); [repeat split|].
    destruct (mapM_throws follow_tag (Membership.members st ++ [new_member pubkey]))
      as [msg Hthrow].
    { exists bad. split; [apply elem_of_app; left; exact Hin|exact Hbad]. }
    rewrite (publishFollowList_throws _ _ _ _ _ msg Hthrow). repeat split.
  - intros Hother. unfold handleRemoveMember.
    destruct (negb (truthy publicKey)); [repeat split|].
    destruct (mapM_throws follow_tag
                (List.filter
                   (fun m => negb (String.eqb (FollowEntry.pubkey m) pubkey))
                   (Membership.members st))) as [msg Hthrow].
    { exists bad. split; [|exact Hbad].
      apply list_elem_of_In. apply filter_In. split.
      - apply list_elem_of_In. exact Hin.
      - apply negb_true_iff. apply String.eqb_neq. exact Hother. }
    rewrite (publishFollowList_throws _ _ _ _ _ msg Hthrow). repeat split.
Qed.

(** A publish that gets no ['OK'] from a stream that does not fail resolves
    [false]. *)
Lemma publishEvent_unacknowledged (this : RelayService) (es : EventStore)
    (p : NostrEvent -> stream Response) (now : Z) (event : NostrEvent) :
  eventStore this = Some es -> relayUrls this <> [] -> publish es = Some p ->
  Some "OK" ∉ delivered 1000 (p event) ->
  (forall t e, ending_of 1000 (p event) <> Failed t e) ->
  settled (publishEvent this now event None) = Ok false.
Proof.
  intros Hes Hrel Hp Hnot Hend.
  destruct (publishEvent_subscribed this es p now event None Hes Hrel Hp)
    as [-> _].
  set (o := publishEvent_observer (default 1000 None)).
  change 1000 with (fires_at o) in Hnot, Hend.
  rewrite race_unsettled.
  - destruct (ending_of (fires_at o) (p event)) as [t|t e|] eqn:He;
      try reflexivity.
    exfalso. apply (Hend t e). reflexivity.
  - intros response Hr. cbn.
    rewrite bool_decide_eq_false_2; [reflexivity|].
    intros ->. contradiction.
Qed.

(** X19.  [handleAddMember] records the member and reports success as soon
    as the publish does not reject, acknowledged or not: when the list is
    signed and published but no relay answers ['OK'] before the deadline
    (and the stream does not fail), [publishFollowList] resolves [false],
    and the page still holds the new member and the success message. *)
Theorem handleAddMember_success_without_ack (st : Membership.state)
    (relayService : RelayService) (es : EventStore)
    (p : NostrEvent -> stream Response) (publicKey : option string)
    (signEvent : NostrEvent -> Z * result NostrEvent) (now : Z) (pubkey : string)
    (tags_ : list (list string)) (dt : Z) (signed : NostrEvent) :
  truthy publicKey = true ->
  pubkey ∉ FollowEntry.pubkey <$> Membership.members st ->
  encode_follow_list (Membership.members st ++ [new_member pubkey]) = Ok tags_ ->
  signEvent {| kind := 3; content := EmptyString; created_at := now / 1000;
               tags := tags_; pubkey := None |} = (dt, Ok signed) ->
  eventStore relayService = Some es -> relayUrls relayService <> [] ->
  publish es = Some p ->
  Some "OK" ∉ delivered 1000 (p signed) ->
  (forall t e, ending_of 1000 (p signed) <> Failed t e) ->
  settled (publishFollowList relayService now (default EmptyString publicKey)
             (Membership.members st ++ [new_member pubkey]) signEvent) = Ok false
  /\ Membership.members
       (ui (handleAddMember st relayService publicKey signEvent now pubkey))
     = Membership.members st ++ [new_member pubkey]
  /\ Membership.saveMessage
       (ui (handleAddMember st relayService publicKey signEvent now pubkey))
     = Some "Member added successfully!".
Proof.
  intros Hkey Hnew Henc Hsign Hes Hrel Hp Hnot Hend.
  assert (Hpub : settled (publishFollowList relayService now
                            (default EmptyString publicKey)
                            (Membership.members st ++ [new_member pubkey])
                            signEvent) = Ok false).
  { unfold publishFollowList. rewrite Henc, Hsign. cbn [settled].
    apply (publishEvent_unacknowledged relayService es p); assumption. }
  split; [exact Hpub|].
  unfold handleAddMember. rewrite Hkey. cbn [negb].
  assert (Hdup : existsb (fun m => String.eqb (FollowEntry.pubkey m) pubkey)
                         (Membership.members st) = false).
  { apply not_true_is_false. intros Hex. apply Hnew.
    apply existsb_exists in Hex as (m & Hm & Heq).
    apply String.eqb_eq in Heq. subst pubkey.
    apply list_elem_of_fmap_2. apply list_elem_of_In. exact Hm. }
  rewrite Hdup. cbn [ui]. rewrite Hpub. split; reflexivity.
Qed.

(** *** [ProfilePage] *)

Lemma publishEvent_calls_cases (this : RelayService) (now : Z) (event : NostrEvent)
    (timeoutMs : option Z) :
  (calls (publishEvent this now event timeoutMs) = []
   /\ exists msg, settled (publishEvent this now event timeoutMs) = Throw msg)
  \/ calls (publishEvent this now event timeoutMs) = [CallPublish event].
Proof.
  unfold publishEvent.
  destruct (eventStore this) as [es|]; [|left; split; [|eexists]; reflexivity].
  destruct (enforceRateLimit _ _ _ _) as [started this'].
  destruct (length (relayUrls this') =? 0)%nat;
    [left; split; [|eexists]; reflexivity|].
  destruct (publish es) as [p|]; [|left; split; [|eexists]; reflexivity].
  destruct (race _ tt (p event)). right. reflexivity.
Qed.

Lemma publishEvent_resolved_calls (this : RelayService) (now : Z)
    (event : NostrEvent) (timeoutMs : option Z) (b : bool) :
  settled (publishEvent this now event timeoutMs) = Ok b ->
  calls (publishEvent this now event timeoutMs) = [CallPublish event].
Proof.
  intros Hok.
  destruct (publishEvent_calls_cases this now event timeoutMs)
    as [(_ & msg & Hthrow)|Hc]; [congruence|exact Hc].
Qed.

(** X20.  [handleSubmit] does nothing on the network without a well-formed
    public key: when the page's key is missing or fails [isValidPubkey],
    nothing is signed, nothing is published, the service is untouched and
    [onSuccess] is not called. *)
Theorem handleSubmit_requires_valid_key (st : Profile.state)
    (relayService : RelayService) (publicKey : option string)
    (formData : ProfileMetadata)
    (onRoleSuggestion : option (string -> Z * result (option string)))
    (onSuccess : bool) (signEvent : NostrEvent -> Z * result NostrEvent) (now : Z) :
  isValidPubkey (default EmptyString publicKey) = false ->
  made (fst (handleSubmit st relayService publicKey formData onRoleSuggestion
               onSuccess signEvent now)) = []
  /\ service (fst (handleSubmit st relayService publicKey formData
                     onRoleSuggestion onSuccess signEvent now)) = relayService
  /\ snd (handleSubmit st relayService publicKey formData onRoleSuggestion
            onSuccess signEvent now) = false.
Proof.
  intros Hbad. unfold handleSubmit.
  destruct (negb (truthy publicKey)); [repeat split|].
  rewrite Hbad. cbn. repeat split.
Qed.

(** X21.  [handleSubmit] signs the profile event, then the follow event,
    and only then publishes, in the same order: the calls it makes are an
    initial part of "sign profile, sign follows, publish profile, publish
    follows".  [onSuccess] is called only after all four, the two published
    events being what the signing function returned. *)
Theorem handleSubmit_signs_before_publishing (st : Profile.state)
    (relayService : RelayService) (publicKey : option string)
    (formData : ProfileMetadata)
    (onRoleSuggestion : option (string -> Z * result (option string)))
    (onSuccess : bool) (signEvent : NostrEvent -> Z * result NostrEvent) (now : Z) :
  exists profileEvent follows,
    kind profileEvent = 0 /\ kind follows = 3
    /\ (made (fst (handleSubmit st relayService publicKey formData
                     onRoleSuggestion onSuccess signEvent now)) = []
        \/ made (fst (handleSubmit st relayService publicKey formData
                        onRoleSuggestion onSuccess signEvent now))
           = [CallSign profileEvent]
        \/ made (fst (handleSubmit st relayService publicKey formData
                        onRoleSuggestion onSuccess signEvent now))
           = [CallSign profileEvent; CallSign follows]
        \/ exists dt1 dt2 signedProfile signedFollows,
             signEvent profileEvent = (dt1, Ok signedProfile)
             /\ signEvent follows = (dt2, Ok signedFollows)
             /\ (made (fst (handleSubmit st relayService publicKey formData
                              onRoleSuggestion onSuccess signEvent now))
                 = [CallSign profileEvent; CallSign follows;
                    CallPublish signedProfile]
                 \/ made (fst (handleSubmit st relayService publicKey formData
                                 onRoleSuggestion onSuccess signEvent now))
                    = [CallSign profileEvent; CallSign follows;
                       CallPublish signedProfile; CallPublish signedFollows]))
    /\ (snd (handleSubmit st relayService publicKey formData onRoleSuggestion
               onSuccess signEvent now) = true ->
        exists signedProfile signedFollows,
          made (fst (handleSubmit st relayService publicKey formData
                       onRoleSuggestion onSuccess signEvent now))
          = [CallSign profileEvent; CallSign follows;
             CallPublish signedProfile; CallPublish signedFollows]).
Proof.
  unfold handleSubmit.
  set (dummy0 := {| kind := 0; content := EmptyString; created_at := 0;
                    tags := []; pubkey := None |}).
  set (dummy3 := {| kind := 3; content := EmptyString; created_at := 0;
                    tags := []; pubkey := None |}).
  destruct (negb (truthy publicKey)).
  { exists dummy0, dummy3. cbn. repeat split; [left; reflexivity|discriminate]. }
  destruct (negb (isValidPubkey (default EmptyString publicKey))).
  { exists dummy0, dummy3. cbn. repeat split; [left; reflexivity|discriminate]. }
  destruct (suggest_role _ formData onRoleSuggestion now) as [[tags_ st'] t1].
  match goal with
  | |- context [signEvent ?pe] =>
      match goal with
      | |- context [CallSign pe :: CallSign ?fe :: _] =>
          set (profileEvent := pe); set (follows := fe)
      end
  end.
  exists profileEvent, follows. split; [reflexivity|]. split; [reflexivity|].
  destruct (signEvent profileEvent) as [dt1 [signedProfile|msg1]] eqn:Hs1.
  2:{ cbn. split; [right; left; reflexivity|discriminate]. }
  destruct (signEvent follows) as [dt2 [signedFollows|msg2]] eqn:Hs2.
  2:{ cbn. split; [right; right; left; reflexivity|discriminate]. }
  destruct (settled (publishEvent relayService (t1 + dt1 + dt2) signedProfile None))
    as [b1|msg] eqn:Hp1.
  2:{ cbn [fst snd made submit_failed].
      destruct (publishEvent_calls_cases relayService (t1 + dt1 + dt2)
                  signedProfile None) as [(Hc & _)|Hc]; rewrite Hc; cbn [app].
      - split; [right; right; left; reflexivity|discriminate].
      - split; [|discriminate]. right. right. right.
        exists dt1, dt2, signedProfile, signedFollows.
        split; [reflexivity|]. split; [reflexivity|]. left. reflexivity. }
  rewrite (publishEvent_resolved_calls _ _ _ _ b1 Hp1).
  set (first := publishEvent relayService (t1 + dt1 + dt2) signedProfile None).
  destruct (settled (publishEvent (state_after first) (settled_at first)
                       signedFollows None)) as [b2|msg] eqn:Hp2.
  2:{ cbn [fst snd made submit_failed].
      destruct (publishEvent_calls_cases (state_after first) (settled_at first)
                  signedFollows None) as [(Hc & _)|Hc]; rewrite Hc; cbn [app].
      - split; [|discriminate]. right. right. right.
        exists dt1, dt2, signedProfile, signedFollows.
        split; [reflexivity|]. split; [reflexivity|]. left. reflexivity.
      - split; [|discriminate]. right. right. right.
        exists dt1, dt2, signedProfile, signedFollows.
        split; [reflexivity|]. split; [reflexivity|]. right. reflexivity. }
  rewrite (publishEvent_resolved_calls _ _ _ _ b2 Hp2).
  cbn [fst snd made app]. split.
  - right. right. right. exists dt1, dt2, signedProfile, signedFollows.
    split; [reflexivity|]. split; [reflexivity|]. right. reflexivity.
  - intros _. exists signedProfile, signedFollows. reflexivity.
Qed.

Lemma publishEvent_calls_publish_only (this : RelayService) (now : Z)
    (event : NostrEvent) (timeoutMs : option Z) (c : call) :
  c ∈ calls (publishEvent this now event timeoutMs) -> exists e, c = CallPublish e.
Proof.
  destruct (publishEvent_calls_cases this now event timeoutMs)
    as [(Hc & _)|Hc]; rewrite Hc; intros Hin; [inversion Hin|].
  apply list_elem_of_singleton in Hin. eauto.
Qed.

Lemma sign_among_calls (ev pe fe : NostrEvent) (rest : list call) :
  (forall c, c ∈ rest -> exists e, c = CallPublish e) ->
  CallSign ev ∈ [CallSign pe; CallSign fe] ++ rest ->
  ev = pe \/ ev = fe.
Proof.
  intros Hrest Hin. cbn [app] in Hin.
  inversion Hin as [|? ? ? Hin1]; subst; [left; reflexivity|].
  inversion Hin1 as [|? ? ? Hin2]; subst; [right; reflexivity|].
  destruct (Hrest _ Hin2) as [e He]. discriminate.
Qed.

(** The events [handleSubmit] hands to the signing function, and the role
    it leaves on the page. *)
Lemma handleSubmit_signed (st : Profile.state) (relayService : RelayService)
    (publicKey : option string) (formData : ProfileMetadata)
    (onRoleSuggestion : option (string -> Z * result (option string)))
    (onSuccess : bool) (signEvent : NostrEvent -> Z * result NostrEvent) (now : Z)
    (ev : NostrEvent) :
  CallSign ev ∈ made (fst (handleSubmit st relayService publicKey formData
                             onRoleSuggestion onSuccess signEvent now)) ->
  exists st',
    isValidPubkey (default EmptyString publicKey) = true
    /\ (ev = {| kind := 0; content := JSON_stringify (sanitized formData);
                created_at :=
                  snd (suggest_role st' formData onRoleSuggestion now) / 1000;
                tags := fst (fst (suggest_role st' formData onRoleSuggestion now));
                pubkey := None |}
        \/ ev = {| kind := 3; content := EmptyString;
                   created_at :=
                     snd (suggest_role st' formData onRoleSuggestion now) / 1000;
                   tags := [followTag relayService (default EmptyString publicKey)
                              formData];
                   pubkey := None |})
    /\ Profile.suggestedRole
         (ui (fst (handleSubmit st relayService publicKey formData
                     onRoleSuggestion onSuccess signEvent now)))
       = Profile.suggestedRole
           (snd (fst (suggest_role st' formData onRoleSuggestion now))).
Proof.
  unfold handleSubmit.
  destruct (negb (truthy publicKey)); [cbn; intros Hin; inversion Hin|].
  destruct (isValidPubkey (default EmptyString publicKey)) eqn:Hpk; cbn [negb];
    [|cbn; intros Hin; inversion Hin].
  match goal with
  | |- context [suggest_role ?s0 formData onRoleSuggestion now] =>
      set (st0 := s0)
  end.
  intros Hin. exists st0. split; [reflexivity|].
  destruct (suggest_role st0 formData onRoleSuggestion now) as [[tags_ st'] t1].
  cbn [fst snd] in *.
  match type of Hin with
  | context [signEvent ?pe] =>
      match type of Hin with
      | context [CallSign pe :: CallSign ?fe :: _] =>
          set (profileEvent := pe) in *; set (follows := fe) in *
      end
  end.
  destruct (signEvent profileEvent) as [dt1 [signedProfile|msg1]].
  2:{ cbn in *. split; [|reflexivity].
      apply list_elem_of_singleton in Hin. injection Hin as ->. left. reflexivity. }
  destruct (signEvent follows) as [dt2 [signedFollows|msg2]].
  2:{ cbn [fst made submit_failed ui Profile.suggestedRole] in *.
      split; [|reflexivity].
      apply (sign_among_calls ev profileEvent follows []);
        [intros c Hc; inversion Hc|exact Hin]. }
  set (first := publishEvent relayService (t1 + dt1 + dt2) signedProfile None) in *.
  destruct (settled first).
  2:{ cbn [fst made submit_failed ui Profile.suggestedRole] in *.
      split; [|reflexivity].
      apply (sign_among_calls ev profileEvent follows (calls first));
        [apply publishEvent_calls_publish_only|exact Hin]. }
  set (second := publishEvent (state_after first) (settled_at first)
                   signedFollows None) in *.
  assert (Hrest : forall c, c ∈ calls first ++ calls second ->
                            exists e, c = CallPublish e).
  { intros c Hc. apply elem_of_app in Hc as [Hc|Hc];
      apply publishEvent_calls_publish_only in Hc; exact Hc. }
  destruct (settled second);
    cbn [fst made submit_failed ui Profile.suggestedRole] in *;
    (split; [|reflexivity]);
    apply (sign_among_calls ev profileEvent follows (calls first ++ calls second));
    assumption.
Qed.

Lemma suggest_role_consistent (st : Profile.state) (formData : ProfileMetadata)
    (onRoleSuggestion : option (string -> Z * result (option string))) (now : Z) :
  find_role (fst (fst (suggest_role st formData onRoleSuggestion now)))
  = Profile.suggestedRole (snd (fst (suggest_role st formData onRoleSuggestion now))).
Proof.
  unfold suggest_role.
  destruct onRoleSuggestion as [suggest|]; [|reflexivity].
  destruct (truthy (about formData) && _); [|reflexivity].
  destruct (suggest _) as [dt [roleSuggestion|msg]]; [|reflexivity].
  destruct (truthy roleSuggestion) eqn:Htruthy; [|reflexivity].
  set (candidate := trim (default EmptyString roleSuggestion)).
  destruct (str_truthy candidate && isValidRoleTag candidate) eqn:Hok;
    [|reflexivity].
  apply andb_true_iff in Hok as [Hc Hv].
  cbn [fst snd Profile.suggestedRole find_role].
  rewrite bool_decide_eq_true_2 by reflexivity.
  cbn [lookup list_lookup andb truthy default from_option]. unfold id.
  rewrite Hc. unfold candidate. rewrite trim_idempotent.
  fold candidate. rewrite Hv. reflexivity.
Qed.

(** X22.  The role [handleSubmit] leaves on the page is the role that
    [fetchProfileRoleTag] reads back from the profile event it signed: the
    role tag is written exactly when the suggestion, trimmed, is a valid
    role, and then decodes to that same trimmed role. *)
Theorem handleSubmit_role_roundtrip (st : Profile.state)
    (relayService : RelayService) (publicKey : option string)
    (formData : ProfileMetadata)
    (onRoleSuggestion : option (string -> Z * result (option string)))
    (onSuccess : bool) (signEvent : NostrEvent -> Z * result NostrEvent) (now : Z)
    (profileEvent : NostrEvent) :
  CallSign profileEvent
  ∈ made (fst (handleSubmit st relayService publicKey formData onRoleSuggestion
                 onSuccess signEvent now)) ->
  kind profileEvent = 0 ->
  find_role (tags profileEvent)
  = Profile.suggestedRole
      (ui (fst (handleSubmit st relayService publicKey formData onRoleSuggestion
                  onSuccess signEvent now))).
Proof.
  intros Hin Hkind.
  destruct (handleSubmit_signed _ _ _ _ _ _ _ _ _ Hin)
    as (st' & _ & [->| ->] & Hrole); [|discriminate].
  rewrite Hrole. cbn [tags]. apply suggest_role_consistent.
Qed.

(** X23.  The follow event [handleSubmit] signs names the page's own key:
    when a first relay is configured and is not the empty string, its one
    tag decodes to the entry made of the key, that relay, and the form's
    name as petname (none when the name is empty). *)
Theorem handleSubmit_follow_entry (st : Profile.state)
    (relayService : RelayService) (publicKey : option string)
    (formData : ProfileMetadata)
    (onRoleSuggestion : option (string -> Z * result (option string)))
    (onSuccess : bool) (signEvent : NostrEvent -> Z * result NostrEvent) (now : Z)
    (follows : NostrEvent) (relayUrl : string) (others : list string) :
  CallSign follows
  ∈ made (fst (handleSubmit st relayService publicKey formData onRoleSuggestion
                 onSuccess signEvent now)) ->
  kind follows = 3 ->
  relayUrls relayService = relayUrl :: others ->
  relayUrl <> EmptyString ->
  decode_follow_tags (tags follows)
  = [ {| FollowEntry.pubkey := default EmptyString publicKey;
         FollowEntry.relay := Some relayUrl;
         FollowEntry.petname := or_undefined (name formData) |} ].
Proof.
  intros Hin Hkind Hrel Hne.
  destruct (handleSubmit_signed _ _ _ _ _ _ _ _ _ Hin)
    as (st' & Hpk & [->| ->] & _); [discriminate|].
  pose proof (valid_pubkey_truthy _ Hpk) as Htruthy.
  cbn [tags]. unfold followTag, getRelays. rewrite Hrel.
  revert Htruthy. generalize (default EmptyString publicKey) as pk.
  intros pk Htruthy.
  destruct pk as [|k pk]; [discriminate|].
  destruct relayUrl as [|c relayUrl]; [contradiction|].
  destruct (name formData) as [[|d n]|]; reflexivity.
Qed.

Lemma string_prop_json_of_metadata (m : ProfileMetadata) :
  string_prop (json_of_metadata m) "name" = name m
  /\ string_prop (json_of_metadata m) "display_name" = display_name m
  /\ string_prop (json_of_metadata m) "about" = about m
  /\ string_prop (json_of_metadata m) "picture" = picture m
  /\ string_prop (json_of_metadata m) "website" = website m.
Proof.
  destruct m as [[n|] [d|] [a|] [p|] [w|]]; repeat split; reflexivity.
Qed.

(** X24.  Encoding and decoding a profile are inverse: when [JSON.parse]
    gives back the object that [JSON.stringify] wrote for a metadata value,
    and the text is at most 10000 characters long, [parseProfileMetadata]
    of the text is that metadata value, field for field.  So the content of
    the profile event that [handleSubmit] signs decodes to the sanitized
    form data. *)
Theorem profile_content_roundtrip (st : Profile.state)
    (relayService : RelayService) (publicKey : option string)
    (formData : ProfileMetadata)
    (onRoleSuggestion : option (string -> Z * result (option string)))
    (onSuccess : bool) (signEvent : NostrEvent -> Z * result NostrEvent) (now : Z) :
  (forall m,
      JSON_parse (JSON_stringify m) = Ok (json_of_metadata m) ->
      str_length (JSON_stringify m) <= 10000 ->
      parseProfileMetadata (JSON_stringify m) = Ok (Some m))
  /\ (forall profileEvent,
        CallSign profileEvent
        ∈ made (fst (handleSubmit st relayService publicKey formData
                       onRoleSuggestion onSuccess signEvent now)) ->
        kind profileEvent = 0 ->
        JSON_parse (JSON_stringify (sanitized formData))
        = Ok (json_of_metadata (sanitized formData)) ->
        str_length (JSON_stringify (sanitized formData)) <= 10000 ->
        parseProfileMetadata (content profileEvent)
        = Ok (Some (sanitized formData))).
Proof.
  assert (Hround : forall m,
             JSON_parse (JSON_stringify m) = Ok (json_of_metadata m) ->
             str_length (JSON_stringify m) <= 10000 ->
             parseProfileMetadata (JSON_stringify m) = Ok (Some m)).
  { intros m Hparse Hlen.
    unfold parseProfileMetadata, parseProfileMetadata_try, maxProfileContentSize.
    destruct (10000 <? str_length (JSON_stringify m)) eqn:Hlong;
      [apply Z.ltb_lt in Hlong; lia|].
    rewrite Hparse. cbn [mbind result_bind try_catch].
    change (js_falsy (json_of_metadata m)
            || negb (String.eqb (js_typeof (json_of_metadata m)) "object"))
      with false. cbn [try_catch].
    destruct (string_prop_json_of_metadata m) as (-> & -> & -> & -> & ->).
    destruct m; reflexivity. }
  split; [exact Hround|].
  intros profileEvent Hin Hkind Hparse Hlen.
  destruct (handleSubmit_signed _ _ _ _ _ _ _ _ _ Hin)
    as (st' & _ & [->| ->] & _); [|discriminate].
  cbn [content]. apply Hround; assumption.
Qed.

End Platform.

(** ** Concrete runs *)

(** The spec's examples for the validators and the profile decoder. *)
Example isValidPubkey_examples :
  isValidPubkey P1 = true /\ isValidPubkey P63 = false
  /\ isValidPubkey (string_of_list_ascii (repeat "g"%char 64)) = false.
Proof. repeat split; vm_compute; reflexivity. Qed.

Example isValidRelayUrl_examples :
  isValidRelayUrl sample_URL_parse "wss://relay.damus.io" = true
  /\ isValidRelayUrl sample_URL_parse "http://x" = false
  /\ isValidRelayUrl sample_URL_parse EmptyString = false.
Proof. repeat split; vm_compute; reflexivity. Qed.

Example parseProfileMetadata_drops_extra :
  parseProfileMetadata sample_JSON_parse
    ("{" +:+ quoted "name" +:+ ":" +:+ quoted "a" +:+ ","
         +:+ quoted "extra" +:+ ":" +:+ quoted "b" +:+ "}")
  = Ok (Some (named "a")).
Proof. vm_compute. reflexivity. Qed.

(** The text [[]] parses to an array, which is not a key-value object, and
    does not decode to [null]: it decodes to the metadata object with no
    field. *)
Lemma parseProfileMetadata_array_not_null :
  str_length "[]" <= 10000
  /\ sample_JSON_parse "[]" = Ok (JArray [])
  /\ parseProfileMetadata sample_JSON_parse "[]" = Ok (Some empty_metadata)
  /\ parseProfileMetadata sample_JSON_parse "[]" <> Ok None.
Proof.
  split; [vm_compute; discriminate|]. split; [vm_compute; reflexivity|].
  split; [vm_compute; reflexivity|]. vm_compute. discriminate.
Qed.

(** [null] and text that does not parse decode to [null]. *)
Example parseProfileMetadata_null_and_garbage :
  parseProfileMetadata sample_JSON_parse "null" = Ok None
  /\ parseProfileMetadata sample_JSON_parse "oops" = Ok None.
Proof. repeat split; vm_compute; reflexivity. Qed.

(** [setRelays] with one bad URL throws and keeps the relay set; with good
    URLs it installs them. *)
Example setRelays_examples :
  setRelays sample_URL_parse fresh_service ["wss://a.example"; "http://b.example"]
  = (Throw "Invalid relay URL format", fresh_service, [])
  /\ getRelays (snd (fst (setRelays sample_URL_parse fresh_service
                            ["wss://a.example"; "ws://b.example"])))
     = ["wss://a.example"; "ws://b.example"]
  /\ getRelays (snd (fst (setRelays sample_URL_parse fresh_service []))) = [].
Proof. repeat split; vm_compute; reflexivity. Qed.

(** Two records of one author, created at 100 and at 200: the map holds the
    metadata of the second, in whichever order they arrive. *)
Example queryProfiles_two_records :
  settled (queryProfiles sample_JSON_parse (service_with two_profiles_store)
             1000000 None None)
  = Ok {[ P1 := named "new" ]}
  /\ settled (queryProfiles sample_JSON_parse (service_with two_profiles_store_rev)
                1000000 None None)
     = Ok {[ P1 := named "new" ]}.
Proof. split; vm_compute; reflexivity. Qed.

(** [fetchMultipleProfiles] keeps the record that arrives last. *)
Example fetchMultipleProfiles_last_wins :
  settled (fetchMultipleProfiles sample_JSON_parse
             (service_with two_profiles_store_rev) 1000000 [P1])
  = Ok {[ P1 := named "old" ]}.
Proof. vm_compute. reflexivity. Qed.

(** The spec's round-trip example. *)
Example follow_list_roundtrip_example :
  let entries :=
    [ {| FollowEntry.pubkey := P1; FollowEntry.relay := None;
         FollowEntry.petname := None |};
      {| FollowEntry.pubkey := P2; FollowEntry.relay := Some "wss://r";
         FollowEntry.petname := None |} ] in
  exists tags_, encode_follow_list sample_URL_parse entries = Ok tags_
                /\ decode_follow_tags tags_ = entries.
Proof. eexists. split; vm_compute; reflexivity. Qed.

(** ** The gate of [publishFollowList] on concrete lists *)

(** A list with a 63-character pubkey is rejected before anything is
    signed or sent. *)
Lemma publishFollowList_gate_witness :
  (exists entry,
      entry ∈ [short_key_entry]
      /\ (isValidPubkey (FollowEntry.pubkey entry) = false
          \/ exists r, FollowEntry.relay entry = Some r /\ r <> EmptyString
                       /\ isValidRelayUrl sample_URL_parse r = false))
  /\ (exists msg,
         settled (publishFollowList sample_URL_parse ready_service 1000000 P1
                    [short_key_entry] sample_sign) = Throw msg)
  /\ calls (publishFollowList sample_URL_parse ready_service 1000000 P1
              [short_key_entry] sample_sign) = [].
Proof.
  assert (Hbad : exists entry,
      entry ∈ [short_key_entry]
      /\ (isValidPubkey (FollowEntry.pubkey entry) = false
          \/ exists r, FollowEntry.relay entry = Some r /\ r <> EmptyString
                       /\ isValidRelayUrl sample_URL_parse r = false)).
  { exists short_key_entry. split; [left|left; reflexivity]. }
  split; [exact Hbad|].
  destruct (publishFollowList_gate sample_URL_parse ready_service 1000000 P1
              [short_key_entry] sample_sign Hbad) as (Hrej & Hcalls & _).
  split; [exact Hrej|exact Hcalls].
Defined.

(** An entry whose relay is the empty string has a relay that fails
    [isValidRelayUrl], and yet the list is signed, published and
    acknowledged. *)
Lemma publishFollowList_accepts_empty_relay :
  FollowEntry.relay empty_relay_entry = Some EmptyString
  /\ isValidRelayUrl sample_URL_parse EmptyString = false
  /\ settled (publishFollowList sample_URL_parse ready_service 1000000 P1
                [empty_relay_entry] sample_sign) = Ok true
  /\ exists event signed,
       calls (publishFollowList sample_URL_parse ready_service 1000000 P1
                [empty_relay_entry] sample_sign)
       = [CallSign event; CallPublish signed]
       /\ tags event = [["p"; P1]].
Proof.
  split; [reflexivity|]. split; [vm_compute; reflexivity|].
  split; [vm_compute; reflexivity|].
  eexists. eexists. split; vm_compute; reflexivity.
Qed.

(** ** Reads on concrete instances *)



(** The same cached answer through a stream that drops the subscriber, or
    goes on, when the observer throws: the read stays pending until its
    timer fires and resolves to [null]; the cached record is lost. *)
Example fetchProfile_cached_answer_is_lost :
  settled (fetchProfile_under sample_JSON_parse (cached_conduct Unsubscribes)
             ready_service 1000000 P1) = Ok None
  /\ settled_at (fetchProfile_under sample_JSON_parse (cached_conduct Unsubscribes)
                   ready_service 1000000 P1) = 1005000
  /\ settled (fetchProfile_under sample_JSON_parse (cached_conduct Continues)
                ready_service 1000000 P1) = Ok None
  /\ settled_at (fetchProfile_under sample_JSON_parse (cached_conduct Continues)
                   ready_service 1000000 P1) = 1005000.
Proof. repeat split; vm_compute; reflexivity. Qed.

(** Before [initialize], a read rejects. *)
Example fetchProfile_rejects_before_initialize :
  constructor sample_URL_parse {| config_relayUrls := None |} = Ok fresh_service
  /\ settled (fetchProfile sample_JSON_parse fresh_service 1000000 P1)
     = Throw NOT_INITIALIZED
  /\ is_rejected (settled (fetchProfile sample_JSON_parse fresh_service 1000000 P1))
     = true.
Proof. repeat split; vm_compute; reflexivity. Qed.

Lemma queryProfiles_latest_wins_witness :
  eventStore (service_with two_profiles_store) = Some two_profiles_store
  /\ query two_profiles_store
     = Some (fun _ => [(1, Next (Some (profile_event P1 "old" 100)));
                       (2, Next (Some (profile_event P1 "new" 200)))])
  /\ exists result,
       settled (queryProfiles sample_JSON_parse (service_with two_profiles_store)
                  1000000 None None) = Ok result
       /\ forall event' metadata',
            Some event' ∈ [Some (profile_event P1 "old" 100);
                           Some (profile_event P1 "new" 200)] ->
            eligible sample_JSON_parse P1 event' metadata' ->
            created_at event' <= 200.
Proof.
  split; [reflexivity|]. split; [reflexivity|].
  destruct (queryProfiles_latest_wins sample_JSON_parse
              (service_with two_profiles_store) two_profiles_store _
              1000000 None None eq_refl eq_refl) as (result & Hsettled & Hidx & _).
  exists result. split; [exact Hsettled|].
  specialize (Hidx P1).
  assert (Hres : result = {[ P1 := named "new" ]}).
  { assert (Hv : settled (queryProfiles sample_JSON_parse
                            (service_with two_profiles_store) 1000000 None None)
                 = Ok {[ P1 := named "new" ]}) by (vm_compute; reflexivity).
    congruence. }
  subst result. rewrite lookup_singleton_eq in Hidx.
  destruct Hidx as (event & Hin & Hel & Hmax).
  intros event' metadata' Hin' Hel'.
  specialize (Hmax event' metadata' Hin' Hel').
  assert (Hle : created_at event <= 200).
  { cbn in Hin. apply list_elem_of_In in Hin.
    destruct Hin as [[= <-]|[[= <-]|[]]]; cbn; lia. }
  lia.
Defined.

Lemma reads_settle_at_deadline_witness :
  eventStore (service_with silent_store) = Some silent_store
  /\ query silent_store = Some (fun _ => [])
  /\ settled (fetchProfile sample_JSON_parse (service_with silent_store) 1000000 P1)
     = Ok None
  /\ settled_at (fetchProfile sample_JSON_parse (service_with silent_store)
                   1000000 P1) = 1005000.
Proof.
  split; [reflexivity|]. split; [reflexivity|].
  destruct (reads_settle_at_deadline sample_JSON_parse (service_with silent_store)
              silent_store _ 1000000 eq_refl eq_refl) as (Hprofile & _).
  destruct (Hprofile P1) as [Hv Ht].
  - intros t n Hin. inversion Hin.
  - intros item Hin. inversion Hin.
  - split; [exact Hv|]. rewrite Ht. vm_compute. reflexivity.
Defined.

(** A map read whose stream never ends settles at its deadline with what it
    collected, which need not be empty. *)
Lemma queryProfiles_deadline_not_empty :
  never_ends [(1, Next (Some (profile_event P1 "alice" 100)))]
  /\ query sample_store
     = Some (fun _ => [(1, Next (Some (profile_event P1 "alice" 100)))])
  /\ settled (queryProfiles sample_JSON_parse ready_service 1000000 None None)
     = Ok {[ P1 := named "alice" ]}
  /\ settled (queryProfiles sample_JSON_parse ready_service 1000000 None None)
     <> Ok ∅
  /\ settled_at (queryProfiles sample_JSON_parse ready_service 1000000 None None)
     = 1010000
  /\ settled (fetchMultipleProfiles sample_JSON_parse ready_service 1000000 [P1])
     = Ok {[ P1 := named "alice" ]}.
Proof.
  split.
  { intros t n Hin. apply list_elem_of_singleton in Hin. injection Hin as -> ->.
    eexists. reflexivity. }
  split; [reflexivity|].
  assert (Hv : settled (queryProfiles sample_JSON_parse ready_service
                          1000000 None None) = Ok {[ P1 := named "alice" ]})
    by (vm_compute; reflexivity).
  split; [exact Hv|]. split.
  { rewrite Hv. intros Heq.
    pose proof (f_equal (fun r : result (gmap string ProfileMetadata) =>
                           match r with
                           | Ok m => m !! P1
                           | Throw _ => None
                           end) Heq) as Hlook.
    cbv beta iota in Hlook.
    rewrite lookup_singleton_eq, lookup_empty in Hlook. discriminate. }
  split; vm_compute; reflexivity.
Qed.

(** ** [publishEvent] without relays, on a concrete instance *)

Lemma publishEvent_no_relays_witness :
  let first := publishEvent relayless_service 1000000 note None in
  relayUrls (state_after first) = []
  /\ lastActionAt (state_after first) !! "publish" = Some 1000000
  /\ settled (publishEvent (state_after first) 1000100 note (Some 100))
     = Throw "No relays configured"
  /\ calls (publishEvent (state_after first) 1000100 note (Some 100)) = []
  /\ settled_at (publishEvent (state_after first) 1000100 note (Some 100))
     = 1000750.
Proof.
  cbv zeta.
  set (this := state_after (publishEvent relayless_service 1000000 note None)).
  assert (Hnone : relayUrls this = []) by reflexivity.
  assert (Hlast : lastActionAt this !! "publish" = Some 1000000)
    by (vm_compute; reflexivity).
  split; [exact Hnone|]. split; [exact Hlast|].
  destruct (publishEvent_no_relays this 1000100 note (Some 100) Hnone)
    as (Hcalls & _ & _ & Hstore).
  destruct (Hstore sample_store eq_refl) as (Hrej & _ & Hwait & _).
  split; [exact Hrej|]. split; [exact Hcalls|].
  rewrite Hwait; rewrite Hlast; cbn; lia.
Defined.

(** A second publish 100 ms after a first one, with no relay configured and
    a 100 ms timeout, rejects 650 ms after the call: later than the call,
    and later than the timeout would have fired. *)
Lemma publishEvent_no_relays_waits :
  let first := publishEvent relayless_service 1000000 note None in
  let second := publishEvent (state_after first) 1000100 note (Some 100) in
  relayUrls (state_after first) = []
  /\ settled second = Throw "No relays configured"
  /\ settled_at second = 1000750
  /\ settled_at second <> 1000100
  /\ 1000100 + 100 < settled_at second.
Proof. vm_compute. repeat split; congruence. Qed.

(** ** Deadlines *)

(** The batch read does not have the longer deadline. *)
Lemma fetchMultipleProfiles_deadline_not_longer :
  ~ (delay (fetchProfile_observer sample_JSON_parse)
     < delay (fetchMultipleProfiles_observer sample_JSON_parse))
  /\ ~ (delay fetchProfileRoleTag_observer
        < delay (fetchMultipleProfiles_observer sample_JSON_parse)).
Proof. cbn. split; lia. Qed.

(** ** The relay array is shared with the store *)

(** C6.  [setRelays] hands the store the array it has just installed
    (line 357), where [getRelays] hands out a copy.  On an instance whose
    store appends to the array it is given, [setRelays(['wss://a.example'])]
    passes validation and returns, and the relay set afterwards is not the
    argument: it holds the store's address as well.  The other half of the
    claim stands on the same instance: an argument with an invalid URL
    throws and leaves the instance as it was. *)
Theorem setRelays_relay_set_not_the_argument :
  let this := service_with appending_store in
  (forall url, url ∈ ["wss://a.example"] ->
               isValidRelayUrl sample_URL_parse url = true)
  /\ fst (fst (setRelays sample_URL_parse this ["wss://a.example"])) = Ok tt
  /\ snd (setRelays sample_URL_parse this ["wss://a.example"])
     = [CallSetRelays ["wss://a.example"]]
  /\ getRelays (snd (fst (setRelays sample_URL_parse this ["wss://a.example"])))
     = ["wss://a.example"; "https://bootstrap.example"]
  /\ getRelays (snd (fst (setRelays sample_URL_parse this ["wss://a.example"])))
     <> ["wss://a.example"]
  /\ getRelays (snd (fst (setRelays sample_URL_parse this ["wss://a.example"])))
     <> getRelays this
  /\ setRelays sample_URL_parse this ["wss://a.example"; "http://b.example"]
     = (Throw "Invalid relay URL format", this, []).
Proof.
  cbv zeta. split.
  { intros url Hin. apply list_elem_of_singleton in Hin. subst url.
    vm_compute. reflexivity. }
  repeat split; try (vm_compute; reflexivity); vm_compute; discriminate.
Qed.

(** C10.  [initialize] hands the store the relay array of the instance
    (line 347), where [getRelays] hands out a copy.  A new instance with the
    default relays, initialised with a store that appends to the array it
    is given, is in a reachable state whose relay set holds a URL that
    fails [isValidRelayUrl]. *)
Theorem initialize_relay_set_not_valid :
  let this :=
    step sample_URL_parse sample_JSON_parse fresh_service
      (Initialize appending_store) in
  constructor sample_URL_parse {| config_relayUrls := None |} = Ok fresh_service
  /\ reachable sample_URL_parse sample_JSON_parse this
  /\ getRelays this = ["wss://relay.damus.io"; "https://bootstrap.example"]
  /\ "https://bootstrap.example" ∈ getRelays this
  /\ isValidRelayUrl sample_URL_parse "https://bootstrap.example" = false.
Proof.
  cbv zeta. split; [reflexivity|]. split.
  { apply reachable_step.
    apply (reachable_new _ _ {| config_relayUrls := None |}). reflexivity. }
  split; [vm_compute; reflexivity|]. split.
  - change (getRelays _) with ["wss://relay.damus.io"; "https://bootstrap.example"].
    apply list_elem_of_further, list_elem_of_here.
  - vm_compute. reflexivity.
Qed.

(** With stores that keep the list the relay set stays valid. *)
Example relayUrls_valid_with_keeping_store :
  let this :=
    step sample_URL_parse sample_JSON_parse
      (step sample_URL_parse sample_JSON_parse
         (step sample_URL_parse sample_JSON_parse fresh_service
            (Initialize mute_store))
         (SetRelays ["ws://localhost"; "wss://relay.example.org"]))
      (SetRelays ["http://not-a-relay"]) in
  reachable_tidy sample_URL_parse sample_JSON_parse this
  /\ getRelays this = ["ws://localhost"; "wss://relay.example.org"]
  /\ forall url, url ∈ getRelays this ->
                 isValidRelayUrl sample_URL_parse url = true.
Proof.
  cbv zeta.
  assert (Hreach : reachable_tidy sample_URL_parse sample_JSON_parse
    (step sample_URL_parse sample_JSON_parse
      (step sample_URL_parse sample_JSON_parse
         (step sample_URL_parse sample_JSON_parse fresh_service
            (Initialize mute_store))
         (SetRelays ["ws://localhost"; "wss://relay.example.org"]))
      (SetRelays ["http://not-a-relay"]))).
  { apply tidy_step; [|exact I]. apply tidy_step; [|exact I]. apply tidy_step.
    - apply (tidy_new _ _ {| config_relayUrls := None |}). reflexivity.
    - intros method [= <-] urls. reflexivity. }
  split; [exact Hreach|]. split; [vm_compute; reflexivity|].
  apply (reachable_tidy_invariant _ _ _ Hreach).
Qed.

(** ** The follow-list encoding loses the position of the petname *)

(** C4.  Encoding an entry that has a petname but no relay puts the petname
    where the decoder expects the relay: decoding gives back an entry whose
    relay is the petname and which has no petname.  The decoded list can
    then no longer be published. *)
Theorem follow_list_roundtrip_fails :
  isValidPubkey (FollowEntry.pubkey petname_only_entry) = true
  /\ FollowEntry.relay petname_only_entry = None
  /\ encode_follow_list sample_URL_parse [petname_only_entry]
     = Ok [["p"; P1; "bob"]]
  /\ decode_follow_tags [["p"; P1; "bob"]]
     = [ {| FollowEntry.pubkey := P1; FollowEntry.relay := Some "bob";
            FollowEntry.petname := None |} ]
  /\ decode_follow_tags [["p"; P1; "bob"]] <> [petname_only_entry]
  /\ encode_follow_list sample_URL_parse (decode_follow_tags [["p"; P1; "bob"]])
     = Throw "Invalid relay URL format for follow list entry.".
Proof.
  split; [vm_compute; reflexivity|]. split; [reflexivity|].
  split; [vm_compute; reflexivity|]. split; [vm_compute; reflexivity|].
  split; [|vm_compute; reflexivity].
  vm_compute. intros [=].
Qed.

(** ** The further properties on concrete inputs *)

Lemma relay_and_http_urls_disjoint_witness :
  isValidRelayUrl sample_URL_parse "wss://relay.damus.io" = true
  /\ isValidHttpUrl sample_URL_parse "wss://relay.damus.io" = false.
Proof.
  assert (H : isValidRelayUrl sample_URL_parse "wss://relay.damus.io" = true)
    by (vm_compute; reflexivity).
  split; [exact H|].
  exact (relay_and_http_urls_disjoint sample_URL_parse _ H).
Defined.

Lemma find_role_valid_witness :
  find_role [["p"; P1]; ["role"; "not/valid"]; ["role"; " builder "]]
  = Some "builder"
  /\ isValidRoleTag "builder" = true
  /\ trim "builder" = "builder".
Proof.
  assert (H : find_role [["p"; P1]; ["role"; "not/valid"]; ["role"; " builder "]]
              = Some "builder") by (vm_compute; reflexivity).
  split; [exact H|].
  destruct (find_role_valid _ _ H) as (Hv & Ht & _).
  split; [exact Hv|exact Ht].
Defined.

Lemma enforceRateLimit_spacing_witness :
  let this := snd (enforceRateLimit fresh_service "publish" 750 1000000) in
  1000100 <= 1000200
  /\ fst (enforceRateLimit this "publish" 750 1000100) = 1000750
  /\ fst (enforceRateLimit this "publish" 750 1000200) = 1000750
  /\ fst (enforceRateLimit (snd (enforceRateLimit this "publish" 750 1000100))
            "publish" 750 1001000) = 1001500.
Proof.
  cbv zeta.
  set (this := snd (enforceRateLimit fresh_service "publish" 750 1000000)).
  assert (Hfirst : fst (enforceRateLimit this "publish" 750 1000100) = 1000750)
    by (vm_compute; reflexivity).
  assert (H12 : 1000100 <= 1000200) by lia.
  assert (H13 : 1000100 <= 1001000) by lia.
  split; [exact H12|]. split; [exact Hfirst|].
  destruct (enforceRateLimit_spacing this "publish" 750 1000100 1000200 H12)
    as [_ Hoverlap].
  destruct (enforceRateLimit_spacing this "publish" 750 1000100 1001000 H13)
    as [Hafter _].
  split.
  - rewrite Hoverlap; [exact Hfirst|]. rewrite Hfirst. lia.
  - rewrite Hafter; [rewrite Hfirst; reflexivity|]. rewrite Hfirst. lia.
Defined.

Lemma fetchProfile_first_decodable_witness :
  eventStore (service_with on_the_dot_store) = Some on_the_dot_store
  /\ query on_the_dot_store
     = Some (fun _ => [(5000, Next (Some (profile_event P1 "alice" 100)))])
  /\ settled (fetchProfile_under sample_JSON_parse prompt_conduct
                (service_with on_the_dot_store) 1000000 P1)
     = Ok (Some (named "alice"))
  /\ settled (fetchProfile_under sample_JSON_parse
                (cached_conduct Propagates)
                (service_with on_the_dot_store) 1000000 P1)
     = Throw SUBSCRIPTION_UNSET.
Proof.
  split; [reflexivity|]. split; [reflexivity|].
  destruct (fetchProfile_first_decodable sample_JSON_parse prompt_conduct
              (service_with on_the_dot_store) on_the_dot_store _ 1000000 P1
              eq_refl eq_refl) as [_ Hreturned].
  destruct (Hreturned eq_refl) as (Hon & _ & _).
  destruct (Hon eq_refl) as [Hfirst _].
  destruct (fetchProfile_first_decodable sample_JSON_parse
              (cached_conduct Propagates)
              (service_with on_the_dot_store) on_the_dot_store _ 1000000 P1
              eq_refl eq_refl) as [_ Hcached].
  destruct (Hcached eq_refl) as (_ & _ & Hthrough).
  split.
  - apply (Hfirst [] (profile_event P1 "alice" 100) []).
    + vm_compute. reflexivity.
    + reflexivity.
    + vm_compute. reflexivity.
    + intros e m Hin. inversion Hin.
  - apply (Hthrough SUBSCRIPTION_UNSET). vm_compute. reflexivity.
Defined.

(** A record due exactly when the timer is due answers the read when the
    store has it run first, and comes too late otherwise. *)
Example fetchProfile_on_the_dot :
  settled (fetchProfile_under sample_JSON_parse prompt_conduct
             (service_with on_the_dot_store) 1000000 P1)
  = Ok (Some (named "alice"))
  /\ settled (fetchProfile_under sample_JSON_parse orderly
                (service_with on_the_dot_store) 1000000 P1)
     = Ok None.
Proof. split; vm_compute; reflexivity. Qed.

Lemma fetchProfileRoleTag_first_record_witness :
  eventStore (service_with role_store) = Some role_store
  /\ query role_store
     = Some (fun _ => [(1, Next (Some (role_event " builder ")));
                       (2, Next (Some (role_event "farmer")))])
  /\ settled (fetchProfileRoleTag_under orderly (service_with role_store)
                1000000 P1)
     = Ok (find_role (tags (role_event " builder "))).
Proof.
  split; [reflexivity|]. split; [reflexivity|].
  apply (fetchProfileRoleTag_first_record orderly (service_with role_store)
           role_store
           (fun _ => [(1, Next (Some (role_event " builder ")));
                      (2, Next (Some (role_event "farmer")))])
           1000000 P1 [] [Some (role_event "farmer")]).
  - reflexivity.
  - reflexivity.
  - reflexivity.
  - reflexivity.
  - vm_compute. reflexivity.
  - reflexivity.
  - intros e Hin. inversion Hin.
Defined.

Lemma fetchFollowList_first_record_witness :
  eventStore (service_with follow_store) = Some follow_store
  /\ query follow_store
     = Some (fun _ => [(1, Next (Some (profile_event P1 "alice" 100)));
                       (2, Next (Some follow_event))])
  /\ settled (fetchFollowList_under orderly (service_with follow_store)
                1000000 P1)
     = Ok (decode_follow_tags (tags follow_event)).
Proof.
  split; [reflexivity|]. split; [reflexivity|].
  apply (fetchFollowList_first_record orderly (service_with follow_store)
           follow_store
           (fun _ => [(1, Next (Some (profile_event P1 "alice" 100)));
                      (2, Next (Some follow_event))])
           1000000 P1 [Some (profile_event P1 "alice" 100)] []).
  - reflexivity.
  - reflexivity.
  - reflexivity.
  - reflexivity.
  - vm_compute. reflexivity.
  - reflexivity.
  - intros e Hin. apply list_elem_of_singleton in Hin. injection Hin as ->.
    vm_compute. discriminate.
Defined.

Lemma publishEvent_outcome_witness :
  eventStore ready_service = Some sample_store
  /\ relayUrls ready_service <> []
  /\ publish sample_store = Some (fun _ => [(20, Next (Some "OK"))])
  /\ settled (publishEvent_under sample_setTimeout_delay orderly ready_service
                1000000 note None) = Ok true
  /\ calls (publishEvent_under sample_setTimeout_delay orderly ready_service
              1000000 note None) = [CallPublish note]
  /\ settled (publishEvent_under sample_setTimeout_delay
                (cached_conduct Continues) ready_service 1000000 note None)
     = Ok true.
Proof.
  assert (Hrel : relayUrls ready_service <> []) by discriminate.
  split; [reflexivity|]. split; [exact Hrel|]. split; [reflexivity|].
  destruct (publishEvent_outcome sample_setTimeout_delay orderly ready_service
              sample_store _ 1000000 note None eq_refl Hrel eq_refl)
    as (Hcalls & _ & Hreturned).
  destruct (Hreturned eq_refl) as (Hon & _ & _).
  destruct (Hon eq_refl) as [Hok _].
  destruct (publishEvent_outcome sample_setTimeout_delay
              (cached_conduct Continues) ready_service
              sample_store _ 1000000 note None eq_refl Hrel eq_refl)
    as (_ & _ & Hcached).
  destruct (Hcached eq_refl) as (Hcached_on & _ & _).
  destruct (Hcached_on eq_refl) as [Hcached_ok _].
  split; [|split; [exact Hcalls|]].
  - apply Hok. vm_compute. left.
  - apply Hcached_ok. vm_compute. left.
Defined.

(** An acknowledgement handed over inside [subscribe] does not resolve the
    publish: through a stream that lets exceptions through it rejects it,
    and through one that drops the subscriber the publish resolves [false]
    when the timer fires.  An acknowledgement due exactly when the timer
    is due counts when the store has it run first.  A [timeoutMs] of
    2147483648 is beyond what [setTimeout] takes: on Node the timer fires
    after 1 ms, before the acknowledgement that comes after 20 ms. *)
Example publishEvent_under_examples :
  settled (publishEvent_under sample_setTimeout_delay (cached_conduct Propagates)
             ready_service 1000000 note None) = Throw SUBSCRIPTION_UNSET
  /\ settled (publishEvent_under sample_setTimeout_delay
                (cached_conduct Unsubscribes) ready_service 1000000 note None)
     = Ok false
  /\ settled (publishEvent_under sample_setTimeout_delay prompt_conduct
                (service_with on_the_dot_store) 1000000 note None) = Ok true
  /\ settled (publishEvent_under sample_setTimeout_delay orderly
                (service_with on_the_dot_store) 1000000 note None) = Ok false
  /\ settled (publishEvent_under sample_setTimeout_delay orderly ready_service
                1000000 note (Some 2147483648)) = Ok false
  /\ settled_at (publishEvent_under sample_setTimeout_delay orderly ready_service
                   1000000 note (Some 2147483648)) = 1000001.
Proof. repeat split; vm_compute; reflexivity. Qed.

Lemma publishFollowList_signs_the_list_witness :
  exists event,
    CallSign event
    ∈ calls (publishFollowList sample_URL_parse ready_service 1000000 P1
               [new_member P2; new_member P1] sample_sign)
    /\ kind event = 3
    /\ FollowEntry.pubkey <$> decode_follow_tags (tags event) = [P2; P1].
Proof.
  exists {| kind := 3; content := EmptyString; created_at := 1000;
            tags := [["p"; P2]; ["p"; P1]]; pubkey := None |}.
  assert (Hin : CallSign {| kind := 3; content := EmptyString; created_at := 1000;
                            tags := [["p"; P2]; ["p"; P1]]; pubkey := None |}
                ∈ calls (publishFollowList sample_URL_parse ready_service 1000000
                           P1 [new_member P2; new_member P1] sample_sign))
    by (vm_compute; left).
  split; [exact Hin|].
  destruct (publishFollowList_signs_the_list sample_URL_parse _ _ _ _ _ _ Hin)
    as (Hk & _ & _ & _ & Hpks & _).
  split; [exact Hk|exact Hpks].
Defined.

Lemma fetchMultipleProfiles_last_record_wins_witness :
  eventStore (service_with two_profiles_store_rev) = Some two_profiles_store_rev
  /\ query two_profiles_store_rev
     = Some (fun _ => [(1, Next (Some (profile_event P1 "new" 200)));
                       (2, Next (Some (profile_event P1 "old" 100)))])
  /\ [P1] <> []
  /\ exists result,
       settled (fetchMultipleProfiles sample_JSON_parse
                  (service_with two_profiles_store_rev) 1000000 [P1]) = Ok result.
Proof.
  assert (Hne : [P1] <> []) by discriminate.
  split; [reflexivity|]. split; [reflexivity|]. split; [exact Hne|].
  destruct (fetchMultipleProfiles_last_record_wins sample_JSON_parse
              (service_with two_profiles_store_rev) two_profiles_store_rev _
              1000000 [P1] eq_refl eq_refl Hne) as (result & Hsettled & _).
  exists result. exact Hsettled.
Defined.


Lemma membership_pubkeys_stay_unique_witness :
  NoDup (FollowEntry.pubkey <$> Membership.members one_member_page)
  /\ NoDup (FollowEntry.pubkey
              <$> Membership.members
                    (ui (handleAddMember sample_URL_parse one_member_page
                           ready_service (Some P1) sample_sign 1000000 P1))).
Proof.
  assert (Hnd : NoDup (FollowEntry.pubkey <$> Membership.members one_member_page)).
  { cbn. apply NoDup_singleton. }
  split; [exact Hnd|].
  exact (proj1 (membership_pubkeys_stay_unique sample_URL_parse one_member_page
                  ready_service (Some P1) sample_sign 1000000 P1 Hnd)).
Defined.

Lemma handleAddMember_never_adds_malformed_witness :
  isValidPubkey P63 = false
  /\ Membership.members
       (ui (handleAddMember sample_URL_parse one_member_page ready_service
              (Some P1) sample_sign 1000000 P63))
     = Membership.members one_member_page
  /\ made (handleAddMember sample_URL_parse one_member_page ready_service
             (Some P1) sample_sign 1000000 P63) = [].
Proof.
  assert (H : isValidPubkey P63 = false) by (vm_compute; reflexivity).
  split; [exact H|].
  destruct (handleAddMember_never_adds_malformed sample_URL_parse one_member_page
              ready_service (Some P1) sample_sign 1000000 P63 H)
    as (Hm & Hc & _).
  split; [exact Hm|exact Hc].
Defined.

Lemma membership_blocked_by_invalid_relay_witness :
  decode_follow_tags [["p"; P2; "bob"]] = Membership.members shifted_member_page
  /\ isValidRelayUrl sample_URL_parse "bob" = false
  /\ Membership.members
       (ui (handleAddMember sample_URL_parse shifted_member_page ready_service
              (Some P1) sample_sign 1000000 P1))
     = Membership.members shifted_member_page
  /\ made (handleAddMember sample_URL_parse shifted_member_page ready_service
             (Some P1) sample_sign 1000000 P1) = [].
Proof.
  assert (Hurl : isValidRelayUrl sample_URL_parse "bob" = false)
    by (vm_compute; reflexivity).
  split; [vm_compute; reflexivity|]. split; [exact Hurl|].
  assert (Hin : {| FollowEntry.pubkey := P2; FollowEntry.relay := Some "bob";
                   FollowEntry.petname := None |}
                ∈ Membership.members shifted_member_page) by left.
  assert (Hne : "bob" <> EmptyString) by discriminate.
  exact (proj1 (membership_blocked_by_invalid_relay sample_URL_parse
                  shifted_member_page ready_service (Some P1) sample_sign
                  1000000 P1 _ "bob" Hin eq_refl Hne Hurl)).
Defined.

Lemma handleAddMember_success_without_ack_witness :
  settled (publishFollowList sample_URL_parse (service_with mute_store) 1000000 P1
             (Membership.members one_member_page ++ [new_member P1]) sample_sign)
  = Ok false
  /\ Membership.members
       (ui (handleAddMember sample_URL_parse one_member_page
              (service_with mute_store) (Some P1) sample_sign 1000000 P1))
     = Membership.members one_member_page ++ [new_member P1]
  /\ Membership.saveMessage
       (ui (handleAddMember sample_URL_parse one_member_page
              (service_with mute_store) (Some P1) sample_sign 1000000 P1))
     = Some "Member added successfully!".
Proof.
  apply (handleAddMember_success_without_ack sample_URL_parse one_member_page
           (service_with mute_store) mute_store (fun _ => []) (Some P1)
           sample_sign 1000000 P1 [["p"; P2]; ["p"; P1]] 5
           {| kind := 3; content := EmptyString; created_at := 1000;
              tags := [["p"; P2]; ["p"; P1]]; pubkey := Some P1 |}).
  - vm_compute. reflexivity.
  - cbn. intros Hin. apply list_elem_of_singleton in Hin.
    vm_compute in Hin. discriminate.
  - vm_compute. reflexivity.
  - vm_compute. reflexivity.
  - reflexivity.
  - discriminate.
  - reflexivity.
  - intros Hin. inversion Hin.
  - intros t e. discriminate.
Defined.

Lemma handleSubmit_requires_valid_key_witness :
  isValidPubkey (default EmptyString (Some P63)) = false
  /\ made (fst (handleSubmit sample_sanitize sample_JSON_stringify
                  idle_profile_page ready_service (Some P63) sample_form
                  (Some sample_suggest) true sample_sign 1000000)) = []
  /\ snd (handleSubmit sample_sanitize sample_JSON_stringify idle_profile_page
            ready_service (Some P63) sample_form (Some sample_suggest) true
            sample_sign 1000000) = false.
Proof.
  assert (H : isValidPubkey (default EmptyString (Some P63)) = false)
    by (vm_compute; reflexivity).
  split; [exact H|].
  destruct (handleSubmit_requires_valid_key sample_sanitize sample_JSON_stringify
              idle_profile_page ready_service (Some P63) sample_form
              (Some sample_suggest) true sample_sign 1000000 H)
    as (Hm & _ & Hs).
  split; [exact Hm|exact Hs].
Defined.

Lemma handleSubmit_role_roundtrip_witness :
  exists profileEvent,
    CallSign profileEvent
    ∈ made (fst (handleSubmit sample_sanitize sample_JSON_stringify
                   idle_profile_page ready_service (Some P1) sample_form
                   (Some sample_suggest) true sample_sign 1000000))
    /\ kind profileEvent = 0
    /\ tags profileEvent = [["role"; "builder"]]
    /\ find_role (tags profileEvent)
       = Profile.suggestedRole
           (ui (fst (handleSubmit sample_sanitize sample_JSON_stringify
                       idle_profile_page ready_service (Some P1) sample_form
                       (Some sample_suggest) true sample_sign 1000000))).
Proof.
  exists {| kind := 0;
            content := sample_JSON_stringify (sanitized sample_sanitize sample_form);
            created_at := 1000; tags := [["role"; "builder"]]; pubkey := None |}.
  assert (Hin : CallSign
                  {| kind := 0;
                     content :=
                       sample_JSON_stringify (sanitized sample_sanitize sample_form);
                     created_at := 1000; tags := [["role"; "builder"]];
                     pubkey := None |}
                ∈ made (fst (handleSubmit sample_sanitize sample_JSON_stringify
                               idle_profile_page ready_service (Some P1)
                               sample_form (Some sample_suggest) true sample_sign
                               1000000)))
    by (vm_compute; left).
  split; [exact Hin|]. split; [reflexivity|]. split; [reflexivity|].
  exact (handleSubmit_role_roundtrip sample_sanitize sample_JSON_stringify _ _ _ _
           _ _ _ _ _ Hin eq_refl).
Defined.

Lemma handleSubmit_follow_entry_witness :
  exists follows,
    CallSign follows
    ∈ made (fst (handleSubmit sample_sanitize sample_JSON_stringify
                   idle_profile_page ready_service (Some P1) sample_form
                   (Some sample_suggest) true sample_sign 1000000))
    /\ kind follows = 3
    /\ relayUrls ready_service = ["wss://relay.damus.io"]
    /\ decode_follow_tags (tags follows)
       = [ {| FollowEntry.pubkey := P1;
              FollowEntry.relay := Some "wss://relay.damus.io";
              FollowEntry.petname := Some "alice" |} ].
Proof.
  exists {| kind := 3; content := EmptyString; created_at := 1000;
            tags := [["p"; P1; "wss://relay.damus.io"; "alice"]];
            pubkey := None |}.
  assert (Hin : CallSign
                  {| kind := 3; content := EmptyString; created_at := 1000;
                     tags := [["p"; P1; "wss://relay.damus.io"; "alice"]];
                     pubkey := None |}
                ∈ made (fst (handleSubmit sample_sanitize sample_JSON_stringify
                               idle_profile_page ready_service (Some P1)
                               sample_form (Some sample_suggest) true sample_sign
                               1000000)))
    by (vm_compute; right; left).
  assert (Hne : "wss://relay.damus.io" <> EmptyString) by discriminate.
  split; [exact Hin|]. split; [reflexivity|]. split; [reflexivity|].
  exact (handleSubmit_follow_entry sample_sanitize sample_JSON_stringify _ _ _ _
           _ _ _ _ _ "wss://relay.damus.io" [] Hin eq_refl eq_refl Hne).
Defined.

(** The profile that [handleSubmit] writes for the sample form is read back
    as the sanitized form. *)
Example profile_content_roundtrip_example :
  parseProfileMetadata sample_JSON_parse
    (sample_JSON_stringify (sanitized sample_sanitize sample_form))
  = Ok (Some (sanitized sample_sanitize sample_form))
  /\ sample_JSON_parse
       (sample_JSON_stringify (sanitized sample_sanitize sample_form))
     = Ok (json_of_metadata (sanitized sample_sanitize sample_form)).
Proof. split; vm_compute; reflexivity. Qed.
